(** * readnow: the text chunker and the playback session of the reader

    A shallow embedding of [utils/textUtils.ts] ([splitTextIntoChunks]) and of
    the playback handlers of [App.tsx] ([resetAudioState],
    [preloadGeminiChunk], [playSequence], [handlePause],
    [handleStartProcess]) together with the properties the specification
    states about them.

    Conventions.
    - A JavaScript string is the list of its UTF-16 code units ([N]); its
      [.length] is the length of that list.
    - A JavaScript number that holds an index, a counter or a size is a [Z]
      (such numbers stay far below 2^53, where doubles are exact); a number
      that holds a time or a rate is a rational ([Q]) in the model of the
      session, where the arithmetic of the clock is exact; the clock
      arithmetic of the pause handler and of the highlight estimator is
      embedded again in IEEE doubles ([Doubles]), as the program computes
      it.
    - [Map<number, AudioBuffer>] is a [gmap Z AudioBuffer], [Set<number>] a
      [gset Z]. *)

From Stdlib Require Import ZArith NArith QArith Qround.
From Stdlib Require Import List Bool Lia String Ascii.
From Stdlib Require Import Decimal DecimalString DecimalN.
From Stdlib Require Import Floats.
From stdpp Require Import base gmap list.

Import ListNotations.
Local Open Scope Z_scope.

(** ** Strings *)

Definition code_unit : Type := N.
Definition jsstring : Type := list code_unit.

(** [s.length] *)
Definition jslen (s : jsstring) : Z := Z.of_nat (length s).

(** A string literal of the source all of whose characters are ASCII. *)
Fixpoint lit (s : string) : jsstring :=
  match s with
  | EmptyString => []
  | String a s' => N_of_ascii a :: lit s'
  end.

(** The character class [[。.！!？?\n\r]] of the pattern in
    [splitTextIntoChunks]. *)
Definition is_delim (c : code_unit) : bool :=
  ((c =? 0x3002) || (c =? 0x2E) || (c =? 0xFF01) || (c =? 0x21) ||
   (c =? 0xFF1F) || (c =? 0x3F) || (c =? 0x0A) || (c =? 0x0D))%N.

(** What [String.prototype.trim] strips: the code units of ECMAScript's
    WhiteSpace and LineTerminator productions. *)
Definition is_ws (c : code_unit) : bool :=
  ((c =? 0x09) || (c =? 0x0A) || (c =? 0x0B) || (c =? 0x0C) || (c =? 0x0D) ||
   (c =? 0x20) || (c =? 0xA0) || (c =? 0x1680) ||
   ((0x2000 <=? c) && (c <=? 0x200A)) ||
   (c =? 0x2028) || (c =? 0x2029) || (c =? 0x202F) || (c =? 0x205F) ||
   (c =? 0x3000) || (c =? 0xFEFF))%N.

Fixpoint trimStart (s : jsstring) : jsstring :=
  match s with
  | [] => []
  | c :: s' => if is_ws c then trimStart s' else s
  end.

Definition trimEnd (s : jsstring) : jsstring := rev (trimStart (rev s)).

(** [s.trim()] *)
Definition trim (s : jsstring) : jsstring := trimEnd (trimStart s).

(** The characters of a string that are not white space, in order. *)
Fixpoint non_ws (s : jsstring) : jsstring :=
  match s with
  | [] => []
  | c :: s' => if is_ws c then non_ws s' else c :: non_ws s'
  end.

(** ** The chunker ([utils/textUtils.ts]) *)

(** [text.split(/([。.！!？?\n\r]+)/)] on a non-empty [text]: the pattern
    matches the maximal runs of delimiter characters, and because the run is
    a capture group the result alternates the text between two runs and the
    run itself; it starts and ends with a text piece, which is empty when
    [text] starts or ends with a delimiter.  [in_run] tells whether the
    piece being scanned is a run, [cur] holds it reversed. *)
Fixpoint split_scan (in_run : bool) (cur : jsstring) (s : jsstring)
  : list jsstring :=
  match s with
  | [] => if in_run then [rev cur; []] else [rev cur]
  | c :: s' =>
      if eqb (is_delim c) in_run
      then split_scan in_run (c :: cur) s'
      else rev cur :: split_scan (negb in_run) [c] s'
  end.

Definition split_sentences (text : jsstring) : list jsstring :=
  split_scan false [] text.

(** The state of the loop: [chunks] and [currentChunk]. *)
Definition chunker : Type := (list jsstring * jsstring)%type.

(** One iteration of the [for] loop, on the sentence [s]. *)
Definition chunk_step (maxChars : Z) (st : chunker) (s : jsstring) : chunker :=
  let '(chunks, currentChunk) := st in
  let '(chunks, currentChunk) :=
    if (jslen currentChunk + jslen s >? maxChars)
       && (jslen (trim currentChunk) >? 0)
    then (chunks ++ [trim currentChunk], [])
    else (chunks, currentChunk) in
  (chunks, currentChunk ++ s).

Definition chunk_loop (maxChars : Z) (sentences : list jsstring) (st : chunker)
  : chunker :=
  fold_left (chunk_step maxChars) sentences st.

(** The code after the loop: the remaining buffer is pushed when it holds
    more than white space. *)
Definition chunk_finish (st : chunker) : list jsstring :=
  let '(chunks, currentChunk) := st in
  if jslen (trim currentChunk) >? 0
  then chunks ++ [trim currentChunk]
  else chunks.

(** The value of the parameter [maxChars] when the caller omits it. *)
Definition default_maxChars : Z := 1500.

Definition splitTextIntoChunks (text : jsstring) (maxChars : Z)
  : list jsstring :=
  match text with
  | [] => []
  | _ :: _ =>
      chunk_finish (chunk_loop maxChars (split_sentences text) ([], []))
  end.

(** [t] is the segments [cs], in order, with white space before, between
    and after them. *)
Inductive spaced : list jsstring -> jsstring -> Prop :=
| spaced_nil g : non_ws g = [] -> spaced [] g
| spaced_cons g c cs t :
    non_ws g = [] -> spaced cs t -> spaced (c :: cs) (g ++ c ++ t).

(** [c] begins with a character of the delimiter class. *)
Definition starts_with_delim (c : jsstring) : bool :=
  match c with
  | [] => false
  | x :: _ => is_delim x
  end.

(** No segment but possibly the first begins with a delimiter. *)
Definition delims_attached (chunks : list jsstring) : Prop :=
  Forall (fun c => starts_with_delim c = false) (tail chunks).

(** The sentences of a text as the specification speaks of them: each
    stretch of text with the run of delimiters that ends it. *)
Fixpoint attach_delims (pieces : list jsstring) : list jsstring :=
  match pieces with
  | t :: d :: rest => (t ++ d) :: attach_delims rest
  | _ => pieces
  end.

Definition whole_sentences (text : jsstring) : list jsstring :=
  attach_delims (split_sentences text).

(** [c] holds [s] whole. *)
Definition holds_whole (c s : jsstring) : Prop :=
  exists before after, c = before ++ s ++ after.

(** The bound on the segments as the specification words it: a segment
    longer than [maxChars] holds, whole, a sentence that is itself longer
    than [maxChars]. *)
Definition sentences_kept_whole (text : jsstring) (maxChars : Z) : Prop :=
  Forall (fun c =>
            jslen c <= maxChars \/
            exists s, In s (whole_sentences text) /\ maxChars < jslen s /\
                      holds_whole c s)
         (splitTextIntoChunks text maxChars).

(** The pieces of [split] alternate: text without any delimiter, then a
    non-empty run of delimiters, and so on. *)
Fixpoint alternates (in_run : bool) (l : list jsstring) : Prop :=
  match l with
  | [] => True
  | s :: l' =>
      (if in_run
       then s <> [] /\ forallb is_delim s = true
       else forallb (fun c => negb (is_delim c)) s = true)
      /\ alternates (negb in_run) l'
  end.

(** * The playback session ([App.tsx]) *)

(** ** Data *)

Inductive AppStatus : Type :=
| IDLE | PARSING_PDF | GENERATING_AUDIO | READY_TO_PLAY | PLAYING | ERROR.

Inductive TtsEngine : Type := gemini | browser.

(** The two messages the playback handlers pass to [setErrorMsg]. *)
Inductive Message : Type := GenerationFailed | BufferingTimedOut.

(** A decoded clip: [createBuffer(1, frameCount, sampleRate)] filled with
    the normalised samples. *)
Record AudioBuffer : Type := {
  sampleRate : Z;
  channelData : list Q
}.

(** [buffer.duration], in seconds. *)
Definition duration (b : AudioBuffer) : Q :=
  Z.of_nat (length (channelData b)) # Z.to_pos (sampleRate b).

Inductive ContextState : Type := suspended | running | closed.

(** The audio device: its state and its clock, which runs while the state
    is [running]. *)
Record AudioContext : Type := {
  state : ContextState;
  currentTime : Q
}.

(** An [AudioBufferSourceNode] once started: its clip, its rate and the
    offset in the clip it was started at. *)
Record SourceNode : Type := {
  buffer : AudioBuffer;
  source_rate : Q;
  source_offset : Q
}.

(** One call of the collaborator [generateSpeechFromText(text, voice)],
    with the index of the segment it was made for. *)
Record SynthCall : Type := {
  call_index : Z;
  call_text : jsstring;
  call_voice : jsstring
}.

(** The component: the React state its playback handlers set (from [status]
    to [isPlaying]), its refs (from [audioContextRef] to [sessionIdRef]) and
    what it has asked of the platform: the animation frames requested and
    not cancelled, the utterances queued on [speechSynthesis], the synthesis
    calls made. *)
Record World : Type := {
  status : AppStatus;
  errorMsg : option Message;
  timeLeft : option Z;
  chunks : list jsstring;
  currentChunkIndex : Z;
  chunkProgressIndex : Z;
  isPlaying : bool;
  audioContextRef : option AudioContext;
  sourceNodeRef : option SourceNode;
  audioCacheRef : gmap Z AudioBuffer;
  fetchingSetRef : gset Z;
  startTimeRef : Q;
  pausedTimeRef : Q;
  isPlayingRef : bool;
  animationFrameRef : Z;
  sessionIdRef : Z;
  pendingFrames : gset Z;
  nextFrame : Z;
  speechQueue : list jsstring;
  synthCalls : list SynthCall
}.

(** Assignments to one field. *)
Definition set_status (v : AppStatus) (w : World) : World :=
  {| status := v; errorMsg := errorMsg w; timeLeft := timeLeft w;
     chunks := chunks w; currentChunkIndex := currentChunkIndex w;
     chunkProgressIndex := chunkProgressIndex w; isPlaying := isPlaying w;
     audioContextRef := audioContextRef w; sourceNodeRef := sourceNodeRef w;
     audioCacheRef := audioCacheRef w; fetchingSetRef := fetchingSetRef w;
     startTimeRef := startTimeRef w; pausedTimeRef := pausedTimeRef w;
     isPlayingRef := isPlayingRef w;
     animationFrameRef := animationFrameRef w;
     sessionIdRef := sessionIdRef w; pendingFrames := pendingFrames w;
     nextFrame := nextFrame w; speechQueue := speechQueue w;
     synthCalls := synthCalls w |}.

Definition set_errorMsg (v : option Message) (w : World) : World :=
  {| status := status w; errorMsg := v; timeLeft := timeLeft w;
     chunks := chunks w; currentChunkIndex := currentChunkIndex w;
     chunkProgressIndex := chunkProgressIndex w; isPlaying := isPlaying w;
     audioContextRef := audioContextRef w; sourceNodeRef := sourceNodeRef w;
     audioCacheRef := audioCacheRef w; fetchingSetRef := fetchingSetRef w;
     startTimeRef := startTimeRef w; pausedTimeRef := pausedTimeRef w;
     isPlayingRef := isPlayingRef w;
     animationFrameRef := animationFrameRef w;
     sessionIdRef := sessionIdRef w; pendingFrames := pendingFrames w;
     nextFrame := nextFrame w; speechQueue := speechQueue w;
     synthCalls := synthCalls w |}.

Definition set_timeLeft (v : option Z) (w : World) : World :=
  {| status := status w; errorMsg := errorMsg w; timeLeft := v;
     chunks := chunks w; currentChunkIndex := currentChunkIndex w;
     chunkProgressIndex := chunkProgressIndex w; isPlaying := isPlaying w;
     audioContextRef := audioContextRef w; sourceNodeRef := sourceNodeRef w;
     audioCacheRef := audioCacheRef w; fetchingSetRef := fetchingSetRef w;
     startTimeRef := startTimeRef w; pausedTimeRef := pausedTimeRef w;
     isPlayingRef := isPlayingRef w;
     animationFrameRef := animationFrameRef w;
     sessionIdRef := sessionIdRef w; pendingFrames := pendingFrames w;
     nextFrame := nextFrame w; speechQueue := speechQueue w;
     synthCalls := synthCalls w |}.

Definition set_chunks (v : list jsstring) (w : World) : World :=
  {| status := status w; errorMsg := errorMsg w; timeLeft := timeLeft w;
     chunks := v; currentChunkIndex := currentChunkIndex w;
     chunkProgressIndex := chunkProgressIndex w; isPlaying := isPlaying w;
     audioContextRef := audioContextRef w; sourceNodeRef := sourceNodeRef w;
     audioCacheRef := audioCacheRef w; fetchingSetRef := fetchingSetRef w;
     startTimeRef := startTimeRef w; pausedTimeRef := pausedTimeRef w;
     isPlayingRef := isPlayingRef w;
     animationFrameRef := animationFrameRef w;
     sessionIdRef := sessionIdRef w; pendingFrames := pendingFrames w;
     nextFrame := nextFrame w; speechQueue := speechQueue w;
     synthCalls := synthCalls w |}.

Definition set_currentChunkIndex (v : Z) (w : World) : World :=
  {| status := status w; errorMsg := errorMsg w; timeLeft := timeLeft w;
     chunks := chunks w; currentChunkIndex := v;
     chunkProgressIndex := chunkProgressIndex w; isPlaying := isPlaying w;
     audioContextRef := audioContextRef w; sourceNodeRef := sourceNodeRef w;
     audioCacheRef := audioCacheRef w; fetchingSetRef := fetchingSetRef w;
     startTimeRef := startTimeRef w; pausedTimeRef := pausedTimeRef w;
     isPlayingRef := isPlayingRef w;
     animationFrameRef := animationFrameRef w;
     sessionIdRef := sessionIdRef w; pendingFrames := pendingFrames w;
     nextFrame := nextFrame w; speechQueue := speechQueue w;
     synthCalls := synthCalls w |}.

Definition set_chunkProgressIndex (v : Z) (w : World) : World :=
  {| status := status w; errorMsg := errorMsg w; timeLeft := timeLeft w;
     chunks := chunks w; currentChunkIndex := currentChunkIndex w;
     chunkProgressIndex := v; isPlaying := isPlaying w;
     audioContextRef := audioContextRef w; sourceNodeRef := sourceNodeRef w;
     audioCacheRef := audioCacheRef w; fetchingSetRef := fetchingSetRef w;
     startTimeRef := startTimeRef w; pausedTimeRef := pausedTimeRef w;
     isPlayingRef := isPlayingRef w;
     animationFrameRef := animationFrameRef w;
     sessionIdRef := sessionIdRef w; pendingFrames := pendingFrames w;
     nextFrame := nextFrame w; speechQueue := speechQueue w;
     synthCalls := synthCalls w |}.

Definition set_isPlaying (v : bool) (w : World) : World :=
  {| status := status w; errorMsg := errorMsg w; timeLeft := timeLeft w;
     chunks := chunks w; currentChunkIndex := currentChunkIndex w;
     chunkProgressIndex := chunkProgressIndex w; isPlaying := v;
     audioContextRef := audioContextRef w; sourceNodeRef := sourceNodeRef w;
     audioCacheRef := audioCacheRef w; fetchingSetRef := fetchingSetRef w;
     startTimeRef := startTimeRef w; pausedTimeRef := pausedTimeRef w;
     isPlayingRef := isPlayingRef w;
     animationFrameRef := animationFrameRef w;
     sessionIdRef := sessionIdRef w; pendingFrames := pendingFrames w;
     nextFrame := nextFrame w; speechQueue := speechQueue w;
     synthCalls := synthCalls w |}.

Definition set_audioContextRef (v : option AudioContext) (w : World) : World :=
  {| status := status w; errorMsg := errorMsg w; timeLeft := timeLeft w;
     chunks := chunks w; currentChunkIndex := currentChunkIndex w;
     chunkProgressIndex := chunkProgressIndex w; isPlaying := isPlaying w;
     audioContextRef := v; sourceNodeRef := sourceNodeRef w;
     audioCacheRef := audioCacheRef w; fetchingSetRef := fetchingSetRef w;
     startTimeRef := startTimeRef w; pausedTimeRef := pausedTimeRef w;
     isPlayingRef := isPlayingRef w;
     animationFrameRef := animationFrameRef w;
     sessionIdRef := sessionIdRef w; pendingFrames := pendingFrames w;
     nextFrame := nextFrame w; speechQueue := speechQueue w;
     synthCalls := synthCalls w |}.

Definition set_sourceNodeRef (v : option SourceNode) (w : World) : World :=
  {| status := status w; errorMsg := errorMsg w; timeLeft := timeLeft w;
     chunks := chunks w; currentChunkIndex := currentChunkIndex w;
     chunkProgressIndex := chunkProgressIndex w; isPlaying := isPlaying w;
     audioContextRef := audioContextRef w; sourceNodeRef := v;
     audioCacheRef := audioCacheRef w; fetchingSetRef := fetchingSetRef w;
     startTimeRef := startTimeRef w; pausedTimeRef := pausedTimeRef w;
     isPlayingRef := isPlayingRef w;
     animationFrameRef := animationFrameRef w;
     sessionIdRef := sessionIdRef w; pendingFrames := pendingFrames w;
     nextFrame := nextFrame w; speechQueue := speechQueue w;
     synthCalls := synthCalls w |}.

Definition set_audioCacheRef (v : gmap Z AudioBuffer) (w : World) : World :=
  {| status := status w; errorMsg := errorMsg w; timeLeft := timeLeft w;
     chunks := chunks w; currentChunkIndex := currentChunkIndex w;
     chunkProgressIndex := chunkProgressIndex w; isPlaying := isPlaying w;
     audioContextRef := audioContextRef w; sourceNodeRef := sourceNodeRef w;
     audioCacheRef := v; fetchingSetRef := fetchingSetRef w;
     startTimeRef := startTimeRef w; pausedTimeRef := pausedTimeRef w;
     isPlayingRef := isPlayingRef w;
     animationFrameRef := animationFrameRef w;
     sessionIdRef := sessionIdRef w; pendingFrames := pendingFrames w;
     nextFrame := nextFrame w; speechQueue := speechQueue w;
     synthCalls := synthCalls w |}.

Definition set_fetchingSetRef (v : gset Z) (w : World) : World :=
  {| status := status w; errorMsg := errorMsg w; timeLeft := timeLeft w;
     chunks := chunks w; currentChunkIndex := currentChunkIndex w;
     chunkProgressIndex := chunkProgressIndex w; isPlaying := isPlaying w;
     audioContextRef := audioContextRef w; sourceNodeRef := sourceNodeRef w;
     audioCacheRef := audioCacheRef w; fetchingSetRef := v;
     startTimeRef := startTimeRef w; pausedTimeRef := pausedTimeRef w;
     isPlayingRef := isPlayingRef w;
     animationFrameRef := animationFrameRef w;
     sessionIdRef := sessionIdRef w; pendingFrames := pendingFrames w;
     nextFrame := nextFrame w; speechQueue := speechQueue w;
     synthCalls := synthCalls w |}.

Definition set_startTimeRef (v : Q) (w : World) : World :=
  {| status := status w; errorMsg := errorMsg w; timeLeft := timeLeft w;
     chunks := chunks w; currentChunkIndex := currentChunkIndex w;
     chunkProgressIndex := chunkProgressIndex w; isPlaying := isPlaying w;
     audioContextRef := audioContextRef w; sourceNodeRef := sourceNodeRef w;
     audioCacheRef := audioCacheRef w; fetchingSetRef := fetchingSetRef w;
     startTimeRef := v; pausedTimeRef := pausedTimeRef w;
     isPlayingRef := isPlayingRef w;
     animationFrameRef := animationFrameRef w;
     sessionIdRef := sessionIdRef w; pendingFrames := pendingFrames w;
     nextFrame := nextFrame w; speechQueue := speechQueue w;
     synthCalls := synthCalls w |}.

Definition set_pausedTimeRef (v : Q) (w : World) : World :=
  {| status := status w; errorMsg := errorMsg w; timeLeft := timeLeft w;
     chunks := chunks w; currentChunkIndex := currentChunkIndex w;
     chunkProgressIndex := chunkProgressIndex w; isPlaying := isPlaying w;
     audioContextRef := audioContextRef w; sourceNodeRef := sourceNodeRef w;
     audioCacheRef := audioCacheRef w; fetchingSetRef := fetchingSetRef w;
     startTimeRef := startTimeRef w; pausedTimeRef := v;
     isPlayingRef := isPlayingRef w;
     animationFrameRef := animationFrameRef w;
     sessionIdRef := sessionIdRef w; pendingFrames := pendingFrames w;
     nextFrame := nextFrame w; speechQueue := speechQueue w;
     synthCalls := synthCalls w |}.

Definition set_isPlayingRef (v : bool) (w : World) : World :=
  {| status := status w; errorMsg := errorMsg w; timeLeft := timeLeft w;
     chunks := chunks w; currentChunkIndex := currentChunkIndex w;
     chunkProgressIndex := chunkProgressIndex w; isPlaying := isPlaying w;
     audioContextRef := audioContextRef w; sourceNodeRef := sourceNodeRef w;
     audioCacheRef := audioCacheRef w; fetchingSetRef := fetchingSetRef w;
     startTimeRef := startTimeRef w; pausedTimeRef := pausedTimeRef w;
     isPlayingRef := v; animationFrameRef := animationFrameRef w;
     sessionIdRef := sessionIdRef w; pendingFrames := pendingFrames w;
     nextFrame := nextFrame w; speechQueue := speechQueue w;
     synthCalls := synthCalls w |}.

Definition set_animationFrameRef (v : Z) (w : World) : World :=
  {| status := status w; errorMsg := errorMsg w; timeLeft := timeLeft w;
     chunks := chunks w; currentChunkIndex := currentChunkIndex w;
     chunkProgressIndex := chunkProgressIndex w; isPlaying := isPlaying w;
     audioContextRef := audioContextRef w; sourceNodeRef := sourceNodeRef w;
     audioCacheRef := audioCacheRef w; fetchingSetRef := fetchingSetRef w;
     startTimeRef := startTimeRef w; pausedTimeRef := pausedTimeRef w;
     isPlayingRef := isPlayingRef w; animationFrameRef := v;
     sessionIdRef := sessionIdRef w; pendingFrames := pendingFrames w;
     nextFrame := nextFrame w; speechQueue := speechQueue w;
     synthCalls := synthCalls w |}.

Definition set_sessionIdRef (v : Z) (w : World) : World :=
  {| status := status w; errorMsg := errorMsg w; timeLeft := timeLeft w;
     chunks := chunks w; currentChunkIndex := currentChunkIndex w;
     chunkProgressIndex := chunkProgressIndex w; isPlaying := isPlaying w;
     audioContextRef := audioContextRef w; sourceNodeRef := sourceNodeRef w;
     audioCacheRef := audioCacheRef w; fetchingSetRef := fetchingSetRef w;
     startTimeRef := startTimeRef w; pausedTimeRef := pausedTimeRef w;
     isPlayingRef := isPlayingRef w;
     animationFrameRef := animationFrameRef w; sessionIdRef := v;
     pendingFrames := pendingFrames w; nextFrame := nextFrame w;
     speechQueue := speechQueue w; synthCalls := synthCalls w |}.

Definition set_pendingFrames (v : gset Z) (w : World) : World :=
  {| status := status w; errorMsg := errorMsg w; timeLeft := timeLeft w;
     chunks := chunks w; currentChunkIndex := currentChunkIndex w;
     chunkProgressIndex := chunkProgressIndex w; isPlaying := isPlaying w;
     audioContextRef := audioContextRef w; sourceNodeRef := sourceNodeRef w;
     audioCacheRef := audioCacheRef w; fetchingSetRef := fetchingSetRef w;
     startTimeRef := startTimeRef w; pausedTimeRef := pausedTimeRef w;
     isPlayingRef := isPlayingRef w;
     animationFrameRef := animationFrameRef w;
     sessionIdRef := sessionIdRef w; pendingFrames := v;
     nextFrame := nextFrame w; speechQueue := speechQueue w;
     synthCalls := synthCalls w |}.

Definition set_nextFrame (v : Z) (w : World) : World :=
  {| status := status w; errorMsg := errorMsg w; timeLeft := timeLeft w;
     chunks := chunks w; currentChunkIndex := currentChunkIndex w;
     chunkProgressIndex := chunkProgressIndex w; isPlaying := isPlaying w;
     audioContextRef := audioContextRef w; sourceNodeRef := sourceNodeRef w;
     audioCacheRef := audioCacheRef w; fetchingSetRef := fetchingSetRef w;
     startTimeRef := startTimeRef w; pausedTimeRef := pausedTimeRef w;
     isPlayingRef := isPlayingRef w;
     animationFrameRef := animationFrameRef w;
     sessionIdRef := sessionIdRef w; pendingFrames := pendingFrames w;
     nextFrame := v; speechQueue := speechQueue w;
     synthCalls := synthCalls w |}.

Definition set_speechQueue (v : list jsstring) (w : World) : World :=
  {| status := status w; errorMsg := errorMsg w; timeLeft := timeLeft w;
     chunks := chunks w; currentChunkIndex := currentChunkIndex w;
     chunkProgressIndex := chunkProgressIndex w; isPlaying := isPlaying w;
     audioContextRef := audioContextRef w; sourceNodeRef := sourceNodeRef w;
     audioCacheRef := audioCacheRef w; fetchingSetRef := fetchingSetRef w;
     startTimeRef := startTimeRef w; pausedTimeRef := pausedTimeRef w;
     isPlayingRef := isPlayingRef w;
     animationFrameRef := animationFrameRef w;
     sessionIdRef := sessionIdRef w; pendingFrames := pendingFrames w;
     nextFrame := nextFrame w; speechQueue := v; synthCalls := synthCalls w |}.

Definition set_synthCalls (v : list SynthCall) (w : World) : World :=
  {| status := status w; errorMsg := errorMsg w; timeLeft := timeLeft w;
     chunks := chunks w; currentChunkIndex := currentChunkIndex w;
     chunkProgressIndex := chunkProgressIndex w; isPlaying := isPlaying w;
     audioContextRef := audioContextRef w; sourceNodeRef := sourceNodeRef w;
     audioCacheRef := audioCacheRef w; fetchingSetRef := fetchingSetRef w;
     startTimeRef := startTimeRef w; pausedTimeRef := pausedTimeRef w;
     isPlayingRef := isPlayingRef w;
     animationFrameRef := animationFrameRef w;
     sessionIdRef := sessionIdRef w; pendingFrames := pendingFrames w;
     nextFrame := nextFrame w; speechQueue := speechQueue w; synthCalls := v |}.

(** ** What a closure sees *)

(** The handlers are closures of one render of the component: they read the
    React state as it was at that render, whatever the setters have done
    since.  [Render.t] is that snapshot; the refs are read from the
    [World]. *)
Module Render.
Record t : Type := {
  extractedText : jsstring;
  status : AppStatus;
  ttsEngine : TtsEngine;
  selectedVoice : jsstring;
  playbackRate : Q;
  timerDuration : Z;
  timeLeft : option Z;
  chunks : list jsstring;
  currentChunkIndex : Z
}.
End Render.

(** [timerDuration > 0 && timeLeft !== null && timeLeft <= 0] *)
Definition timer_expired (env : Render.t) : bool :=
  (Render.timerDuration env >? 0) &&
  match Render.timeLeft env with
  | Some t => t <=? 0
  | None => false
  end.

(** [timeLeft === 0 && timerDuration > 0] *)
Definition timer_at_zero (env : Render.t) : bool :=
  match Render.timeLeft env with
  | Some t => t =? 0
  | None => false
  end && (Render.timerDuration env >? 0).

(** [cs[index]], [None] for [undefined]. *)
Definition chunk_at (cs : list jsstring) (index : Z) : option jsstring :=
  if index <? 0 then None else nth_error cs (Z.to_nat index).

(** ** Animation frames *)

Definition cancelAnimationFrame (id : Z) (w : World) : World :=
  set_pendingFrames (pendingFrames w ∖ {[id]}) w.

(** [if (animationFrameRef.current)
        cancelAnimationFrame(animationFrameRef.current)] *)
Definition cancel_current_frame (w : World) : World :=
  if animationFrameRef w =? 0 then w
  else cancelAnimationFrame (animationFrameRef w) w.

(** [requestAnimationFrame(animateProgress)]: the world and the request id. *)
Definition requestAnimationFrame (w : World) : World * Z :=
  let id := nextFrame w in
  (set_nextFrame (id + 1) (set_pendingFrames ({[id]} ∪ pendingFrames w) w),
   id).

(** ** Decoding ([utils/audioUtils.ts]) *)

(** One little-endian 16-bit sample of an [Int16Array]. *)
Definition int16_le (lo hi : Z) : Z :=
  let u := lo + 256 * hi in
  if u >=? 32768 then u - 65536 else u.

(** The [Int16Array] over the bytes; a last odd byte is dropped. *)
Fixpoint int16_samples (data : list Z) : list Z :=
  match data with
  | lo :: hi :: rest => int16_le lo hi :: int16_samples rest
  | _ => []
  end.

(** [decodeAudioData(data, ctx, 24000)], one channel.  [createBuffer]
    throws on a frame count of zero: [None] is a rejected promise.  The
    function has no [await] of its own. *)
Definition decodeAudioData (data : list Z) (rate : Z) : option AudioBuffer :=
  match int16_samples data with
  | [] => None
  | frames =>
      Some {| sampleRate := rate;
              channelData := map (fun v => v # 32768) frames |}
  end.

(** ** Pending work *)

(** How a call of [generateSpeechFromText] settles. *)
Inductive SynthOutcome : Type :=
| Rejected
| Resolved (base64Audio : jsstring).

(** Who awaits the promise of [preloadGeminiChunk]. *)
Inductive Awaiter : Type :=
| Detached
| InStartProcess (env : Render.t) (newChunks : list jsstring)
| InPlaySequence (env : Render.t) (currentChunks : list jsstring).

(** What the component has left with the platform: a promise it awaits or
    a callback it registered, with the values the closure captured. *)
Inductive Task : Type :=
| SynthPending (env : Render.t) (index sid : Z) (a : Awaiter)
| ResumePending (env : Render.t) (index sid : Z)
                (currentChunks : list jsstring)
| SourcePlaying (env : Render.t) (index sid : Z)
                (currentChunks : list jsstring)
| UtterancePlaying (env : Render.t) (index sid : Z)
                   (currentChunks : list jsstring)
| PrefetchTimer (env : Render.t) (index sid : Z)
| FrameRequested (id : Z) (env : Render.t) (sid : Z) (offset : Q)
                 (bufferDuration : Q) (chunkTextLength : Z).

(** How a statement list completes: it runs to its end, returns early or
    throws. *)
Inductive Completion : Type := Normal | Return | Throw.

(** [e.error] of a [SpeechSynthesisErrorEvent]. *)
Inductive SpeechError : Type :=
| canceled | interrupted | audio_busy | audio_hardware | network
| synthesis_unavailable | synthesis_failed | language_unavailable
| voice_unavailable | text_too_long | invalid_argument | not_allowed.

(** [event.name] of a boundary event. *)
Inductive BoundaryName : Type := word | sentence | other_boundary.

(** The component after its first render. *)
Definition initial_world : World :=
  {| status := IDLE; errorMsg := None; timeLeft := None; chunks := [];
     currentChunkIndex := 0; chunkProgressIndex := -1; isPlaying := false;
     audioContextRef := None; sourceNodeRef := None; audioCacheRef := ∅;
     fetchingSetRef := ∅; startTimeRef := 0%Q; pausedTimeRef := 0%Q;
     isPlayingRef := false; animationFrameRef := 0; sessionIdRef := 0;
     pendingFrames := ∅; nextFrame := 1; speechQueue := [];
     synthCalls := [] |}.

(** ** The platform *)

(** What the handlers take from the browser: [atob] ([None] when it throws
    on its input) and the context [new AudioContext({ sampleRate: 24000 })]
    returns. *)
Class Platform : Type := {
  atob : jsstring -> option jsstring;
  newAudioContext : AudioContext
}.

Section Handlers.

Context {platform : Platform}.

(** [decodeBase64] of [utils/audioUtils.ts]: the characters that
    [/[\r\n\s]/g] matches, which are those [trim] strips, are removed, and
    the code units of the binary string fill a [Uint8Array]. *)
Definition decodeBase64 (base64 : jsstring) : option (list Z) :=
  let cleanBase64 := non_ws base64 in
  match atob cleanBase64 with
  | None => None
  | Some binaryString => Some (map (fun c => Z.of_N c mod 256) binaryString)
  end.

(** [if (!audioContextRef.current)
        audioContextRef.current = new AudioContext(...)] *)
Definition ensure_context (w : World) : World :=
  match audioContextRef w with
  | Some _ => w
  | None => set_audioContextRef (Some newAudioContext) w
  end.

(** [unlockAudioContext].  Its [resume()] is not awaited: the state of the
    context changes later, when the platform has started it.  The silent
    clip it plays leaves no trace in the component. *)
Definition unlockAudioContext (w : World) : World := ensure_context w.

Definition resetAudioState (env : Render.t) (w : World) : World :=
  let w := set_isPlayingRef false w in
  let w := set_isPlaying false w in
  let w := cancel_current_frame w in
  let w := set_chunkProgressIndex (-1) w in
  let w := match sourceNodeRef w with
           | Some _ => set_sourceNodeRef None w
           | None => w
           end in
  let w := set_speechQueue [] w in
  let w := set_audioCacheRef ∅ w in
  let w := set_fetchingSetRef ∅ w in
  let w := set_sessionIdRef (sessionIdRef w + 1) w in
  let w := set_currentChunkIndex 0 w in
  let w := set_pausedTimeRef 0%Q w in
  if Render.timerDuration env >? 0
  then set_timeLeft (Some (Render.timerDuration env * 60)) w
  else set_timeLeft None w.

(** *** [preloadGeminiChunk] *)

(** Up to [await generateSpeechFromText(text, selectedVoice)]: the four
    guards, then the index enters the fetching set and the call is made.
    The boolean tells whether the call was made, that is whether the
    function is suspended rather than returned. *)
Definition preload_begin (env : Render.t) (index sid : Z) (w : World)
  : World * bool :=
  if timer_at_zero env then (w, false)
  else if (index >=? Z.of_nat (length (Render.chunks env))) || (index <? 0)
  then (w, false)
  else if bool_decide (is_Some (audioCacheRef w !! index)) then (w, false)
  else if bool_decide (index ∈ fetchingSetRef w) then (w, false)
  else
    let w := set_fetchingSetRef ({[index]} ∪ fetchingSetRef w) w in
    match chunk_at (Render.chunks env) index with
    | Some text =>
        (set_synthCalls
           (synthCalls w ++ [{| call_index := index; call_text := text;
                                call_voice := Render.selectedVoice env |}]) w,
         true)
    | None => (w, true)
    end.

(** The rest of the [try] block, from the point where the call settles.
    [await decodeAudioData(...)] resumes in the same turn of the event loop
    ([decodeAudioData] awaits nothing), so no handler runs between the test
    of the session and the write to the cache. *)
Definition preload_try (index sid : Z) (outcome : SynthOutcome) (w : World)
  : World * Completion :=
  match outcome with
  | Rejected => (w, Throw)
  | Resolved base64Audio =>
      if negb (sid =? sessionIdRef w) then (w, Return)
      else
        let w := ensure_context w in
        match decodeBase64 base64Audio with
        | None => (w, Throw)
        | Some audioBytes =>
            match decodeAudioData audioBytes 24000 with
            | None => (w, Throw)
            | Some audioBuffer =>
                (set_audioCacheRef
                   (<[index := audioBuffer]> (audioCacheRef w)) w,
                 Normal)
            end
        end
  end.

(** [catch (error) { console.error(...) }] *)
Definition preload_catch (c : Completion) : Completion :=
  match c with
  | Throw => Normal
  | _ => c
  end.

(** [finally { fetchingSetRef.current.delete(index) }] *)
Definition preload_finally (index : Z) (w : World) : World :=
  set_fetchingSetRef (fetchingSetRef w ∖ {[index]}) w.

(** From the settling of the call to the end of [preloadGeminiChunk]: the
    world, and how the function completes ([Throw] would be a rejected
    promise). *)
Definition preload_finish (index sid : Z) (outcome : SynthOutcome) (w : World)
  : World * Completion :=
  let '(w, c) := preload_try index sid outcome w in
  let c := preload_catch c in
  (preload_finally index w, c).

(** *** [playSequence] *)

(** [elapsedRealTime * playbackRate + offset] of [animateProgress], in
    rationals; [Doubles.elapsedAudioTime] evaluates it in doubles. *)
Definition elapsedAudioTime (env : Render.t) (offset : Q) (now : Q) (w : World)
  : Q :=
  ((now - startTimeRef w) * Render.playbackRate env + offset)%Q.

(** From [preloadGeminiChunk(index + 1, currentSessionId)] to the end: the
    look-ahead, the source started at the stored offset, the first
    animation frame and [source.onended]. *)
Definition play_buffer (env : Render.t) (index sid : Z)
           (currentChunks : list jsstring) (b : AudioBuffer) (w : World)
  : World * list Task :=
  let '(w, started) := preload_begin env (index + 1) sid w in
  let ahead := if started then [SynthPending env (index + 1) sid Detached]
               else [] in
  let ahead := ahead ++ [PrefetchTimer env index sid] in
  match audioContextRef w with
  | None => (w, ahead)
  | Some ctx =>
      let offset := pausedTimeRef w in
      let w := set_startTimeRef (currentTime ctx) w in
      let w := set_sourceNodeRef
                 (Some {| buffer := b;
                          source_rate := Render.playbackRate env;
                          source_offset := offset |}) w in
      match chunk_at currentChunks index with
      | None => (w, ahead)
      | Some text =>
          let w := cancel_current_frame w in
          let '(w, id) := requestAnimationFrame w in
          let w := set_animationFrameRef id w in
          (w, ahead ++ [FrameRequested id env sid offset (duration b)
                                       (jslen text);
                        SourcePlaying env index sid currentChunks])
      end
  end.

(** After [await preloadGeminiChunk(index, currentSessionId)]. *)
Definition play_fetched (env : Render.t) (index sid : Z)
           (currentChunks : list jsstring) (w : World) : World * list Task :=
  if negb (sessionIdRef w =? sid) then (w, [])
  else
    match audioCacheRef w !! index with
    | None =>
        (if sessionIdRef w =? sid
         then set_errorMsg (Some BufferingTimedOut)
                (set_status ERROR
                   (set_isPlayingRef false (set_isPlaying false w)))
         else w,
         [])
    | Some b => play_buffer env index sid currentChunks b (set_status PLAYING w)
    end.

(** From [let buffer = audioCacheRef.current.get(index)]. *)
Definition play_from_cache (env : Render.t) (index sid : Z)
           (currentChunks : list jsstring) (w : World) : World * list Task :=
  match audioCacheRef w !! index with
  | Some b => play_buffer env index sid currentChunks b w
  | None =>
      let w := set_status GENERATING_AUDIO w in
      let '(w, started) := preload_begin env index sid w in
      if started
      then (w, [SynthPending env index sid
                             (InPlaySequence env currentChunks)])
      else play_fetched env index sid currentChunks w
  end.

Definition playSequence (env : Render.t) (index : Z)
           (currentChunks : list jsstring) (w : World) : World * list Task :=
  let currentSessionId := sessionIdRef w in
  if timer_expired env
  then (set_status READY_TO_PLAY
          (set_isPlayingRef false (set_isPlaying false w)), [])
  else if index >=? Z.of_nat (length currentChunks)
  then (set_chunkProgressIndex (-1)
          (set_pausedTimeRef 0%Q
             (set_currentChunkIndex 0
                (set_status IDLE
                   (set_isPlayingRef false (set_isPlaying false w))))), [])
  else
    let w := set_currentChunkIndex index w in
    let w := set_isPlaying true w in
    let w := set_isPlayingRef true w in
    let w := set_status PLAYING w in
    let w := set_chunkProgressIndex 0 w in
    match Render.ttsEngine env with
    | browser =>
        let text := match chunk_at currentChunks index with
                    | Some t => t
                    | None => lit "undefined"
                    end in
        (set_speechQueue (speechQueue w ++ [text]) w,
         [UtterancePlaying env index currentSessionId currentChunks])
    | gemini =>
        let w := ensure_context w in
        match audioContextRef w with
        | Some {| state := suspended |} =>
            (w, [ResumePending env index currentSessionId currentChunks])
        | _ => play_from_cache env index currentSessionId currentChunks w
        end
    end.

(** *** The callbacks [playSequence] registers *)

(** [utterance.onboundary] *)
Definition on_utterance_boundary (name : BoundaryName) (charIndex : Z)
           (w : World) : World :=
  match name with
  | word | sentence => set_chunkProgressIndex charIndex w
  | other_boundary => w
  end.

(** [utterance.onend] *)
Definition on_utterance_end (env : Render.t) (index sid : Z)
           (currentChunks : list jsstring) (w : World) : World * list Task :=
  if isPlayingRef w && (sessionIdRef w =? sid)
  then playSequence env (index + 1) currentChunks
         (set_chunkProgressIndex (-1) w)
  else (w, []).

(** [utterance.onerror] *)
Definition on_utterance_error (e : SpeechError) (w : World) : World :=
  match e with
  | interrupted | canceled => w
  | _ => set_isPlayingRef false (set_isPlaying false w)
  end.

(** [source.onended] *)
Definition on_source_ended (env : Render.t) (index sid : Z)
           (currentChunks : list jsstring) (w : World) : World * list Task :=
  let w := cancel_current_frame w in
  if isPlayingRef w && (sessionIdRef w =? sid)
  then playSequence env (index + 1) currentChunks
         (set_chunkProgressIndex (-1) (set_pausedTimeRef 0%Q w))
  else (w, []).

(** The callback of [setTimeout(..., 5000)]. *)
Definition on_prefetch_timer (env : Render.t) (index sid : Z) (w : World)
  : World * list Task :=
  if isPlayingRef w && (sessionIdRef w =? sid)
  then
    let '(w, started) := preload_begin env (index + 2) sid w in
    (w, if started then [SynthPending env (index + 2) sid Detached] else [])
  else (w, []).

(** [animateProgress], run by the platform for request [id] unless the
    request was cancelled. *)
Definition animateProgress (id : Z) (env : Render.t) (sid : Z) (offset : Q)
           (bufferDuration : Q) (chunkTextLength : Z) (w : World)
  : World * list Task :=
  if negb (bool_decide (id ∈ pendingFrames w)) then (w, [])
  else
    let w := set_pendingFrames (pendingFrames w ∖ {[id]}) w in
    match isPlayingRef w && (sessionIdRef w =? sid),
          sourceNodeRef w, audioContextRef w with
    | true, Some _, Some ctx =>
        let t := elapsedAudioTime env offset (currentTime ctx) w in
        if Qle_bool bufferDuration t
        then (set_chunkProgressIndex chunkTextLength w, [])
        else
          let ratio := (t / bufferDuration)%Q in
          let estimatedIndex := Qfloor (ratio * inject_Z chunkTextLength) in
          let w := set_chunkProgressIndex estimatedIndex w in
          let '(w, id') := requestAnimationFrame w in
          (set_animationFrameRef id' w,
           [FrameRequested id' env sid offset bufferDuration chunkTextLength])
    | _, _, _ => (w, [])
    end.

(** After [await audioContextRef.current.resume()] in [playSequence];
    [ok = false] is the rejection the [catch] logs. *)
Definition play_resumed (ok : bool) (env : Render.t) (index sid : Z)
           (currentChunks : list jsstring) (w : World) : World * list Task :=
  let w := match audioContextRef w with
           | Some ctx =>
               if ok
               then set_audioContextRef
                      (Some {| state := running;
                               currentTime := currentTime ctx |}) w
               else w
           | None => w
           end in
  play_from_cache env index sid currentChunks w.

(** *** The handlers of the controls *)

(** [audioContextRef.current.suspend()] when the context runs; the clock
    stops. *)
Definition suspend_context (w : World) : World :=
  match audioContextRef w with
  | Some {| state := running; currentTime := now |} =>
      set_audioContextRef (Some {| state := suspended; currentTime := now |}) w
  | _ => w
  end.

(** [handlePause].  The times are rationals here; [Doubles.handlePause]
    evaluates the statement that records the position of the pause in
    doubles. *)
Definition handlePause (env : Render.t) (w : World) : World :=
  let w := set_isPlayingRef false w in
  let w := set_isPlaying false w in
  let w := set_status READY_TO_PLAY w in
  let w := cancel_current_frame w in
  match Render.ttsEngine env with
  | browser => set_speechQueue [] w
  | gemini =>
      let w := suspend_context w in
      match sourceNodeRef w, audioContextRef w with
      | Some _, Some ctx =>
          let elapsed :=
            ((currentTime ctx - startTimeRef w) * Render.playbackRate env)%Q in
          set_pausedTimeRef (pausedTimeRef w + elapsed)%Q w
      | _, _ => w
      end
  end.

(** [handleResume]; [confirmed] is the answer to [window.confirm]. *)
Definition handleResume (env : Render.t) (confirmed : bool) (w : World)
  : World * list Task :=
  if timer_expired env && negb confirmed then (w, [])
  else
    let w := if timer_expired env
             then set_timeLeft (Some (Render.timerDuration env * 60)) w
             else w in
    let w := match Render.ttsEngine env with
             | gemini => unlockAudioContext w
             | browser => w
             end in
    playSequence env (Render.currentChunkIndex env) (Render.chunks env) w.

(** The size [handleStartProcess] and [handleJumpToChunk] pass to the
    chunker. *)
Definition chunkSize (engine : TtsEngine) : Z :=
  match engine with
  | gemini => 200
  | browser => 2500
  end.

Definition handleJumpToChunk (env : Render.t) (index : Z) (w : World)
  : World * list Task :=
  match Render.status env with
  | PARSING_PDF => (w, [])
  | _ =>
      let w := match Render.ttsEngine env with
               | gemini => unlockAudioContext w
               | browser => w
               end in
      let w := set_isPlayingRef false w in
      let w := set_isPlaying false w in
      let w := suspend_context w in
      let w := match sourceNodeRef w with
               | Some _ => set_sourceNodeRef None w
               | None => w
               end in
      let w := cancel_current_frame w in
      let w := set_speechQueue [] w in
      let w := set_sessionIdRef (sessionIdRef w + 1) w in
      let '(currentChunks, w) :=
        match Render.chunks env, trim (Render.extractedText env) with
        | [], _ :: _ =>
            let cs := splitTextIntoChunks (Render.extractedText env)
                        (chunkSize (Render.ttsEngine env)) in
            (cs, set_chunks cs w)
        | cs, _ => (cs, w)
        end in
      match currentChunks with
      | [] => (w, [])
      | _ :: _ =>
          let w := set_pausedTimeRef 0%Q w in
          let w := set_chunkProgressIndex (-1) w in
          let w := if timer_at_zero env
                   then set_timeLeft (Some (Render.timerDuration env * 60)) w
                   else w in
          playSequence env index currentChunks (set_status READY_TO_PLAY w)
      end
  end.

(** After [await preloadGeminiChunk(0, currentSessionId)] in
    [handleStartProcess]. *)
Definition start_fetched (env : Render.t) (sid : Z)
           (newChunks : list jsstring) (w : World) : World * list Task :=
  if negb (sid =? sessionIdRef w) then (w, [])
  else if bool_decide (is_Some (audioCacheRef w !! 0))
  then playSequence env 0 newChunks (set_status READY_TO_PLAY w)
  else (set_status IDLE (set_errorMsg (Some GenerationFailed) w), []).

Definition handleStartProcess (env : Render.t) (w : World)
  : World * list Task :=
  match Render.extractedText env with
  | [] => (w, [])
  | _ :: _ =>
      let w := match Render.ttsEngine env with
               | gemini => unlockAudioContext w
               | browser => w
               end in
      let w := resetAudioState env w in
      let w := if Render.timerDuration env >? 0
               then set_timeLeft (Some (Render.timerDuration env * 60)) w
               else set_timeLeft None w in
      let newChunks := splitTextIntoChunks (Render.extractedText env)
                         (chunkSize (Render.ttsEngine env)) in
      let w := set_chunks newChunks w in
      match newChunks with
      | [] => (w, [])
      | _ :: _ =>
          match Render.ttsEngine env with
          | gemini =>
              let w := set_status GENERATING_AUDIO w in
              let currentSessionId := sessionIdRef w in
              let '(w, started) := preload_begin env 0 currentSessionId w in
              if started
              then (w, [SynthPending env 0 currentSessionId
                                     (InStartProcess env newChunks)])
              else start_fetched env currentSessionId newChunks w
          | browser => playSequence env 0 newChunks (set_status READY_TO_PLAY w)
          end
      end
  end.

(** The callback of the one-second interval:
    [setTimeLeft(prev => ...)], with [handlePause] when the budget ends. *)
Definition on_timer_tick (env : Render.t) (w : World) : World :=
  match timeLeft w with
  | Some prev =>
      if prev <=? 1
      then set_timeLeft (Some 0) (handlePause env w)
      else set_timeLeft (Some (prev - 1)) w
  | None => w
  end.

(** ** The event loop *)

(** The continuation of the caller that awaits [preloadGeminiChunk], with
    the [index] and the [currentSessionId] it passed to it.  It runs in the
    same turn of the event loop as the end of [preloadGeminiChunk]. *)
Definition resume_awaiter (a : Awaiter) (index sid : Z) (w : World)
  : World * list Task :=
  match a with
  | Detached => (w, [])
  | InStartProcess env newChunks => start_fetched env sid newChunks w
  | InPlaySequence env currentChunks =>
      play_fetched env index sid currentChunks w
  end.

(** The call of [generateSpeechFromText] settles: [preloadGeminiChunk] runs
    to its end, then its awaiter. *)
Definition synth_settled (index sid : Z) (a : Awaiter)
           (outcome : SynthOutcome) (w : World) : World * list Task :=
  resume_awaiter a index sid (fst (preload_finish index sid outcome w)).

(** The clock of a running context advances by [dt] seconds. *)
Definition advance_clock (dt : Q) (w : World) : World :=
  match audioContextRef w with
  | Some {| state := running; currentTime := now |} =>
      if Qle_bool 0 dt
      then set_audioContextRef
             (Some {| state := running; currentTime := (now + dt)%Q |}) w
      else w
  | _ => w
  end.

(** The platform starts a context whose [resume()] was not awaited. *)
Definition context_started (w : World) : World :=
  match audioContextRef w with
  | Some {| state := suspended; currentTime := now |} =>
      set_audioContextRef (Some {| state := running; currentTime := now |}) w
  | _ => w
  end.

(** One turn of the event loop: a control is used, a promise settles or a
    callback fires, each with the values its closure holds. *)
Inductive Event : Type :=
| Start (env : Render.t)
| Jump (env : Render.t) (index : Z)
| Pause (env : Render.t)
| Resume (env : Render.t) (confirmed : bool)
| ResetAudio (env : Render.t)
| TimerTick (env : Render.t)
| SynthSettled (index sid : Z) (a : Awaiter) (outcome : SynthOutcome)
| ContextResumed (ok : bool) (env : Render.t) (index sid : Z)
                 (currentChunks : list jsstring)
| SourceEnded (env : Render.t) (index sid : Z) (currentChunks : list jsstring)
| UtteranceBoundary (name : BoundaryName) (charIndex : Z)
| UtteranceEnd (env : Render.t) (index sid : Z)
               (currentChunks : list jsstring)
| UtteranceError (e : SpeechError)
| PrefetchTimeout (env : Render.t) (index sid : Z)
| Frame (id : Z) (env : Render.t) (sid : Z) (offset bufferDuration : Q)
        (chunkTextLength : Z)
| ClockAdvance (dt : Q)
| ContextStarted.

Definition handle (e : Event) (w : World) : World * list Task :=
  match e with
  | Start env => handleStartProcess env w
  | Jump env index => handleJumpToChunk env index w
  | Pause env => (handlePause env w, [])
  | Resume env confirmed => handleResume env confirmed w
  | ResetAudio env => (resetAudioState env w, [])
  | TimerTick env => (on_timer_tick env w, [])
  | SynthSettled index sid a outcome => synth_settled index sid a outcome w
  | ContextResumed ok env index sid cs => play_resumed ok env index sid cs w
  | SourceEnded env index sid cs => on_source_ended env index sid cs w
  | UtteranceBoundary name charIndex =>
      (on_utterance_boundary name charIndex w, [])
  | UtteranceEnd env index sid cs => on_utterance_end env index sid cs w
  | UtteranceError e => (on_utterance_error e w, [])
  | PrefetchTimeout env index sid => on_prefetch_timer env index sid w
  | Frame id env sid offset d n => animateProgress id env sid offset d n w
  | ClockAdvance dt => (advance_clock dt w, [])
  | ContextStarted => (context_started w, [])
  end.

(** The world after a sequence of turns. *)
Definition run (es : list Event) (w : World) : World :=
  fold_left (fun w e => fst (handle e w)) es w.

(** The number of synthesis calls made for segment [i]. *)
Definition synth_count (i : Z) (w : World) : nat :=
  length (List.filter (fun c => call_index c =? i) (synthCalls w)).

(** ** The configurations the component reaches *)

(** The turns the user, the clock and the platform start on their own. *)
Definition control (e : Event) : bool :=
  match e with
  | Start _ | Jump _ _ | Pause _ | Resume _ _ | ResetAudio _ | TimerTick _
  | ClockAdvance _ | ContextStarted => true
  | _ => false
  end.

(** The turns a pending task gives rise to. *)
Inductive fires : Task -> Event -> Prop :=
| fires_synth env index sid a outcome :
    fires (SynthPending env index sid a) (SynthSettled index sid a outcome)
| fires_resume env index sid cs ok :
    fires (ResumePending env index sid cs) (ContextResumed ok env index sid cs)
| fires_ended env index sid cs :
    fires (SourcePlaying env index sid cs) (SourceEnded env index sid cs)
| fires_boundary env index sid cs name charIndex :
    fires (UtterancePlaying env index sid cs)
          (UtteranceBoundary name charIndex)
| fires_end env index sid cs :
    fires (UtterancePlaying env index sid cs) (UtteranceEnd env index sid cs)
| fires_error env index sid cs e :
    fires (UtterancePlaying env index sid cs) (UtteranceError e)
| fires_timeout env index sid :
    fires (PrefetchTimer env index sid) (PrefetchTimeout env index sid)
| fires_frame id env sid offset d n :
    fires (FrameRequested id env sid offset d n)
          (Frame id env sid offset d n).

(** A world and the tasks left with the platform so far, from the first
    render on.  A task stays in the list once fired: a callback may fire
    again, and a promise that has settled is one more behaviour than the
    platform has. *)
Inductive reachable : World -> list Task -> Prop :=
| reach_first : reachable initial_world []
| reach_control e w ts :
    reachable w ts -> control e = true ->
    reachable (fst (handle e w)) (ts ++ snd (handle e w))
| reach_fired t e w ts :
    reachable w ts -> In t ts -> fires t e ->
    reachable (fst (handle e w)) (ts ++ snd (handle e w)).

(** The closure that will run [playSequence] again when the task fires has
    passed the test of the timer. *)
Definition passes_timer (t : Task) : Prop :=
  match t with
  | SourcePlaying env _ _ _ | UtterancePlaying env _ _ _
  | ResumePending env _ _ _ | SynthPending _ _ _ (InPlaySequence env _) =>
      timer_expired env = false
  | _ => True
  end.

Definition event_passes_timer (e : Event) : Prop :=
  match e with
  | SourceEnded env _ _ _ | UtteranceEnd env _ _ _
  | ContextResumed _ env _ _ _ | SynthSettled _ _ (InPlaySequence env _) _ =>
      timer_expired env = false
  | _ => True
  end.

End Handlers.

(** ** A component to run *)

(** What the closures of the first render see, for a text and an engine. *)
Definition initial_render (text : jsstring) (engine : TtsEngine) : Render.t :=
  {| Render.extractedText := text; Render.status := IDLE;
     Render.ttsEngine := engine; Render.selectedVoice := lit "Kore";
     Render.playbackRate := 1%Q; Render.timerDuration := 30;
     Render.timeLeft := None; Render.chunks := [];
     Render.currentChunkIndex := 0 |}.

(** What the closures see once the segments are stored, with the time left
    on the timer. *)
Definition chunked_render (cs : list jsstring) (engine : TtsEngine)
           (left : option Z) : Render.t :=
  {| Render.extractedText := concat cs; Render.status := READY_TO_PLAY;
     Render.ttsEngine := engine; Render.selectedVoice := lit "Kore";
     Render.playbackRate := 1%Q; Render.timerDuration := 30;
     Render.timeLeft := left; Render.chunks := cs;
     Render.currentChunkIndex := 0 |}.


(** [w'] has the session, the cursor and the cache of [w]. *)
Definition untouched (w w' : World) : Prop :=
  sessionIdRef w' = sessionIdRef w /\
  currentChunkIndex w' = currentChunkIndex w /\
  pausedTimeRef w' = pausedTimeRef w /\
  audioCacheRef w' = audioCacheRef w.

(** The causes of a speech error that a cancelled queue reports. *)
Definition benign (e : SpeechError) : bool :=
  match e with
  | interrupted | canceled => true
  | _ => false
  end.

(** A platform whose [atob] gives its input back and whose new context
    runs. *)
Definition test_platform : Platform :=
  {| atob := fun s => Some s;
     newAudioContext := {| state := running; currentTime := 0%Q |} |}.


(** Two segments, the closures of a render that holds them, a decoded clip
    and a component whose context runs and whose cache holds that clip for
    the first segment. *)
Definition demo_chunks : list jsstring := [lit "Hi."; lit "Yo."].

Definition demo_render : Render.t := chunked_render demo_chunks gemini None.



(** The component while an utterance of the first segment plays. *)
Definition speaking_world : World :=
  set_speechQueue [lit "Hi."]
    (set_status PLAYING
       (set_isPlayingRef true (set_isPlaying true initial_world))).


(** ** The clock arithmetic in doubles *)

(** The times of the playback clock are IEEE doubles.  The statements of
    [playSequence], of its estimator [animateProgress] and of [handlePause]
    that compute with them are embedded here in binary64, operation for
    operation, on the three numbers they read and write.  The guards under
    which they run (the engine, the play intent, the generation, a source
    and a context at hand) are those of the session above. *)
Module Doubles.

(** [audioContextRef.current.currentTime], [startTimeRef.current] and
    [pausedTimeRef.current]. *)
Record Clock : Type := {
  currentTime : float;
  startTimeRef : float;
  pausedTimeRef : float
}.

(** [const offset = pausedTimeRef.current; source.start(0, offset);
     startTimeRef.current = audioContextRef.current.currentTime] of
    [playSequence]: the clock, and the offset the estimator captures. *)
Definition start (k : Clock) : Clock * float :=
  ({| currentTime := currentTime k; startTimeRef := currentTime k;
      pausedTimeRef := pausedTimeRef k |},
   pausedTimeRef k).


(** [elapsedRealTime * playbackRate + offset] of [animateProgress]. *)
Definition elapsedAudioTime (playbackRate offset : float) (k : Clock)
  : float :=
  let elapsedRealTime := (currentTime k - startTimeRef k)%float in
  (elapsedRealTime * playbackRate + offset)%float.

(** [const elapsed = (currentTime - startTimeRef.current) * playbackRate;
     pausedTimeRef.current = pausedTimeRef.current + elapsed] of
    [handlePause]. *)
Definition handlePause (playbackRate : float) (k : Clock) : Clock :=
  let elapsed := ((currentTime k - startTimeRef k) * playbackRate)%float in
  {| currentTime := currentTime k; startTimeRef := startTimeRef k;
     pausedTimeRef := (pausedTimeRef k + elapsed)%float |}.

End Doubles.




(** * More of the code *)

(** ** [getWordAt] ([utils/textUtils.ts]) and its caller *)

(** The class of [isSeparator]: [\s], which is what [trim] strips, the
    ASCII punctuation, brackets, quotes and operators it lists, and the
    full-width punctuation, quotation marks and brackets. *)
Definition isSeparator (c : code_unit) : bool :=
  is_ws c ||
  existsb (N.eqb c)
    [0x2C; 0x2E; 0x21; 0x3F; 0x3B; 0x3A; 0x28; 0x29; 0x5B; 0x5D; 0x7B; 0x7D;
     0x22; 0x27; 0x60; 0x7E; 0x40; 0x23; 0x24; 0x25; 0x5E; 0x26; 0x2A; 0x2D;
     0x5F; 0x3D; 0x2B; 0x5C; 0x7C; 0x3C; 0x3E; 0x2F;
     0xFF0C; 0x3002; 0xFF01; 0xFF1F; 0xFF1B; 0xFF1A; 0x201C; 0x201D; 0x2018;
     0x2019; 0xFF08; 0xFF09; 0x3010; 0x3011]%N.

(** [isSeparator(text[k])]; [text[k]] out of range is [undefined], whose
    string has no separator. *)
Definition separator_at (text : jsstring) (k : nat) : bool :=
  match nth_error text k with
  | Some c => isSeparator c
  | None => false
  end.

(** [while (start > 0 && !isSeparator(text[start - 1])) start--] *)
Fixpoint word_start (text : jsstring) (start : nat) : nat :=
  match start with
  | O => O
  | S k => if separator_at text k then start else word_start text k
  end.

(** [while (end < text.length && !isSeparator(text[end])) end++]; the loop
    runs at most [text.length - end] times, which is the [fuel]. *)
Fixpoint word_end (text : jsstring) (fuel : nat) (e : nat) : nat :=
  match fuel with
  | O => e
  | S fuel' =>
      if (e <? length text)%nat && negb (separator_at text e)
      then word_end text fuel' (S e)
      else e
  end.

(** [getWordAt(text, index)]: the pair [(start, end)]. *)
Definition getWordAt (text : jsstring) (index : Z) : Z * Z :=
  if (index <? 0) || (index >=? jslen text) then (0, 0)
  else
    let i := Z.to_nat index in
    if separator_at text i then (index, index + 1)
    else (Z.of_nat (word_start text i),
          Z.of_nat (word_end text (length text - i) i)).

(** An index of [slice] brought into [0 .. len]: a negative one counts
    from the end. *)
Definition slice_index (len k : Z) : Z :=
  if k <? 0 then Z.max (len + k) 0 else Z.min k len.

(** [s.slice(a, b)] *)
Definition slice (s : jsstring) (a b : Z) : jsstring :=
  let from := slice_index (jslen s) a in
  let to := slice_index (jslen s) b in
  firstn (Z.to_nat (Z.max (to - from) 0)) (skipn (Z.to_nat from) s).

(** [s.slice(a)] *)
Definition slice_from (s : jsstring) (a : Z) : jsstring :=
  slice s a (jslen s).

(** What [renderHighlightedChunk] of [components/TextPreview.tsx] returns:
    the chunk itself, three spans, or the chunk in one span. *)
Inductive Rendered : Type :=
| Inactive (chunk : jsstring)
| Spans (before highlighted after : jsstring)
| Whole (chunk : jsstring).

Definition renderHighlightedChunk (currentChunkIndex chunkProgressIndex : Z)
           (chunk : jsstring) (index : Z) : Rendered :=
  if negb (index =? currentChunkIndex) then Inactive chunk
  else if (chunkProgressIndex >=? 0) && (chunkProgressIndex <? jslen chunk)
  then
    let '(s, e) := getWordAt chunk chunkProgressIndex in
    Spans (slice chunk 0 s) (slice chunk s e) (slice_from chunk e)
  else Whole chunk.

(** ** [generateSpeechFromText] ([services/geminiService.ts]) *)

(** One part of [response.candidates[0].content.parts]: [inlineData?.data]
    and [text]. *)
Record Part : Type := {
  inline_data : option jsstring;
  part_text : option jsstring
}.

(** How one call of [ai.models.generateContent] ends: it throws an error,
    whose message may hold the words of a refusal, or it answers, with
    parts or without. *)
Inductive ApiOutcome : Type :=
| ApiThrows (refusal : bool)
| ApiAnswers (parts : option (list Part)).

Inductive TtsError : Type :=
| TextIsEmpty
| Unreadable (text : jsstring)
| ResponseEmpty
| ApiError (refusal : bool)
| TryLater.

Inductive TtsResult : Type :=
| Audio (data : jsstring)
| Failure (e : TtsError).

(** A string that is present and not empty. *)
Definition truthy (o : option jsstring) : option jsstring :=
  match o with
  | Some (c :: s) => Some (c :: s)
  | _ => None
  end.

(** The first loop over the parts: the first audio payload. *)
Fixpoint first_audio (parts : list Part) : option jsstring :=
  match parts with
  | [] => None
  | p :: rest =>
      match truthy (inline_data p) with
      | Some d => Some d
      | None => first_audio rest
      end
  end.

(** The second loop: the first text, with which the model refuses. *)
Fixpoint first_text (parts : list Part) : option jsstring :=
  match parts with
  | [] => None
  | p :: rest =>
      match truthy (part_text p) with
      | Some t => Some t
      | None => first_text rest
      end
  end.

(** The body of the [try]: the audio it returns or the error it throws. *)
Definition attempt_result (o : ApiOutcome) : TtsResult :=
  match o with
  | ApiThrows refusal => Failure (ApiError refusal)
  | ApiAnswers None => Failure ResponseEmpty
  | ApiAnswers (Some parts) =>
      match first_audio parts with
      | Some d => Audio d
      | None =>
          match first_text parts with
          | Some t => Failure (Unreadable t)
          | None => Failure ResponseEmpty
          end
      end
  end.

(** [error.message?.includes(...)] with the words of the refusal. *)
Definition isFatal (e : TtsError) : bool :=
  match e with
  | Unreadable _ => true
  | ApiError refusal => refusal
  | _ => false
  end.

Definition retries : nat := 3.

(** What a run of [generateSpeechFromText] did: its result, the number of
    calls of the interface and the delays it waited, in milliseconds. *)
Record TtsRun : Type := {
  tts_result : TtsResult;
  tts_calls : nat;
  tts_delays : list Z
}.

(** The [for] loop from [attempt] on, [remaining] being
    [retries - attempt]; [api k] is how the call of attempt [k] ends. *)
Fixpoint tts_attempts (api : nat -> ApiOutcome) (remaining attempt : nat)
         (delays : list Z) : TtsRun :=
  match remaining with
  | O => {| tts_result := Failure TryLater; tts_calls := attempt;
            tts_delays := delays |}
  | S rest =>
      match attempt_result (api attempt) with
      | Audio d => {| tts_result := Audio d; tts_calls := S attempt;
                      tts_delays := delays |}
      | Failure e =>
          if isFatal e || (attempt =? retries - 1)%nat
          then {| tts_result := Failure e; tts_calls := S attempt;
                  tts_delays := delays |}
          else tts_attempts api rest (S attempt)
                 (delays ++ [1000 * 2 ^ Z.of_nat attempt])
      end
  end.

Definition generateSpeechFromText (text : jsstring) (api : nat -> ApiOutcome)
  : TtsRun :=
  match trim text with
  | [] => {| tts_result := Failure TextIsEmpty; tts_calls := 0;
             tts_delays := [] |}
  | _ :: _ => tts_attempts api retries 0 []
  end.

(** ** What the extra properties of the session speak of *)

(** A clip as [decodeAudioData] makes them: at least one frame, 24000
    frames a second, samples from -1 up to 1. *)
Definition well_formed_clip (b : AudioBuffer) : Prop :=
  channelData b <> [] /\ sampleRate b = 24000 /\
  Forall (fun q => (-1 <= q)%Q /\ (q < 1)%Q) (channelData b).

(** The turns that take the session to the next generation. *)
Definition bumps (e : Event) : bool :=
  match e with
  | ResetAudio _ => true
  | Jump env _ =>
      match Render.status env with
      | PARSING_PDF => false
      | _ => true
      end
  | Start env =>
      match Render.extractedText env with
      | [] => false
      | _ :: _ => true
      end
  | _ => false
  end.


(** What a step may add to the synthesis calls: nothing, or one call, for a
    segment of the render whose closure makes it, which is then marked as
    in flight, has no clip in the cache and is awaited by a task left with
    the platform. *)
Definition calls_step (w : World) (r : World * list Task) : Prop :=
  synthCalls (fst r) = synthCalls w \/
  exists env index sid a text,
    synthCalls (fst r)
    = synthCalls w ++ [{| call_index := index; call_text := text;
                          call_voice := Render.selectedVoice env |}] /\
    chunk_at (Render.chunks env) index = Some text /\
    index ∈ fetchingSetRef (fst r) /\
    audioCacheRef (fst r) !! index = None /\
    In (SynthPending env index sid a) (snd r).

(** ** [performOCR] ([services/geminiService.ts], [services/ocrService.ts]) *)

(** How one call of the model ends for the caller: it throws, and the
    [catch] takes the error for rate limiting or overload or not, or it
    answers, with [response.text] or without. *)
Inductive OcrOutcome : Type :=
| OcrThrows (throttled : bool)
| OcrAnswers (text : option jsstring).

(** What a run of [performOCR] did: the text it returns, the number of
    calls of the interface and the delays it waited, in milliseconds. *)
Record OcrRun : Type := {
  ocr_text : jsstring;
  ocr_calls : nat;
  ocr_delays : list Z
}.

(** [response.text || ""] *)
Definition text_or_empty (text : option jsstring) : jsstring :=
  match text with
  | Some t => t
  | None => []
  end.

Module GeminiService.

Definition retries : nat := 5.

(** The [for] loop of [performOCR] from [attempt] on, [remaining] being
    [retries - attempt].  An error that is rate limiting or overload, before
    the last attempt, waits and goes on with [continue]; any other error
    returns only at the last attempt, and otherwise leaves the [catch], so
    the loop goes on at once. *)
Fixpoint ocr_attempts (api : nat -> OcrOutcome) (remaining attempt : nat)
         (delays : list Z) : OcrRun :=
  match remaining with
  | O => {| ocr_text := []; ocr_calls := attempt; ocr_delays := delays |}
  | S rest =>
      match api attempt with
      | OcrAnswers text =>
          {| ocr_text := text_or_empty text; ocr_calls := S attempt;
             ocr_delays := delays |}
      | OcrThrows throttled =>
          if throttled && (attempt <? retries - 1)%nat
          then ocr_attempts api rest (S attempt)
                 (delays ++ [2000 * 2 ^ Z.of_nat attempt])
          else if (attempt =? retries - 1)%nat
          then {| ocr_text := []; ocr_calls := S attempt;
                  ocr_delays := delays |}
          else ocr_attempts api rest (S attempt) delays
      end
  end.

Definition performOCR (base64Image : jsstring) (api : nat -> OcrOutcome)
  : OcrRun :=
  match base64Image with
  | [] => {| ocr_text := []; ocr_calls := 0; ocr_delays := [] |}
  | _ :: _ => ocr_attempts api retries 0 []
  end.

End GeminiService.

Module OcrService.

Definition retries : nat := 3.

(** The [for] loop of [performOCR] for the engine [gemini]: rate limiting
    before the last attempt waits and goes on, every other error returns
    the empty text. *)
Fixpoint ocr_attempts (api : nat -> OcrOutcome) (remaining attempt : nat)
         (delays : list Z) : OcrRun :=
  match remaining with
  | O => {| ocr_text := []; ocr_calls := attempt; ocr_delays := delays |}
  | S rest =>
      match api attempt with
      | OcrAnswers text =>
          {| ocr_text := text_or_empty text; ocr_calls := S attempt;
             ocr_delays := delays |}
      | OcrThrows throttled =>
          if throttled && (attempt <? retries - 1)%nat
          then ocr_attempts api rest (S attempt)
                 (delays ++ [2000 * 2 ^ Z.of_nat attempt])
          else {| ocr_text := []; ocr_calls := S attempt;
                  ocr_delays := delays |}
      end
  end.

(** [performOCR(base64Image)], the engine being [gemini], its default;
    [None] is the error thrown when no key is configured. *)
Definition performOCR (base64Image : jsstring) (apiKey : bool)
           (api : nat -> OcrOutcome) : option OcrRun :=
  match base64Image with
  | [] => Some {| ocr_text := []; ocr_calls := 0; ocr_delays := [] |}
  | _ :: _ =>
      if apiKey then Some (ocr_attempts api retries 0 []) else None
  end.

End OcrService.

(** ** The controls ([components/AudioController.tsx],
       [components/FileSelect.tsx]) *)

(** [n.toString()] for an integer that is not negative. *)
Definition toString (n : Z) : string :=
  NilZero.string_of_uint (N.to_uint (Z.to_N n)).

Fixpoint repeat_char (c : ascii) (n : nat) : string :=
  match n with
  | O => EmptyString
  | S k => String c (repeat_char c k)
  end.

(** [s.padStart(targetLength, c)] for a filler [c] of one character. *)
Definition padStart (s : string) (targetLength : nat) (c : ascii) : string :=
  String.append (repeat_char c (targetLength - String.length s)) s.

(** [formatTimeLeft(seconds)] for a number of seconds that is an integer
    and not negative, on which [Math.floor(seconds / 60)] and
    [seconds % 60] are the quotient and the remainder. *)
Definition formatTimeLeft (seconds : Z) : string :=
  let m := seconds / 60 in
  let s := seconds mod 60 in
  String.append (padStart (toString m) 2 "0")
                (String ":" (padStart (toString s) 2 "0")).

(** A [Set<string>] as its elements in the order of insertion, none twice,
    with [has], [add] and [delete]. *)
Definition set_has (v : jsstring) (s : list jsstring) : bool :=
  bool_decide (v ∈ s).

Definition set_add (v : jsstring) (s : list jsstring) : list jsstring :=
  if set_has v s then s else s ++ [v].

Definition set_delete (v : jsstring) (s : list jsstring) : list jsstring :=
  List.filter (fun u => negb (bool_decide (u = v))) s.

(** [toggleFavorite(voiceId)]: the favourites it sets and stores. *)
Definition toggleFavorite (voiceId : jsstring) (favorites : list jsstring)
  : list jsstring :=
  match voiceId with
  | [] => favorites
  | _ :: _ =>
      if set_has voiceId favorites
      then set_delete voiceId favorites
      else set_add voiceId favorites
  end.

Record VoiceOption : Type := {
  voice_id : jsstring;
  voice_name : jsstring
}.

Record SpeechSynthesisVoice : Type := {
  name : jsstring;
  lang : jsstring
}.

Definition GEMINI_VOICES : list VoiceOption :=
  [ {| voice_id := lit "Kore";
       voice_name := lit "Gemini - Kore (" ++ [0x5E73; 0x8861]%N ++ lit ")" |};
    {| voice_id := lit "Zephyr";
       voice_name :=
         lit "Gemini - Zephyr (" ++ [0x6E29; 0x67D4]%N ++ lit ")" |};
    {| voice_id := lit "Puck";
       voice_name := lit "Gemini - Puck (" ++ [0x4F4E; 0x6C89]%N ++ lit ")" |};
    {| voice_id := lit "Fenrir";
       voice_name :=
         lit "Gemini - Fenrir (" ++ [0x6FC0; 0x6602]%N ++ lit ")" |};
    {| voice_id := lit "Charon";
       voice_name :=
         lit "Gemini - Charon (" ++ [0x6DF1; 0x6C89]%N ++ lit ")" |} ].

(** The list [sortedVoices] sorts; [formatVoiceLabel] is the label the
    component gives a voice of the platform. *)
Definition voiceList (formatVoiceLabel : SpeechSynthesisVoice -> jsstring)
           (ttsEngine : TtsEngine) (browserVoices : list SpeechSynthesisVoice)
  : list VoiceOption :=
  match ttsEngine with
  | gemini => GEMINI_VOICES
  | browser =>
      match browserVoices with
      | _ :: _ =>
          map (fun v => {| voice_id := name v;
                           voice_name := formatVoiceLabel v |}) browserVoices
      | [] =>
          [ {| voice_id := [];
               voice_name :=
                 [0x9ED8; 0x8BA4; 0x672C; 0x5730; 0x8BED; 0x97F3]%N
                 ++ lit " (iOS/" ++ [0x7CFB; 0x7EDF]%N ++ lit ")" |} ]
      end
  end.

(** The comparison [sortedVoices] sorts by: favourites first. *)
Definition compare_favorites (favorites : list jsstring) (a b : VoiceOption)
  : Z :=
  let aFav := set_has (voice_id a) favorites in
  let bFav := set_has (voice_id b) favorites in
  if aFav && negb bFav then -1
  else if negb aFav && bFav then 1
  else 0.

(** [Array.prototype.sort] with a comparison, which is stable: an element
    goes before the first of those after it that it does not follow. *)
Fixpoint sort_insert {A : Type} (cmp : A -> A -> Z) (x : A) (l : list A)
  : list A :=
  match l with
  | [] => [x]
  | y :: l' => if cmp x y <=? 0 then x :: y :: l' else y :: sort_insert cmp x l'
  end.

Definition sort {A : Type} (cmp : A -> A -> Z) (l : list A) : list A :=
  fold_right (sort_insert cmp) [] l.

Definition sortedVoices (formatVoiceLabel : SpeechSynthesisVoice -> jsstring)
           (ttsEngine : TtsEngine) (browserVoices : list SpeechSynthesisVoice)
           (favorites : list jsstring) : list VoiceOption :=
  sort (compare_favorites favorites)
       (voiceList formatVoiceLabel ttsEngine browserVoices).

(** [handleTextSubmitClick]: the text it passes to [onTextSubmit], if
    any. *)
Definition handleTextSubmitClick (inputText : jsstring) : option jsstring :=
  if jslen (trim inputText) =? 0 then None else Some inputText.

(** * Properties of the chunker *)

(** ** White space and [trim] *)

Lemma non_ws_app (a b : jsstring) : non_ws (a ++ b) = non_ws a ++ non_ws b.
Proof.
  induction a as [|c a IH]; simpl; [reflexivity|].
  destruct (is_ws c); simpl; congruence.
Qed.

Lemma non_ws_rev (s : jsstring) : non_ws (rev s) = rev (non_ws s).
Proof.
  induction s as [|c s IH]; simpl; [reflexivity|].
  rewrite non_ws_app, IH. simpl.
  destruct (is_ws c); simpl; [apply app_nil_r | reflexivity].
Qed.

Lemma non_ws_trimStart (s : jsstring) : non_ws (trimStart s) = non_ws s.
Proof.
  induction s as [|c s IH]; simpl; [reflexivity|].
  destruct (is_ws c) eqn:E; simpl; [exact IH | now rewrite E].
Qed.

Lemma non_ws_trim (s : jsstring) : non_ws (trim s) = non_ws s.
Proof.
  unfold trim, trimEnd.
  rewrite non_ws_rev, non_ws_trimStart, non_ws_rev, rev_involutive.
  apply non_ws_trimStart.
Qed.

Lemma non_ws_nil_forallb (s : jsstring) :
  non_ws s = [] <-> forallb is_ws s = true.
Proof.
  induction s as [|c s IH]; simpl; [tauto|].
  destruct (is_ws c); simpl; [exact IH | split; discriminate].
Qed.

Lemma trimStart_nil (s : jsstring) : trimStart s = [] <-> non_ws s = [].
Proof.
  induction s as [|c s IH]; simpl; [tauto|].
  destruct (is_ws c); [exact IH | split; discriminate].
Qed.

Lemma trim_nil (s : jsstring) : trim s = [] <-> non_ws s = [].
Proof.
  unfold trim, trimEnd. split; intros H.
  - apply (f_equal (@rev _)) in H. rewrite rev_involutive in H. simpl in H.
    apply trimStart_nil in H.
    rewrite non_ws_rev, non_ws_trimStart in H.
    apply (f_equal (@rev _)) in H. now rewrite rev_involutive in H.
  - assert (E : trimStart (rev (trimStart s)) = []).
    { apply trimStart_nil. now rewrite non_ws_rev, non_ws_trimStart, H. }
    now rewrite E.
Qed.

Lemma trimStart_length (s : jsstring) : (length (trimStart s) <= length s)%nat.
Proof.
  induction s as [|c s IH]; simpl; [lia|].
  destruct (is_ws c); simpl; lia.
Qed.

Lemma trim_jslen (s : jsstring) : jslen (trim s) <= jslen s.
Proof.
  unfold jslen, trim, trimEnd. rewrite length_rev.
  pose proof (trimStart_length (rev (trimStart s))) as H1.
  pose proof (trimStart_length s) as H2.
  rewrite length_rev in H1. lia.
Qed.

Lemma trimStart_ws_app (ws s : jsstring) :
  non_ws ws = [] -> trimStart (ws ++ s) = trimStart s.
Proof.
  induction ws as [|c ws IH]; simpl; [reflexivity|].
  destruct (is_ws c); [exact IH | discriminate].
Qed.

Lemma trim_ws_app (ws s : jsstring) :
  non_ws ws = [] -> trim (ws ++ s) = trim s.
Proof. intros H. unfold trim. now rewrite trimStart_ws_app. Qed.

(** The test [currentChunk.trim().length > 0] of the source. *)
Lemma trim_test (s : jsstring) :
  (jslen (trim s) >? 0) = true <-> non_ws s <> [].
Proof.
  rewrite <- trim_nil. unfold jslen.
  destruct (trim s) as [|c t]; simpl.
  - split; [discriminate | congruence].
  - split; [discriminate | reflexivity].
Qed.

Lemma trim_test_false (s : jsstring) :
  (jslen (trim s) >? 0) = false <-> non_ws s = [].
Proof.
  rewrite <- trim_nil. unfold jslen.
  destruct (trim s) as [|c t]; simpl.
  - split; reflexivity.
  - split; discriminate.
Qed.

Lemma trim_trim_nonempty (s : jsstring) : trim s <> [] -> trim (trim s) <> [].
Proof. rewrite !trim_nil, non_ws_trim. tauto. Qed.

(** [trim] takes white space off both ends and nothing else. *)
Lemma trimStart_split (s : jsstring) :
  exists g, s = g ++ trimStart s /\ non_ws g = [].
Proof.
  induction s as [|c s (g & E & Hg)]; simpl.
  - now exists [].
  - destruct (is_ws c) eqn:Ec.
    + exists (c :: g). simpl. rewrite Ec. split; [congruence | exact Hg].
    + now exists [].
Qed.

Lemma trim_split (s : jsstring) :
  exists g1 g2, s = g1 ++ trim s ++ g2 /\ non_ws g1 = [] /\ non_ws g2 = [].
Proof.
  destruct (trimStart_split s) as (g1 & E1 & H1).
  destruct (trimStart_split (rev (trimStart s))) as (g2 & E2 & H2).
  exists g1, (rev g2). unfold trim, trimEnd. repeat split.
  - rewrite <- rev_app_distr, <- E2, rev_involutive. exact E1.
  - exact H1.
  - now rewrite non_ws_rev, H2.
Qed.

Lemma spaced_ws (cs : list jsstring) (t g : jsstring) :
  spaced cs t -> non_ws g = [] -> spaced cs (t ++ g).
Proof.
  intros Hs Hg. induction Hs as [g0 H0 | g0 c cs t H0 Hs IH].
  - constructor. now rewrite non_ws_app, H0, Hg.
  - rewrite <- !app_assoc. now constructor.
Qed.

Lemma spaced_push (cs : list jsstring) (t c g : jsstring) :
  spaced cs t -> non_ws g = [] -> spaced (cs ++ [c]) (t ++ c ++ g).
Proof.
  intros Hs Hg. induction Hs as [g0 H0 | g0 c0 cs t H0 Hs IH]; simpl.
  - constructor; [exact H0 | now constructor].
  - rewrite <- !app_assoc. now constructor.
Qed.

(** Pushing the trimmed buffer [cur] after the text [t]. *)
Lemma spaced_flush (cs : list jsstring) (t cur : jsstring) :
  spaced cs t -> spaced (cs ++ [trim cur]) (t ++ cur).
Proof.
  intros Hs. destruct (trim_split cur) as (g1 & g2 & E & H1 & H2).
  rewrite E at 2. rewrite app_assoc.
  apply spaced_push; [now apply spaced_ws | exact H2].
Qed.

Lemma spaced_non_ws (cs : list jsstring) (t : jsstring) :
  spaced cs t -> non_ws (concat cs) = non_ws t.
Proof.
  induction 1 as [g H0 | g c cs t H0 Hs IH]; simpl.
  - now rewrite H0.
  - now rewrite !non_ws_app, H0, IH.
Qed.

(** ** The pieces of [split] *)

Lemma split_scan_concat (s : jsstring) : forall in_run cur,
  concat (split_scan in_run cur s) = rev cur ++ s.
Proof.
  induction s as [|c s IH]; intros in_run cur; simpl.
  - destruct in_run; simpl; now rewrite ?app_nil_r.
  - destruct (eqb (is_delim c) in_run); simpl; rewrite IH; simpl.
    + now rewrite <- app_assoc.
    + reflexivity.
Qed.

Lemma split_sentences_concat (text : jsstring) :
  concat (split_sentences text) = text.
Proof. unfold split_sentences. now rewrite split_scan_concat. Qed.

Lemma non_ws_concat_nil (l : list jsstring) :
  non_ws (concat l) = [] -> Forall (fun s => non_ws s = []) l.
Proof.
  induction l as [|s l IH]; simpl; intros H; constructor.
  - rewrite non_ws_app in H. now apply app_eq_nil in H.
  - apply IH. rewrite non_ws_app in H. now apply app_eq_nil in H.
Qed.

(** ** The accumulation loop *)

(** The two outcomes of one iteration: the buffer is flushed and restarts at
    [s], or [s] is appended to it. *)
Lemma chunk_step_cases (maxChars : Z) (chunks : list jsstring)
      (cur s : jsstring) :
  (jslen cur + jslen s > maxChars /\ non_ws cur <> [] /\
   chunk_step maxChars (chunks, cur) s = (chunks ++ [trim cur], s)) \/
  ((jslen cur + jslen s <= maxChars \/ non_ws cur = []) /\
   chunk_step maxChars (chunks, cur) s = (chunks, cur ++ s)).
Proof.
  unfold chunk_step.
  destruct (jslen cur + jslen s >? maxChars) eqn:E1; simpl.
  - destruct (jslen (trim cur) >? 0) eqn:E2.
    + left. apply trim_test in E2. split; [lia | tauto].
    + right. apply trim_test_false in E2. tauto.
  - right. split; [left; lia | reflexivity].
Qed.

Lemma chunk_loop_cons (maxChars : Z) (s : jsstring) (ss : list jsstring)
      (st : chunker) :
  chunk_loop maxChars (s :: ss) st
  = chunk_loop maxChars ss (chunk_step maxChars st s).
Proof. reflexivity. Qed.

Lemma chunk_loop_app (maxChars : Z) (ss1 ss2 : list jsstring) (st : chunker) :
  chunk_loop maxChars (ss1 ++ ss2) st
  = chunk_loop maxChars ss2 (chunk_loop maxChars ss1 st).
Proof. unfold chunk_loop. apply fold_left_app. Qed.

(** An invariant [I] of the buffer and a property [P] of the pushed chunks
    are carried through the loop when every iteration carries them. *)
Lemma chunk_loop_ind (maxChars : Z) (I : jsstring -> Prop)
      (P : jsstring -> Prop) (ok : jsstring -> Prop) :
  (forall cur s, I cur -> ok s -> non_ws cur <> [] -> P (trim cur)) ->
  (forall cur, I cur -> non_ws cur <> [] -> P (trim cur)) ->
  (forall cur s, I cur -> ok s ->
     jslen cur + jslen s > maxChars -> non_ws cur <> [] -> I s) ->
  (forall cur s, I cur -> ok s ->
     jslen cur + jslen s <= maxChars \/ non_ws cur = [] -> I (cur ++ s)) ->
  forall ss chunks cur,
    Forall ok ss -> Forall P chunks -> I cur ->
    Forall P (chunk_finish (chunk_loop maxChars ss (chunks, cur))).
Proof.
  intros Hflush Hlast Hnew Happ ss.
  induction ss as [|s ss IH]; intros chunks cur Hok HP HI.
  - simpl. destruct (jslen (trim cur) >? 0) eqn:E; [|exact HP].
    apply trim_test in E. apply Forall_app. split; [exact HP|].
    constructor; [|constructor]. now apply Hlast.
  - rewrite chunk_loop_cons. inversion Hok as [|? ? Hs Hss]; subst.
    destruct (chunk_step_cases maxChars chunks cur s)
      as [(Hgt & Hne & ->) | (Hle & ->)].
    + apply IH; [exact Hss| |now apply (Hnew cur)].
      apply Forall_app. split; [exact HP|].
      constructor; [|constructor]. now apply (Hflush cur s).
    + apply IH; [exact Hss|exact HP|now apply Happ].
Qed.

(** The segments pushed and the buffer rebuild the sentences consumed, up
    to white space around the segments. *)
Lemma chunk_loop_spaced (maxChars : Z) (ss : list jsstring) :
  forall chunks cur t,
    spaced chunks t ->
    spaced (chunk_finish (chunk_loop maxChars ss (chunks, cur)))
           (t ++ cur ++ concat ss).
Proof.
  induction ss as [|s ss IH]; intros chunks cur t Hs.
  - simpl. rewrite app_nil_r.
    destruct (jslen (trim cur) >? 0) eqn:E.
    + rewrite <- (app_nil_r (t ++ cur)).
      apply spaced_ws; [now apply spaced_flush | reflexivity].
    + apply trim_test_false in E. now apply spaced_ws.
  - rewrite chunk_loop_cons.
    destruct (chunk_step_cases maxChars chunks cur s)
      as [(Hgt & Hne & ->) | (Hle & ->)]; simpl.
    + rewrite app_assoc. apply IH. now apply spaced_flush.
    + rewrite (app_assoc cur). now apply IH.
Qed.

(** A buffer of white space only is never pushed. *)
Lemma chunk_loop_all_ws (maxChars : Z) (ss : list jsstring) :
  forall chunks cur,
    Forall (fun s => non_ws s = []) ss -> non_ws cur = [] ->
    chunk_finish (chunk_loop maxChars ss (chunks, cur)) = chunks.
Proof.
  induction ss as [|s ss IH]; intros chunks cur Hss Hcur.
  - simpl. apply trim_test_false in Hcur. now rewrite Hcur.
  - rewrite chunk_loop_cons. inversion Hss as [|? ? Hs Hss']; subst.
    destruct (chunk_step_cases maxChars chunks cur s)
      as [(Hgt & Hne & ->) | (Hle & ->)]; [contradiction|].
    apply IH; [exact Hss'|]. now rewrite non_ws_app, Hcur, Hs.
Qed.

Lemma splitTextIntoChunks_nonempty (text : jsstring) (maxChars : Z) :
  text <> [] ->
  splitTextIntoChunks text maxChars
  = chunk_finish (chunk_loop maxChars (split_sentences text) ([], [])).
Proof. destruct text; [congruence | reflexivity]. Qed.

(** * The claims on the chunker *)

(** C6.  For every text and every [maxChars], no segment returned by
    [splitTextIntoChunks] is empty after trimming, and the text is the
    segments, in order, with white space before, between and after them: so
    the characters of the concatenated segments that are not white space
    are, in order, exactly those of the text. *)
Theorem split_keeps_content (text : jsstring) (maxChars : Z) :
  Forall (fun c => trim c <> []) (splitTextIntoChunks text maxChars) /\
  spaced (splitTextIntoChunks text maxChars) text /\
  non_ws (concat (splitTextIntoChunks text maxChars)) = non_ws text.
Proof.
  assert (Hspaced : spaced (splitTextIntoChunks text maxChars) text).
  { destruct text as [|c0 text0] eqn:Etext; [now constructor|].
    rewrite <- Etext.
    rewrite (splitTextIntoChunks_nonempty text maxChars)
      by (rewrite Etext; discriminate).
    pose proof (chunk_loop_spaced maxChars (split_sentences text) [] [] []
                  (spaced_nil [] eq_refl)) as H.
    simpl in H. now rewrite split_sentences_concat in H. }
  split; [|split; [exact Hspaced | now apply spaced_non_ws]].
  destruct text as [|c0 text0] eqn:Etext; [constructor|].
  rewrite <- Etext.
  rewrite (splitTextIntoChunks_nonempty text maxChars)
    by (rewrite Etext; discriminate).
  apply (chunk_loop_ind maxChars (fun _ => True)
           (fun c => trim c <> []) (fun _ => True)); auto.
  - intros cur s _ _ H. apply trim_trim_nonempty. now rewrite trim_nil.
  - intros cur _ H. apply trim_trim_nonempty. now rewrite trim_nil.
  - apply List.Forall_forall. auto.
Qed.

(** A text all of whose characters are white space, the empty text
    included, has no segment, whatever [maxChars] is. *)
Lemma split_whitespace_only (text : jsstring) (maxChars : Z) :
  forallb is_ws text = true -> splitTextIntoChunks text maxChars = [].
Proof.
  intros H. apply non_ws_nil_forallb in H.
  unfold splitTextIntoChunks. destruct text as [|c0 text0] eqn:Etext.
  - reflexivity.
  - rewrite <- Etext in *. apply chunk_loop_all_ws; [|reflexivity].
    apply non_ws_concat_nil. now rewrite split_sentences_concat.
Qed.

(** C7, amended.  For [maxChars >= 1] and a non-empty text, a segment is at
    most [maxChars] long, unless it is, trimmed, one piece of the split that
    is itself longer than [maxChars]: a stretch of text between two runs of
    delimiters, without the punctuation that ends it, or a run of
    delimiters.  The segment is then that whole piece and nothing else. *)
Theorem chunk_length_bound (text : jsstring) (maxChars : Z) (c : jsstring) :
  1 <= maxChars -> text <> [] ->
  In c (splitTextIntoChunks text maxChars) ->
  jslen c <= maxChars \/
  exists s, In s (split_sentences text) /\ maxChars < jslen s /\ c = trim s.
Proof.
  intros Hmax Hne Hin.
  set (P := fun c : jsstring =>
              jslen c <= maxChars \/
              exists s, In s (split_sentences text) /\
                        maxChars < jslen s /\ c = trim s).
  set (I := fun cur : jsstring =>
              jslen cur <= maxChars \/
              exists ws s, cur = ws ++ s /\ non_ws ws = [] /\
                           In s (split_sentences text)).
  assert (Hflush : forall cur, I cur -> P (trim cur)).
  { intros cur [Hle | (ws & s & -> & Hws & Hs)].
    - left. pose proof (trim_jslen cur). lia.
    - rewrite (trim_ws_app ws s Hws).
      destruct (Z_le_gt_dec (jslen (trim s)) maxChars) as [Hl | Hg].
      + left. exact Hl.
      + right. exists s. pose proof (trim_jslen s).
        repeat split; [exact Hs | lia]. }
  assert (HP : Forall P (splitTextIntoChunks text maxChars)).
  { rewrite (splitTextIntoChunks_nonempty text maxChars Hne).
    apply (chunk_loop_ind maxChars I P
             (fun s => In s (split_sentences text))).
    - intros cur s HI _ _. now apply Hflush.
    - intros cur HI _. now apply Hflush.
    - intros cur s _ Hs _ _. right. exists [], s.
      split; [reflexivity | split; [reflexivity | exact Hs]].
    - intros cur s HI Hs [Hle | Hws].
      + left. unfold jslen in *. rewrite length_app. lia.
      + right. exists cur, s.
        split; [reflexivity | split; [exact Hws | exact Hs]].
    - apply List.Forall_forall. intros s Hs. exact Hs.
    - constructor.
    - left. unfold jslen. simpl. lia. }
  rewrite List.Forall_forall in HP. exact (HP c Hin).
Qed.

Lemma chunk_length_bound_witness :
  jslen (lit "abcdef") <= 3 \/
  exists s, In s (split_sentences (lit "abcdef. gh")) /\
            3 < jslen s /\ lit "abcdef" = trim s.
Proof.
  apply (chunk_length_bound (lit "abcdef. gh") 3 (lit "abcdef")).
  - lia.
  - discriminate.
  - vm_compute. left. reflexivity.
Defined.

Lemma holds_whole_length (c s : jsstring) :
  holds_whole c s -> jslen s <= jslen c.
Proof.
  intros (before & after & ->). unfold jslen. rewrite !length_app. lia.
Qed.

(** C7 as the specification states it fails.  With the bound 3 the sentence
    ["abcdef."] is cut before its full stop: the segment ["abcdef"] is
    longer than 3 and holds no sentence whole.  The segment ["!!!!!"] of
    ["a!!!!!"] is longer than 3 and holds no sentence at all. *)
Lemma sentences_kept_whole_counterexample :
  splitTextIntoChunks (lit "abcdef. gh") 3
  = [lit "abcdef"; lit "."; lit "gh"] /\
  whole_sentences (lit "abcdef. gh") = [lit "abcdef."; lit " gh"] /\
  ~ sentences_kept_whole (lit "abcdef. gh") 3 /\
  splitTextIntoChunks (lit "a!!!!!") 3 = [lit "a"; lit "!!!!!"] /\
  whole_sentences (lit "a!!!!!") = [lit "a!!!!!"; []] /\
  ~ sentences_kept_whole (lit "a!!!!!") 3.
Proof.
  split; [reflexivity|]. split; [reflexivity|]. split; [|split; [reflexivity|]].
  - intros H.
    assert (Hc : In (lit "abcdef") (splitTextIntoChunks (lit "abcdef. gh") 3))
      by (left; reflexivity).
    unfold sentences_kept_whole in H. rewrite List.Forall_forall in H.
    destruct (H _ Hc) as [Hle | (s & Hs & Hlong & Hw)].
    + vm_compute in Hle. now apply Hle.
    + apply holds_whole_length in Hw.
      change (jslen (lit "abcdef")) with 6 in Hw.
      destruct Hs as [<- | [<- | []]]; vm_compute in Hlong, Hw;
        first [now apply Hw | discriminate].
  - split; [reflexivity|]. intros H.
    assert (Hc : In (lit "!!!!!") (splitTextIntoChunks (lit "a!!!!!") 3))
      by (right; left; reflexivity).
    unfold sentences_kept_whole in H. rewrite List.Forall_forall in H.
    destruct (H _ Hc) as [Hle | (s & Hs & Hlong & Hw)].
    + vm_compute in Hle. now apply Hle.
    + apply holds_whole_length in Hw.
      change (jslen (lit "!!!!!")) with 5 in Hw.
      destruct Hs as [<- | [<- | []]]; vm_compute in Hlong, Hw;
        first [now apply Hw | discriminate].
Qed.

(** ** Where a run of delimiters goes *)

(** What is pushed is appended to [chunks]. *)
Lemma chunk_loop_prefix (maxChars : Z) (ss : list jsstring) :
  forall chunks cur,
    exists rest,
      chunk_finish (chunk_loop maxChars ss (chunks, cur)) = chunks ++ rest.
Proof.
  induction ss as [|s ss IH]; intros chunks cur.
  - simpl. destruct (jslen (trim cur) >? 0).
    + now exists [trim cur].
    + exists []. now rewrite app_nil_r.
  - rewrite chunk_loop_cons.
    destruct (chunk_step_cases maxChars chunks cur s)
      as [(Hgt & Hne & ->) | (Hle & ->)].
    + destruct (IH (chunks ++ [trim cur]) s) as [rest ->].
      exists (trim cur :: rest). now rewrite <- app_assoc.
    + apply IH.
Qed.

(** A buffer that holds more than white space becomes the next segment,
    together with the sentences appended to it before it is flushed. *)
Lemma chunk_loop_next_segment (maxChars : Z) (post : list jsstring) :
  forall chunks cur,
    non_ws cur <> [] ->
    exists k rest,
      chunk_finish (chunk_loop maxChars post (chunks, cur))
      = chunks ++ trim (cur ++ concat (firstn k post)) :: rest.
Proof.
  induction post as [|s post IH]; intros chunks cur Hcur.
  - exists 0%nat, []. simpl. apply trim_test in Hcur.
    now rewrite Hcur, app_nil_r.
  - rewrite chunk_loop_cons.
    destruct (chunk_step_cases maxChars chunks cur s)
      as [(Hgt & Hne & ->) | (Hle & ->)].
    + destruct (chunk_loop_prefix maxChars post (chunks ++ [trim cur]) s)
        as [rest ->].
      exists 0%nat, rest. simpl. now rewrite app_nil_r, <- app_assoc.
    + assert (Hcs : non_ws (cur ++ s) <> []).
      { rewrite non_ws_app. intros H. now apply app_eq_nil in H. }
      destruct (IH chunks (cur ++ s) Hcs) as (k & rest & E).
      exists (S k), rest. simpl. rewrite app_assoc. exact E.
Qed.

(** The buffer ends with the sentence appended last. *)
Lemma chunk_loop_last (maxChars : Z) (pre : list jsstring) (t : jsstring)
      (st : chunker) :
  exists b, snd (chunk_loop maxChars (pre ++ [t]) st) = b ++ t.
Proof.
  rewrite chunk_loop_app. destruct (chunk_loop maxChars pre st) as [chunks cur].
  change (chunk_loop maxChars [t] (chunks, cur))
    with (chunk_step maxChars (chunks, cur) t).
  destruct (chunk_step_cases maxChars chunks cur t)
    as [(_ & _ & ->) | (_ & ->)]; simpl.
  - now exists [].
  - now exists cur.
Qed.

Lemma forallb_rev {A : Type} (f : A -> bool) (l : list A) :
  forallb f (rev l) = forallb f l.
Proof.
  induction l as [|x l IH]; simpl; [reflexivity|].
  rewrite forallb_app, IH. simpl. rewrite andb_true_r. apply andb_comm.
Qed.

Lemma rev_not_nil {A : Type} (l : list A) : l <> [] -> rev l <> [].
Proof.
  intros H E. apply (f_equal (@rev A)) in E.
  rewrite rev_involutive in E. contradiction.
Qed.

Lemma split_scan_alternates (s : jsstring) :
  forall (in_run : bool) (cur : jsstring),
  (if in_run
   then cur <> [] /\ forallb is_delim cur = true
   else forallb (fun c => negb (is_delim c)) cur = true) ->
  alternates in_run (split_scan in_run cur s).
Proof.
  induction s as [|c s IH]; intros in_run cur Hcur.
  - destruct in_run; simpl.
    + destruct Hcur as [Hne Hd]. repeat split; auto.
      * now apply rev_not_nil.
      * now rewrite forallb_rev.
    + split; [now rewrite forallb_rev | exact I].
  - simpl. destruct (is_delim c) eqn:Ec, in_run; simpl.
    + apply IH. destruct Hcur as [Hne Hd]. split; [discriminate|].
      simpl. now rewrite Ec, Hd.
    + split; [now rewrite forallb_rev|].
      apply IH. split; [discriminate|]. simpl. now rewrite Ec.
    + destruct Hcur as [Hne Hd]. split.
      * split; [now apply rev_not_nil | now rewrite forallb_rev].
      * apply IH. simpl. now rewrite Ec.
    + apply IH. simpl. now rewrite Ec, Hcur.
Qed.

Lemma split_sentences_alternates (text : jsstring) :
  alternates false (split_sentences text).
Proof. apply split_scan_alternates. reflexivity. Qed.

(** The last piece is a text piece: the number of pieces is odd. *)
Lemma split_scan_odd (s : jsstring) : forall (in_run : bool) (cur : jsstring),
  Nat.odd (length (split_scan in_run cur s)) = negb in_run.
Proof.
  induction s as [|c s IH]; intros in_run cur.
  - now destruct in_run.
  - simpl. destruct (eqb (is_delim c) in_run); [apply IH|].
    cbn [length]. rewrite Nat.odd_succ, <- Nat.negb_odd, IH.
    now destruct in_run.
Qed.

Lemma split_sentences_odd (text : jsstring) :
  Nat.odd (length (split_sentences text)) = true.
Proof. apply split_scan_odd. Qed.

(** C8 as the specification states it fails: the run ["."] that ends
    ["aaaa"] opens the second segment when the bound is 4. *)
Lemma delims_attached_counterexample :
  splitTextIntoChunks (lit "aaaa.") 4 = [lit "aaaa"; lit "."] /\
  ~ delims_attached (splitTextIntoChunks (lit "aaaa.") 4).
Proof.
  split; [reflexivity|].
  intros H. vm_compute in H. inversion H as [|? ? Hd _]. discriminate Hd.
Qed.

(** C8, amended.  [split] cuts the text into text pieces and runs of
    delimiters, each run right after the text it ends.  Let the buffer be
    [cur1] when the loop reaches a run [d] that holds punctuation: [cur1]
    ends with the text [t] that [d] terminates.  When [cur1] with [d] fits
    in [maxChars] (or [cur1] is white space only), [d] goes to the segment
    of [cur1]; otherwise [cur1] is flushed without [d], and [d] begins the
    next segment.  On ["First sentence. Second one. Third."] with bound 15
    the segments are ["First sentence."], ["Second one."], ["Third."]. *)
Theorem delimiter_run_placement (text : jsstring) (maxChars : Z)
        (pre : list jsstring) (t d : jsstring) (post : list jsstring) :
  text <> [] ->
  split_sentences text = pre ++ t :: d :: post ->
  forallb is_delim d = true ->
  non_ws d <> [] ->
  let st := chunk_loop maxChars (pre ++ [t]) ([], []) in
  let chunks1 := fst st in
  let cur1 := snd st in
  (exists b, cur1 = b ++ t) /\
  (jslen cur1 + jslen d <= maxChars \/ non_ws cur1 = [] ->
   exists k rest,
     splitTextIntoChunks text maxChars
     = chunks1 ++ trim (cur1 ++ d ++ concat (firstn k post)) :: rest) /\
  (jslen cur1 + jslen d > maxChars -> non_ws cur1 <> [] ->
   exists k rest,
     splitTextIntoChunks text maxChars
     = chunks1 ++ trim cur1 :: trim (d ++ concat (firstn k post)) :: rest) /\
  splitTextIntoChunks (lit "First sentence. Second one. Third.") 15
  = [lit "First sentence."; lit "Second one."; lit "Third."].
Proof.
  intros Hne Hsplit _ Hd st chunks1 cur1.
  assert (Hrun : splitTextIntoChunks text maxChars
                 = chunk_finish (chunk_loop maxChars post
                     (chunk_step maxChars (chunks1, cur1) d))).
  { rewrite (splitTextIntoChunks_nonempty text maxChars Hne), Hsplit.
    change (pre ++ t :: d :: post) with (pre ++ [t] ++ d :: post).
    rewrite app_assoc, chunk_loop_app, chunk_loop_cons.
    fold st. subst chunks1 cur1. now destruct st. }
  split; [|split; [|split]].
  - apply chunk_loop_last.
  - intros Hfit. rewrite Hrun.
    destruct (chunk_step_cases maxChars chunks1 cur1 d)
      as [(Hgt & Hnw & _) | (_ & ->)].
    { destruct Hfit; [lia | contradiction]. }
    assert (Hcd : non_ws (cur1 ++ d) <> []).
    { rewrite non_ws_app. intros H. now apply app_eq_nil in H. }
    destruct (chunk_loop_next_segment maxChars post chunks1 (cur1 ++ d) Hcd)
      as (k & rest & E).
    exists k, rest. rewrite app_assoc. exact E.
  - intros Hgt Hnw. rewrite Hrun.
    destruct (chunk_step_cases maxChars chunks1 cur1 d)
      as [(_ & _ & ->) | (Hfit & _)].
    2:{ destruct Hfit; [lia | contradiction]. }
    destruct (chunk_loop_next_segment maxChars post
                (chunks1 ++ [trim cur1]) d Hd) as (k & rest & E).
    exists k, rest. rewrite E, <- app_assoc. reflexivity.
  - reflexivity.
Qed.

Lemma delimiter_run_placement_witness :
  let st := chunk_loop 4 ([] ++ [lit "aaaa"]) ([], []) in
  (exists b, snd st = b ++ lit "aaaa") /\
  (jslen (snd st) + jslen (lit ".") <= 4 \/ non_ws (snd st) = [] ->
   exists k rest,
     splitTextIntoChunks (lit "aaaa.") 4
     = fst st ++ trim (snd st ++ lit "." ++ concat (firstn k [[]])) :: rest) /\
  (jslen (snd st) + jslen (lit ".") > 4 -> non_ws (snd st) <> [] ->
   exists k rest,
     splitTextIntoChunks (lit "aaaa.") 4
     = fst st ++ trim (snd st) :: trim (lit "." ++ concat (firstn k [[]]))
              :: rest) /\
  splitTextIntoChunks (lit "First sentence. Second one. Third.") 15
  = [lit "First sentence."; lit "Second one."; lit "Third."].
Proof.
  apply (delimiter_run_placement (lit "aaaa.") 4 [] (lit "aaaa") (lit ".")
           [[]]).
  - discriminate.
  - reflexivity.
  - reflexivity.
  - discriminate.
Defined.

(** * Properties of the playback session *)

Section Session.

Context {platform : Platform}.

(** ** The fill of the cache *)

Lemma chunk_at_in_range (cs : list jsstring) (i : Z) :
  0 <= i < Z.of_nat (length cs) -> exists text, chunk_at cs i = Some text.
Proof.
  intros [H0 H1]. unfold chunk_at.
  destruct (i <? 0) eqn:E; [lia|].
  destruct (nth_error cs (Z.to_nat i)) as [text|] eqn:En; [now exists text|].
  apply nth_error_None in En. lia.
Qed.

(** A call that meets one of the guards returns at once, the world as it
    was. *)
Lemma preload_begin_returned (env : Render.t) (i sid : Z) (w w1 : World) :
  preload_begin env i sid w = (w1, false) -> w1 = w.
Proof.
  unfold preload_begin. repeat case_match; intros E; now inversion E.
Qed.



(** A call that passes the guards marks the index and makes the call. *)
Lemma preload_begin_started (env : Render.t) (i sid : Z) (w : World) :
  0 <= i < Z.of_nat (length (Render.chunks env)) ->
  timer_at_zero env = false ->
  audioCacheRef w !! i = None ->
  i ∉ fetchingSetRef w ->
  exists text,
    chunk_at (Render.chunks env) i = Some text /\
    preload_begin env i sid w
    = (set_synthCalls
         (synthCalls w ++ [{| call_index := i; call_text := text;
                              call_voice := Render.selectedVoice env |}])
         (set_fetchingSetRef ({[i]} ∪ fetchingSetRef w) w), true).
Proof.
  intros Hi Ht Hc Hf. destruct (chunk_at_in_range _ _ Hi) as [text Htext].
  exists text. split; [exact Htext|].
  unfold preload_begin. rewrite Ht.
  replace (i >=? Z.of_nat (length (Render.chunks env))) with false by lia.
  replace (i <? 0) with false by lia. simpl.
  rewrite bool_decide_eq_false_2 by (rewrite Hc; apply is_Some_None).
  rewrite bool_decide_eq_false_2 by exact Hf.
  now rewrite Htext.
Qed.

Lemma synth_count_app (i : Z) (w : World) (c : SynthCall) :
  synth_count i (set_synthCalls (synthCalls w ++ [c]) w)
  = (synth_count i w + (if (call_index c =? i)%Z then 1 else 0))%nat.
Proof.
  unfold synth_count. simpl. rewrite List.filter_app, length_app. simpl.
  now destruct (call_index c =? i).
Qed.

(** ** The fetching set *)

Lemma preload_finish_world (i sid : Z) (outcome : SynthOutcome) (w : World) :
  fst (preload_finish i sid outcome w)
  = preload_finally i (fst (preload_try i sid outcome w)).
Proof.
  unfold preload_finish. now destruct (preload_try i sid outcome w).
Qed.

Lemma preload_finish_completion (i sid : Z) (outcome : SynthOutcome)
      (w : World) :
  snd (preload_finish i sid outcome w)
  = preload_catch (snd (preload_try i sid outcome w)).
Proof.
  unfold preload_finish. now destruct (preload_try i sid outcome w).
Qed.

(** C4.  A call of [preloadGeminiChunk] that gets to its [await] has put its
    index in the fetching set (and a call that returns at a guard has put
    nothing).  However the synthesis call settles and whatever the world is
    by then (success, rejection, a decoding that throws, a session that is
    no longer the current one), the index is out of the fetching set when
    the function ends, and the function ends without throwing. *)
Theorem fetching_set_released (env : Render.t) (i sid : Z) (w : World) :
  (forall w1, preload_begin env i sid w = (w1, true) ->
              i ∈ fetchingSetRef w1) /\
  (forall w1, preload_begin env i sid w = (w1, false) -> w1 = w) /\
  (forall outcome w',
      (i ∉ fetchingSetRef (fst (preload_finish i sid outcome w'))) /\
      snd (preload_finish i sid outcome w') <> Throw).
Proof.
  split; [|split].
  - intros w1. unfold preload_begin.
    repeat case_match; intros E; inversion E; subst; simpl; set_solver.
  - intros w1. apply preload_begin_returned.
  - intros outcome w'. split.
    + rewrite preload_finish_world. unfold preload_finally. simpl.
      rewrite elem_of_difference, elem_of_singleton. tauto.
    + rewrite preload_finish_completion.
      now destruct (snd (preload_try i sid outcome w')).
Qed.

(** ** The error of an utterance *)

(** C9, amended.  On an error whose cause is [interrupted] or [canceled]
    the handler leaves the world as it is.  On every other cause it clears
    the play-intent flag and [isPlaying], and nothing else: the status and
    the error message stay what they were. *)
Theorem utterance_error_handling (e : SpeechError) (w : World) :
  let w' := on_utterance_error e w in
  status w' = status w /\ errorMsg w' = errorMsg w /\
  if benign e
  then w' = w
  else w' = set_isPlayingRef false (set_isPlaying false w) /\
       isPlayingRef w' = false /\ isPlaying w' = false.
Proof. destruct e; simpl; auto. Qed.

(** ** What the steps of [playSequence] leave alone *)

Lemma untouched_refl (w : World) : untouched w w.
Proof. repeat split. Qed.

Lemma untouched_trans (w1 w2 w3 : World) :
  untouched w1 w2 -> untouched w2 w3 -> untouched w1 w3.
Proof.
  unfold untouched. intros (A1 & A2 & A3 & A4) (B1 & B2 & B3 & B4).
  repeat split; congruence.
Qed.

Lemma preload_begin_untouched (env : Render.t) (i sid : Z) (w : World) :
  untouched w (fst (preload_begin env i sid w)).
Proof. unfold preload_begin. repeat case_match; repeat split. Qed.

Lemma preload_begin_context (env : Render.t) (i sid : Z) (w : World) :
  audioContextRef (fst (preload_begin env i sid w)) = audioContextRef w /\
  isPlayingRef (fst (preload_begin env i sid w)) = isPlayingRef w /\
  status (fst (preload_begin env i sid w)) = status w /\
  animationFrameRef (fst (preload_begin env i sid w)) = animationFrameRef w.
Proof. unfold preload_begin. repeat case_match; repeat split. Qed.

Ltac frames :=
  unfold ensure_context, cancel_current_frame, cancelAnimationFrame,
    requestAnimationFrame in *.

Lemma play_buffer_untouched (env : Render.t) (i sid : Z) (cs : list jsstring)
      (b : AudioBuffer) (w : World) :
  untouched w (fst (play_buffer env i sid cs b w)).
Proof.
  unfold play_buffer.
  pose proof (preload_begin_untouched env (i + 1) sid w) as Hw.
  destruct (preload_begin env (i + 1) sid w) as [w1 started]. simpl in Hw.
  frames. repeat case_match; simpl; exact Hw.
Qed.

Lemma play_fetched_untouched (env : Render.t) (i sid : Z)
      (cs : list jsstring) (w : World) :
  untouched w (fst (play_fetched env i sid cs w)).
Proof.
  unfold play_fetched. repeat case_match; simpl; try apply untouched_refl.
  - eapply untouched_trans; [|apply play_buffer_untouched]. repeat split.
  - repeat split.
Qed.

Lemma play_from_cache_untouched (env : Render.t) (i sid : Z)
      (cs : list jsstring) (w : World) :
  untouched w (fst (play_from_cache env i sid cs w)).
Proof.
  unfold play_from_cache.
  destruct (audioCacheRef w !! i); [apply play_buffer_untouched|].
  pose proof (preload_begin_untouched env i sid
                (set_status GENERATING_AUDIO w)) as Hw.
  destruct (preload_begin env i sid (set_status GENERATING_AUDIO w))
    as [w1 started]. simpl in Hw.
  destruct started; simpl; [exact Hw|].
  eapply untouched_trans; [exact Hw | apply play_fetched_untouched].
Qed.

(** [playSequence] keeps the session and the cache. *)
Lemma playSequence_session (env : Render.t) (i : Z) (cs : list jsstring)
      (w : World) :
  sessionIdRef (fst (playSequence env i cs w)) = sessionIdRef w /\
  audioCacheRef (fst (playSequence env i cs w)) = audioCacheRef w.
Proof.
  unfold playSequence. frames.
  repeat case_match; simpl; try (split; reflexivity).
  all: match goal with
       | |- context [play_from_cache ?e ?j ?s ?c ?v] =>
           destruct (play_from_cache_untouched e j s c v) as (A & _ & _ & B);
           rewrite A, B; split; reflexivity
       end.
Qed.

(** Where [playSequence] leaves the cursor: on [i] when segment [i] exists,
    back on the first segment, in state [IDLE], when [i] is past the last
    one. *)
Lemma playSequence_cursor (env : Render.t) (i : Z) (cs : list jsstring)
      (w : World) :
  timer_expired env = false ->
  let w' := fst (playSequence env i cs w) in
  if i >=? Z.of_nat (length cs)
  then status w' = IDLE /\ currentChunkIndex w' = 0 /\
       pausedTimeRef w' = 0%Q /\ isPlayingRef w' = false /\
       snd (playSequence env i cs w) = []
  else currentChunkIndex w' = i.
Proof.
  intros Ht. unfold playSequence. rewrite Ht. frames.
  destruct (i >=? Z.of_nat (length cs)); simpl; [repeat split|].
  repeat case_match; simpl; try reflexivity.
  all: match goal with
       | |- context [play_from_cache ?e ?j ?s ?c ?v] =>
           destruct (play_from_cache_untouched e j s c v) as (_ & A & _ & _);
           rewrite A; reflexivity
       end.
Qed.

(** ** The end of a segment *)

Lemma cancel_current_frame_flags (w : World) :
  isPlayingRef (cancel_current_frame w) = isPlayingRef w /\
  sessionIdRef (cancel_current_frame w) = sessionIdRef w /\
  currentChunkIndex (cancel_current_frame w) = currentChunkIndex w /\
  pausedTimeRef (cancel_current_frame w) = pausedTimeRef w /\
  status (cancel_current_frame w) = status w.
Proof. frames. case_match; repeat split. Qed.

(** *** The callbacks that exist have passed the test of the timer *)

Lemma play_buffer_tasks (env : Render.t) (i sid : Z) (cs : list jsstring)
      (b : AudioBuffer) (w : World) :
  timer_expired env = false ->
  Forall passes_timer (snd (play_buffer env i sid cs b w)).
Proof.
  intros Ht. unfold play_buffer.
  destruct (preload_begin env (i + 1) sid w) as [w1 started]. frames.
  repeat case_match; simpl; repeat constructor; exact Ht.
Qed.

Lemma play_fetched_tasks (env : Render.t) (i sid : Z) (cs : list jsstring)
      (w : World) :
  timer_expired env = false ->
  Forall passes_timer (snd (play_fetched env i sid cs w)).
Proof.
  intros Ht. unfold play_fetched.
  repeat case_match; simpl; try constructor. now apply play_buffer_tasks.
Qed.

Lemma play_from_cache_tasks (env : Render.t) (i sid : Z) (cs : list jsstring)
      (w : World) :
  timer_expired env = false ->
  Forall passes_timer (snd (play_from_cache env i sid cs w)).
Proof.
  intros Ht. unfold play_from_cache.
  destruct (audioCacheRef w !! i); [now apply play_buffer_tasks|].
  destruct (preload_begin env i sid (set_status GENERATING_AUDIO w))
    as [w1 started].
  destruct started; simpl.
  - repeat constructor. exact Ht.
  - now apply play_fetched_tasks.
Qed.

Lemma playSequence_tasks (env : Render.t) (i : Z) (cs : list jsstring)
      (w : World) :
  Forall passes_timer (snd (playSequence env i cs w)).
Proof.
  unfold playSequence. destruct (timer_expired env) eqn:Ht; [constructor|].
  frames. repeat case_match; simpl; try (repeat constructor; exact Ht).
  all: now apply play_from_cache_tasks.
Qed.

Lemma start_fetched_tasks (env : Render.t) (sid : Z) (cs : list jsstring)
      (w : World) :
  Forall passes_timer (snd (start_fetched env sid cs w)).
Proof.
  unfold start_fetched.
  repeat case_match; simpl; try constructor. apply playSequence_tasks.
Qed.

Lemma handle_tasks (e : Event) (w : World) :
  event_passes_timer e -> Forall passes_timer (snd (handle e w)).
Proof.
  destruct e; simpl; intros He; try constructor.
  - unfold handleStartProcess. cbv zeta.
    destruct (Render.extractedText env); [constructor|].
    destruct (splitTextIntoChunks _ _); [constructor|].
    destruct (Render.ttsEngine env); [|apply playSequence_tasks].
    destruct (preload_begin env 0 _ _) as [w1 started].
    destruct started; [repeat constructor | apply start_fetched_tasks].
  - unfold handleJumpToChunk. cbv zeta.
    destruct (Render.status env); try constructor.
    all: destruct (match Render.chunks env with
                   | [] => _
                   | _ :: _ => _
                   end) as [[|seg segs] w1]; try constructor;
      apply playSequence_tasks.
  - unfold handleResume. case_match; [constructor | apply playSequence_tasks].
  - unfold synth_settled, resume_awaiter.
    destruct a; simpl in *; try constructor.
    + apply start_fetched_tasks.
    + now apply play_fetched_tasks.
  - unfold play_resumed. now apply play_from_cache_tasks.
  - unfold on_source_ended. case_match; [apply playSequence_tasks|constructor].
  - unfold on_utterance_end. case_match; [apply playSequence_tasks|constructor].
  - unfold on_prefetch_timer. case_match; [|constructor].
    destruct (preload_begin env (index + 2) sid w) as [w1 started].
    destruct started; repeat constructor.
  - unfold animateProgress. frames. repeat case_match; repeat constructor.
Qed.

Lemma fires_passes (t : Task) (e : Event) :
  fires t e -> passes_timer t -> event_passes_timer e.
Proof. intros Hf. destruct Hf; simpl; auto. Qed.

(** Every task of a reachable configuration holds a closure that passed the
    test of the timer. *)
Lemma reachable_passes_timer (w : World) (ts : list Task) :
  reachable w ts -> Forall passes_timer ts.
Proof.
  induction 1 as [|e w ts Hr IH Hc|t e w ts Hr IH Hin Hf].
  - constructor.
  - apply Forall_app. split; [exact IH|]. apply handle_tasks.
    destruct e; simpl in *; try exact I; discriminate.
  - apply Forall_app. split; [exact IH|]. apply handle_tasks.
    apply (fires_passes t e Hf). rewrite List.Forall_forall in IH.
    now apply IH.
Qed.

(** What the two [ended] callbacks do, for a closure that passed the test
    of the timer. *)
Lemma ended_cases (env : Render.t) (index sid : Z)
        (cs : list jsstring) (w : World) :
  timer_expired env = false ->
  let src := on_source_ended env index sid cs w in
  let utt := on_utterance_end env index sid cs w in
  if isPlayingRef w && (sessionIdRef w =? sid)
  then
    src = playSequence env (index + 1) cs
            (set_chunkProgressIndex (-1)
               (set_pausedTimeRef 0%Q (cancel_current_frame w))) /\
    utt = playSequence env (index + 1) cs (set_chunkProgressIndex (-1) w) /\
    if index + 1 >=? Z.of_nat (length cs)
    then
      (status (fst src) = IDLE /\ currentChunkIndex (fst src) = 0 /\
       pausedTimeRef (fst src) = 0%Q /\ isPlayingRef (fst src) = false) /\
      (status (fst utt) = IDLE /\ currentChunkIndex (fst utt) = 0 /\
       pausedTimeRef (fst utt) = 0%Q /\ isPlayingRef (fst utt) = false)
    else
      currentChunkIndex (fst src) = index + 1 /\
      currentChunkIndex (fst utt) = index + 1
  else
    src = (cancel_current_frame w, []) /\ utt = (w, []) /\
    currentChunkIndex (fst src) = currentChunkIndex w /\
    pausedTimeRef (fst src) = pausedTimeRef w.
Proof.
  intros Ht src utt. subst src utt. unfold on_source_ended, on_utterance_end.
  destruct (cancel_current_frame_flags w) as (Fp & Fs & Fc & Ft & _).
  rewrite Fp, Fs.
  destruct (isPlayingRef w && (sessionIdRef w =? sid)).
  - split; [reflexivity|]. split; [reflexivity|].
    pose proof (playSequence_cursor env (index + 1) cs
                  (set_chunkProgressIndex (-1)
                     (set_pausedTimeRef 0%Q (cancel_current_frame w))) Ht)
      as Hsrc.
    pose proof (playSequence_cursor env (index + 1) cs
                  (set_chunkProgressIndex (-1) w) Ht) as Hutt.
    simpl in Hsrc, Hutt.
    destruct (index + 1 >=? Z.of_nat (length cs)).
    + split; [destruct Hsrc as (? & ? & ? & ? & _)
             | destruct Hutt as (? & ? & ? & ? & _)]; repeat split; assumption.
    + split; assumption.
  - simpl. repeat split; assumption.
Qed.

(** C2.  In a configuration the component reaches, let the [ended] signal
    of segment [index] fire, on the source of a clip or on an utterance,
    for a callback that captured generation [sid].  When the play-intent
    flag is set and [sid] is the current generation, the callback runs
    [playSequence] on [index + 1]: the cursor is [index + 1] if that segment
    exists, and otherwise the session is [IDLE] with the cursor and the
    paused time back at zero.  When the flag is cleared (as after an
    explicit stop) or the generation has changed, nothing advances: the
    callback of the utterance leaves the world as it is, that of the source
    only cancels the animation frame. *)
Theorem ended_advances_iff (w : World) (ts : list Task) (env : Render.t)
        (index sid : Z) (cs : list jsstring) :
  reachable w ts ->
  In (SourcePlaying env index sid cs) ts \/
  In (UtterancePlaying env index sid cs) ts ->
  let src := on_source_ended env index sid cs w in
  let utt := on_utterance_end env index sid cs w in
  if isPlayingRef w && (sessionIdRef w =? sid)
  then
    src = playSequence env (index + 1) cs
            (set_chunkProgressIndex (-1)
               (set_pausedTimeRef 0%Q (cancel_current_frame w))) /\
    utt = playSequence env (index + 1) cs (set_chunkProgressIndex (-1) w) /\
    if index + 1 >=? Z.of_nat (length cs)
    then
      (status (fst src) = IDLE /\ currentChunkIndex (fst src) = 0 /\
       pausedTimeRef (fst src) = 0%Q /\ isPlayingRef (fst src) = false) /\
      (status (fst utt) = IDLE /\ currentChunkIndex (fst utt) = 0 /\
       pausedTimeRef (fst utt) = 0%Q /\ isPlayingRef (fst utt) = false)
    else
      currentChunkIndex (fst src) = index + 1 /\
      currentChunkIndex (fst utt) = index + 1
  else
    src = (cancel_current_frame w, []) /\ utt = (w, []) /\
    currentChunkIndex (fst src) = currentChunkIndex w /\
    pausedTimeRef (fst src) = pausedTimeRef w.
Proof.
  intros Hr Hin. apply ended_cases.
  pose proof (reachable_passes_timer w ts Hr) as Hall.
  rewrite List.Forall_forall in Hall.
  destruct Hin as [Hin | Hin]; exact (Hall _ Hin).
Qed.

(** ** The generation never goes back *)

Lemma preload_begin_sid (env : Render.t) (i sid : Z) (w : World) :
  sessionIdRef (fst (preload_begin env i sid w)) = sessionIdRef w.
Proof. apply preload_begin_untouched. Qed.

Lemma playSequence_sid (env : Render.t) (i : Z) (cs : list jsstring)
      (w : World) :
  sessionIdRef (fst (playSequence env i cs w)) = sessionIdRef w.
Proof. apply playSequence_session. Qed.

Lemma play_fetched_sid (env : Render.t) (i sid : Z) (cs : list jsstring)
      (w : World) :
  sessionIdRef (fst (play_fetched env i sid cs w)) = sessionIdRef w.
Proof. apply play_fetched_untouched. Qed.

Lemma play_from_cache_sid (env : Render.t) (i sid : Z) (cs : list jsstring)
      (w : World) :
  sessionIdRef (fst (play_from_cache env i sid cs w)) = sessionIdRef w.
Proof. apply play_from_cache_untouched. Qed.

Lemma start_fetched_sid (env : Render.t) (sid : Z) (cs : list jsstring)
      (w : World) :
  sessionIdRef (fst (start_fetched env sid cs w)) = sessionIdRef w.
Proof.
  unfold start_fetched.
  repeat case_match; simpl; rewrite ?playSequence_sid; reflexivity.
Qed.

Lemma preload_finish_sid (i sid : Z) (outcome : SynthOutcome) (w : World) :
  sessionIdRef (fst (preload_finish i sid outcome w)) = sessionIdRef w.
Proof.
  rewrite preload_finish_world. unfold preload_finally, preload_try. frames.
  repeat case_match; reflexivity.
Qed.

Lemma synth_settled_sid (i sid : Z) (a : Awaiter) (outcome : SynthOutcome)
      (w : World) :
  sessionIdRef (fst (synth_settled i sid a outcome w)) = sessionIdRef w.
Proof.
  unfold synth_settled, resume_awaiter.
  destruct a; rewrite ?start_fetched_sid, ?play_fetched_sid;
    apply preload_finish_sid.
Qed.

Lemma resetAudioState_sid (env : Render.t) (w : World) :
  sessionIdRef (resetAudioState env w) = sessionIdRef w + 1.
Proof. unfold resetAudioState. frames. repeat case_match; reflexivity. Qed.

Lemma handlePause_sid (env : Render.t) (w : World) :
  sessionIdRef (handlePause env w) = sessionIdRef w.
Proof.
  unfold handlePause, suspend_context. frames.
  repeat case_match; reflexivity.
Qed.

Lemma handleStartProcess_sid (env : Render.t) (w : World) :
  sessionIdRef w <= sessionIdRef (fst (handleStartProcess env w)).
Proof.
  unfold handleStartProcess.
  destruct (Render.extractedText env); [simpl; lia|]. cbv zeta.
  set (w1 := set_chunks _ _).
  assert (Hs : sessionIdRef w1 = sessionIdRef w + 1).
  { subst w1. destruct (Render.timerDuration env >? 0); simpl;
      rewrite resetAudioState_sid; unfold unlockAudioContext; frames;
      repeat case_match; reflexivity. }
  clearbody w1.
  destruct (splitTextIntoChunks _ _) as [|seg segs]; [simpl; lia|].
  destruct (Render.ttsEngine env).
  - pose proof (preload_begin_sid env 0
                  (sessionIdRef (set_status GENERATING_AUDIO w1))
                  (set_status GENERATING_AUDIO w1)) as Hp.
    destruct (preload_begin env 0 _ (set_status GENERATING_AUDIO w1))
      as [w2 started].
    simpl in Hp. destruct started; simpl.
    + lia.
    + rewrite start_fetched_sid. lia.
  - rewrite playSequence_sid. simpl. lia.
Qed.

Lemma handleJumpToChunk_sid (env : Render.t) (i : Z) (w : World) :
  sessionIdRef w <= sessionIdRef (fst (handleJumpToChunk env i w)).
Proof.
  unfold handleJumpToChunk, unlockAudioContext, suspend_context. frames.
  repeat case_match; simplify_eq; simpl; rewrite ?playSequence_sid; simpl;
    lia.
Qed.

Lemma handleResume_sid (env : Render.t) (confirmed : bool) (w : World) :
  sessionIdRef (fst (handleResume env confirmed w)) = sessionIdRef w.
Proof.
  unfold handleResume, unlockAudioContext. frames.
  repeat case_match; simpl; rewrite ?playSequence_sid; reflexivity.
Qed.

(** No turn of the event loop lowers the generation. *)
Lemma handle_session_mono (e : Event) (w : World) :
  sessionIdRef w <= sessionIdRef (fst (handle e w)).
Proof.
  destruct e; simpl.
  - apply handleStartProcess_sid.
  - apply handleJumpToChunk_sid.
  - rewrite handlePause_sid. lia.
  - rewrite handleResume_sid. lia.
  - rewrite resetAudioState_sid. lia.
  - unfold on_timer_tick. repeat case_match; simpl;
      rewrite ?handlePause_sid; lia.
  - rewrite synth_settled_sid. lia.
  - unfold play_resumed. rewrite play_from_cache_sid.
    repeat case_match; simpl; lia.
  - unfold on_source_ended.
    destruct (cancel_current_frame_flags w) as (_ & Fs & _).
    case_match; simpl; rewrite ?playSequence_sid; simpl; lia.
  - unfold on_utterance_boundary. case_match; simpl; lia.
  - unfold on_utterance_end.
    case_match; simpl; rewrite ?playSequence_sid; simpl; lia.
  - unfold on_utterance_error. case_match; simpl; lia.
  - unfold on_prefetch_timer. case_match; simpl; [|lia].
    pose proof (preload_begin_sid env (index + 2) sid w) as Hp.
    destruct (preload_begin env (index + 2) sid w). simpl in *. lia.
  - unfold animateProgress. frames. repeat case_match; simpl; lia.
  - unfold advance_clock. repeat case_match; simpl; lia.
  - unfold context_started. repeat case_match; simpl; lia.
Qed.

Lemma run_session_mono (es : list Event) : forall w : World,
  sessionIdRef w <= sessionIdRef (run es w).
Proof.
  induction es as [|e es IH]; intros w; simpl; [lia|].
  pose proof (handle_session_mono e w). pose proof (IH (fst (handle e w))).
  unfold run in *. lia.
Qed.

(** C1.  A fetch of segment [k] starts with generation [sid], the current
    one (or an older one, for a caller that was itself suspended).
    Whatever happens next ([es1]), then [resetAudioState], then whatever
    happens after it ([es2]): when the synthesis call settles, in whatever
    way, the world only loses [k] from the fetching set.  The cache gets no
    entry, the cursor does not move, the awaiting caller schedules nothing.
    Right after the reset the cursor is at 0 and the cache empty, and the
    settling leaves them so. *)
Theorem stale_fetch_discarded (env env_r : Render.t) (k sid : Z)
        (w0 w1 : World) (a : Awaiter) (es1 es2 : list Event)
        (outcome : SynthOutcome) :
  sid <= sessionIdRef w0 ->
  preload_begin env k sid w0 = (w1, true) ->
  let w3 := resetAudioState env_r (run es1 w1) in
  let w4 := run es2 w3 in
  synth_settled k sid a outcome w4 = (preload_finally k w4, []) /\
  audioCacheRef (fst (synth_settled k sid a outcome w4)) = audioCacheRef w4 /\
  currentChunkIndex (fst (synth_settled k sid a outcome w4))
  = currentChunkIndex w4 /\
  audioCacheRef (fst (synth_settled k sid a outcome w3)) = ∅ /\
  currentChunkIndex (fst (synth_settled k sid a outcome w3)) = 0.
Proof.
  intros Hsid Hbegin w3 w4.
  assert (Hw1 : sid <= sessionIdRef w1).
  { pose proof (preload_begin_sid env k sid w0) as Hp.
    rewrite Hbegin in Hp. simpl in Hp. lia. }
  assert (H3 : sid < sessionIdRef w3).
  { subst w3. rewrite resetAudioState_sid.
    pose proof (run_session_mono es1 w1). lia. }
  assert (Hstale : forall w, sid < sessionIdRef w ->
            synth_settled k sid a outcome w = (preload_finally k w, [])).
  { intros w Hlt. unfold synth_settled.
    assert (Hf : fst (preload_finish k sid outcome w) = preload_finally k w).
    { rewrite preload_finish_world. unfold preload_try.
      destruct outcome; [reflexivity|].
      replace (sid =? sessionIdRef w) with false by lia. reflexivity. }
    rewrite Hf. unfold resume_awaiter, start_fetched, play_fetched.
    destruct a; simpl; [reflexivity| |].
    - replace (sid =? sessionIdRef w) with false by lia. reflexivity.
    - replace (sessionIdRef w =? sid) with false by lia. reflexivity. }
  assert (H4 : sid < sessionIdRef w4).
  { subst w4. pose proof (run_session_mono es2 w3). lia. }
  rewrite (Hstale w4 H4), (Hstale w3 H3). simpl.
  repeat split; subst w3; unfold resetAudioState; frames;
    repeat case_match; reflexivity.
Qed.

(** ** The offset of a pause *)

Lemma chunk_at_lt (cs : list jsstring) (i : Z) (text : jsstring) :
  chunk_at cs i = Some text -> (i >=? Z.of_nat (length cs)) = false.
Proof.
  unfold chunk_at. destruct (i <? 0) eqn:E; [discriminate|].
  intros Hn. assert (Hlt : (Z.to_nat i < length cs)%nat).
  { apply nth_error_Some. congruence. }
  lia.
Qed.






(** ** A text of white space *)

Lemma set_timeLeft_twice (v : option Z) (w : World) :
  set_timeLeft v (set_timeLeft v w) = set_timeLeft v w.
Proof. reflexivity. Qed.

(** [handleStartProcess] sets the time left as [resetAudioState] just did. *)
Lemma resetAudioState_timeLeft (env : Render.t) (w : World) :
  (if Render.timerDuration env >? 0
   then set_timeLeft (Some (Render.timerDuration env * 60))
          (resetAudioState env w)
   else set_timeLeft None (resetAudioState env w))
  = resetAudioState env w.
Proof.
  unfold resetAudioState. cbv zeta.
  destruct (Render.timerDuration env >? 0); apply set_timeLeft_twice.
Qed.

Lemma resetAudioState_keeps (env : Render.t) (w : World) :
  synthCalls (resetAudioState env w) = synthCalls w /\
  status (resetAudioState env w) = status w /\
  chunks (resetAudioState env w) = chunks w.
Proof.
  unfold resetAudioState. frames. repeat case_match; repeat split.
Qed.

(** C10.  A text of white space only has no segment, whatever [maxChars]
    is.  [handleStartProcess] on such a text, when it is not empty, does
    what [resetAudioState] does (after the audio context is made sure of,
    for the buffered backend), stores the empty sequence of segments and
    stops: no synthesis call, no playback, the status as it was.  On the
    empty text it returns at once. *)
Theorem whitespace_text_starts_nothing (env : Render.t) (w : World) :
  forallb is_ws (Render.extractedText env) = true ->
  (forall maxChars,
      splitTextIntoChunks (Render.extractedText env) maxChars = []) /\
  handleStartProcess env w
  = (match Render.extractedText env with
     | [] => w
     | _ :: _ =>
         set_chunks []
           (resetAudioState env
              match Render.ttsEngine env with
              | gemini => unlockAudioContext w
              | browser => w
              end)
     end, []) /\
  synthCalls (fst (handleStartProcess env w)) = synthCalls w /\
  status (fst (handleStartProcess env w)) = status w.
Proof.
  intros Hws.
  assert (Hsplit : forall maxChars,
             splitTextIntoChunks (Render.extractedText env) maxChars = []).
  { intros maxChars. now apply split_whitespace_only. }
  split; [exact Hsplit|].
  assert (Hstart : handleStartProcess env w
                   = (match Render.extractedText env with
                      | [] => w
                      | _ :: _ =>
                          set_chunks []
                            (resetAudioState env
                               match Render.ttsEngine env with
                               | gemini => unlockAudioContext w
                               | browser => w
                               end)
                      end, [])).
  { unfold handleStartProcess. rewrite Hsplit.
    destruct (Render.extractedText env); [reflexivity|]. cbv zeta.
    now rewrite resetAudioState_timeLeft. }
  split; [exact Hstart|]. rewrite Hstart.
  destruct (Render.extractedText env); [split; reflexivity|].
  cbn [fst synthCalls status set_chunks].
  destruct (resetAudioState_keeps env
              match Render.ttsEngine env with
              | gemini => unlockAudioContext w
              | browser => w
              end) as (Hc & Hs & _).
  rewrite Hc, Hs. unfold unlockAudioContext, ensure_context.
  repeat case_match; split; reflexivity.
Qed.

End Session.

(** * The claims at concrete inputs *)

(** C1 at a concrete input: the fetch of segment 0 starts, one second
    passes, the audio state is reset, the call resolves. *)
Lemma stale_fetch_discarded_witness :
  audioCacheRef
    (fst (@synth_settled test_platform 0 0
            (InPlaySequence demo_render demo_chunks) (Resolved (lit "abcd"))
            (@resetAudioState demo_render
               (@run test_platform [ClockAdvance 1]
                  (fst (preload_begin demo_render 0 0 initial_world))))))
  = ∅.
Proof.
  apply (@stale_fetch_discarded test_platform demo_render demo_render 0 0
           initial_world (fst (preload_begin demo_render 0 0 initial_world))
           (InPlaySequence demo_render demo_chunks) [ClockAdvance 1] []
           (Resolved (lit "abcd"))).
  - simpl. lia.
  - reflexivity.
Defined.

(** C2 at a concrete input: the user jumps to the first of two segments
    with the platform voice, and its utterance ends. *)
Lemma ended_advances_iff_witness :
  currentChunkIndex
    (fst (@on_utterance_end test_platform
            (chunked_render demo_chunks browser None) 0 1 demo_chunks
            (fst (@handle test_platform
                    (Jump (chunked_render demo_chunks browser None) 0)
                    initial_world))))
  = 1.
Proof.
  pose proof (@ended_advances_iff test_platform _ _
                (chunked_render demo_chunks browser None) 0 1 demo_chunks
                (@reach_control test_platform
                   (Jump (chunked_render demo_chunks browser None) 0)
                   initial_world [] (@reach_first test_platform) eq_refl)
                (or_intror (or_introl eq_refl))) as H.
  vm_compute in H. destruct H as (_ & _ & _ & H). vm_compute. exact H.
Defined.


(** C4 at a concrete input: the index is in the set while the call is
    pending and out of it when the call is rejected. *)
Lemma fetching_set_released_witness :
  0 ∈ fetchingSetRef (fst (preload_begin demo_render 0 0 initial_world)) /\
  0 ∉ fetchingSetRef
        (fst (@preload_finish test_platform 0 0 Rejected
                (fst (preload_begin demo_render 0 0 initial_world)))).
Proof.
  destruct (@fetching_set_released test_platform demo_render 0 0 initial_world)
    as (Hin & _ & Hout).
  split.
  - apply Hin. reflexivity.
  - apply Hout.
Defined.

(** C9 as the specification states it fails: on a network error the status
    stays [PLAYING], it does not become [ERROR]. *)
Lemma utterance_error_counterexample :
  benign network = false /\
  status (on_utterance_error network speaking_world) = PLAYING /\
  status (on_utterance_error network speaking_world) <> ERROR.
Proof. repeat split. discriminate. Qed.

(** C10 at a concrete input: a text of a space and a line break. *)
Lemma whitespace_text_starts_nothing_witness :
  snd (@handleStartProcess test_platform
         (initial_render [0x20; 0x0A]%N gemini) initial_world) = [].
Proof.
  destruct (@whitespace_text_starts_nothing test_platform
              (initial_render [0x20; 0x0A]%N gemini) initial_world eq_refl)
    as (_ & H & _).
  now rewrite H.
Defined.

(** * Further properties *)

(** ** [getWordAt] *)

Lemma word_start_le (text : jsstring) (i : nat) : (word_start text i <= i)%nat.
Proof.
  induction i as [|k IH]; simpl; [lia|].
  destruct (separator_at text k); lia.
Qed.

Lemma word_start_clear (text : jsstring) (i k : nat) :
  (word_start text i <= k < i)%nat -> separator_at text k = false.
Proof.
  induction i as [|j IH]; simpl; [lia|].
  destruct (separator_at text j) eqn:E; [lia|].
  intros Hk. destruct (Nat.eq_dec k j) as [-> | Hne]; [exact E|].
  apply IH. lia.
Qed.

Lemma word_start_stop (text : jsstring) (i : nat) :
  word_start text i = O \/
  separator_at text (word_start text i - 1) = true.
Proof.
  induction i as [|j IH]; simpl; [now left|].
  destruct (separator_at text j) eqn:E; [|exact IH].
  right. simpl. now rewrite Nat.sub_0_r.
Qed.

Lemma word_start_unique (text : jsstring) (j s : nat) :
  (s <= j)%nat ->
  (forall k, (s <= k < j)%nat -> separator_at text k = false) ->
  s = O \/ separator_at text (s - 1) = true ->
  word_start text j = s.
Proof.
  induction j as [|k IH]; intros Hs Hclear Hstop; simpl; [lia|].
  destruct (separator_at text k) eqn:E.
  - destruct (Nat.eq_dec s (S k)) as [-> | Hne]; [reflexivity|].
    rewrite Hclear in E by lia. discriminate.
  - apply IH.
    + destruct (Nat.eq_dec s (S k)) as [-> | Hne]; [|lia].
      destruct Hstop as [H0 | H1]; [discriminate|].
      simpl in H1. rewrite Nat.sub_0_r in H1. congruence.
    + intros k' Hk'. apply Hclear. lia.
    + exact Hstop.
Qed.

Lemma word_end_range (text : jsstring) (fuel : nat) : forall e : nat,
  (e <= length text)%nat ->
  (e <= word_end text fuel e <= length text)%nat.
Proof.
  induction fuel as [|f IH]; intros e He; simpl; [lia|].
  destruct (e <? length text)%nat eqn:E; simpl; [|lia].
  destruct (separator_at text e); simpl; [lia|].
  apply Nat.ltb_lt in E. specialize (IH (S e)). lia.
Qed.

Lemma word_end_clear (text : jsstring) (fuel : nat) : forall e k : nat,
  (e <= k < word_end text fuel e)%nat -> separator_at text k = false.
Proof.
  induction fuel as [|f IH]; intros e k; simpl; [lia|].
  destruct (e <? length text)%nat; simpl; [|lia].
  destruct (separator_at text e) eqn:E; simpl; [lia|].
  intros Hk. destruct (Nat.eq_dec k e) as [-> | Hne]; [exact E|].
  apply (IH (S e)). lia.
Qed.

Lemma word_end_stop (text : jsstring) (fuel : nat) : forall e : nat,
  (length text - e <= fuel)%nat ->
  (length text <= word_end text fuel e)%nat \/
  separator_at text (word_end text fuel e) = true.
Proof.
  induction fuel as [|f IH]; intros e Hf; simpl; [left; lia|].
  destruct (e <? length text)%nat eqn:E; simpl.
  - destruct (separator_at text e) eqn:Es; simpl; [now right|].
    apply IH. lia.
  - apply Nat.ltb_ge in E. left. exact E.
Qed.

Lemma word_end_unique (text : jsstring) (fuel : nat) : forall j e : nat,
  (j <= e <= length text)%nat ->
  (length text - j <= fuel)%nat ->
  (forall k, (j <= k < e)%nat -> separator_at text k = false) ->
  e = length text \/ separator_at text e = true ->
  word_end text fuel j = e.
Proof.
  induction fuel as [|f IH]; intros j e He Hf Hclear Hstop; simpl; [lia|].
  destruct (Nat.eq_dec j e) as [-> | Hne].
  - destruct Hstop as [-> | Hs].
    + now rewrite Nat.ltb_irrefl.
    + rewrite Hs. now rewrite andb_false_r.
  - replace (j <? length text)%nat with true
      by (symmetry; apply Nat.ltb_lt; lia).
    rewrite Hclear by lia. simpl. apply IH; try lia.
    + intros k Hk. apply Hclear. lia.
    + exact Hstop.
Qed.

(** [getWordAt] on an index of a word, in natural numbers. *)
Lemma getWordAt_word (text : jsstring) (index : Z) :
  0 <= index < jslen text ->
  separator_at text (Z.to_nat index) = false ->
  getWordAt text index
  = (Z.of_nat (word_start text (Z.to_nat index)),
     Z.of_nat (word_end text (length text - Z.to_nat index)
                 (Z.to_nat index))).
Proof.
  intros Hi Hs. unfold getWordAt.
  replace ((index <? 0) || (index >=? jslen text)) with false
    by (unfold jslen in *; lia).
  now rewrite Hs.
Qed.

Lemma getWordAt_inside (text : jsstring) (index : Z) :
  0 <= index < jslen text ->
  0 <= fst (getWordAt text index) <= index /\
  index < snd (getWordAt text index) <= jslen text.
Proof.
  intros Hi. unfold getWordAt.
  replace ((index <? 0) || (index >=? jslen text)) with false by lia.
  cbv zeta. destruct (separator_at text (Z.to_nat index)) eqn:Es; simpl.
  - lia.
  - pose proof (word_start_le text (Z.to_nat index)).
    unfold jslen in *.
    pose proof (word_end_range text (length text - Z.to_nat index)
                  (Z.to_nat index) ltac:(lia)) as [_ Hle].
    assert (Hlt : (Z.to_nat index
                   < word_end text (length text - Z.to_nat index)
                       (Z.to_nat index))%nat).
    { destruct (length text - Z.to_nat index)%nat as [|f] eqn:Ef; [lia|].
      simpl. replace (Z.to_nat index <? length text)%nat with true
        by (symmetry; apply Nat.ltb_lt; lia).
      rewrite Es. simpl.
      pose proof (word_end_range text f (S (Z.to_nat index)) ltac:(lia)).
      lia. }
    lia.
Qed.

(** [getWordAt] gives [(0, 0)] for an index outside the text, and for an
    index inside it a range of the text that holds the index. *)
Theorem getWordAt_bounds (text : jsstring) (index : Z) :
  if (index <? 0) || (index >=? jslen text)
  then getWordAt text index = (0, 0)
  else 0 <= fst (getWordAt text index) <= index /\
       index < snd (getWordAt text index) <= jslen text.
Proof.
  destruct ((index <? 0) || (index >=? jslen text)) eqn:E.
  - unfold getWordAt. now rewrite E.
  - apply getWordAt_inside. lia.
Qed.

(** On a separator [getWordAt] gives that one character.  On any other
    character it gives the word around it: no character of the range is a
    separator, and the range stops on each side at a separator or at the
    end of the text. *)
Theorem getWordAt_is_the_word (text : jsstring) (index : Z) :
  0 <= index < jslen text ->
  let s := fst (getWordAt text index) in
  let e := snd (getWordAt text index) in
  if separator_at text (Z.to_nat index)
  then s = index /\ e = index + 1
  else
    (forall k, s <= Z.of_nat k < e -> separator_at text k = false) /\
    (s = 0 \/ separator_at text (Z.to_nat (s - 1)) = true) /\
    (e = jslen text \/ separator_at text (Z.to_nat e) = true).
Proof.
  intros Hi s e. subst s e.
  destruct (separator_at text (Z.to_nat index)) eqn:Es.
  - unfold getWordAt.
    replace ((index <? 0) || (index >=? jslen text)) with false by lia.
    rewrite Es. simpl. lia.
  - rewrite (getWordAt_word text index Hi Es). simpl.
    set (i := Z.to_nat index).
    pose proof (word_start_le text i) as Hsl.
    assert (Hil : (i < length text)%nat) by (unfold jslen in *; lia).
    pose proof (word_end_range text (length text - i) i ltac:(lia)) as Her.
    split; [|split].
    + intros k Hk.
      destruct (Nat.lt_ge_cases k i) as [Hlt | Hge].
      * apply (word_start_clear text i). lia.
      * apply (word_end_clear text (length text - i) i). lia.
    + destruct (word_start_stop text i) as [H0 | H1]; [left; lia|].
      right. replace (Z.to_nat (Z.of_nat (word_start text i) - 1))
               with (word_start text i - 1)%nat by lia.
      exact H1.
    + destruct (word_end_stop text (length text - i) i ltac:(lia))
        as [H0 | H1].
      * left. unfold jslen. lia.
      * right. now rewrite Nat2Z.id.
Qed.

Lemma getWordAt_is_the_word_witness :
  let s := fst (getWordAt (lit "to be, or") 4) in
  let e := snd (getWordAt (lit "to be, or") 4) in
  if separator_at (lit "to be, or") (Z.to_nat 4)
  then s = 4 /\ e = 4 + 1
  else
    (forall k, s <= Z.of_nat k < e ->
               separator_at (lit "to be, or") k = false) /\
    (s = 0 \/ separator_at (lit "to be, or") (Z.to_nat (s - 1)) = true) /\
    (e = jslen (lit "to be, or") \/
     separator_at (lit "to be, or") (Z.to_nat e) = true).
Proof.
  apply (getWordAt_is_the_word (lit "to be, or") 4).
  unfold jslen. simpl. lia.
Defined.

(** Every index of a word gives the same range: the highlight does not
    change while the position moves inside one word. *)
Theorem getWordAt_same_within_word (text : jsstring) (index j : Z) :
  0 <= index < jslen text ->
  separator_at text (Z.to_nat index) = false ->
  fst (getWordAt text index) <= j < snd (getWordAt text index) ->
  getWordAt text j = getWordAt text index.
Proof.
  intros Hi Hs. rewrite (getWordAt_word text index Hi Hs). simpl.
  set (i := Z.to_nat index).
  set (s := word_start text i).
  set (e := word_end text (length text - i) i).
  intros Hj.
  assert (Hil : (i < length text)%nat) by (unfold jslen in *; lia).
  pose proof (word_start_le text i) as Hsl. fold s in Hsl.
  pose proof (word_end_range text (length text - i) i ltac:(lia)) as Her.
  fold e in Her.
  assert (Hclear : forall k, (s <= k < e)%nat -> separator_at text k = false).
  { intros k Hk. destruct (Nat.lt_ge_cases k i) as [Hlt | Hge].
    - apply (word_start_clear text i). fold s. lia.
    - apply (word_end_clear text (length text - i) i). fold e. lia. }
  assert (Hjr : 0 <= j < jslen text) by (unfold jslen; lia).
  assert (Hjs : separator_at text (Z.to_nat j) = false)
    by (apply Hclear; lia).
  rewrite (getWordAt_word text j Hjr Hjs). f_equal; f_equal.
  - apply word_start_unique.
    + lia.
    + intros k Hk. apply Hclear. lia.
    + apply word_start_stop.
  - apply word_end_unique.
    + lia.
    + lia.
    + intros k Hk. apply Hclear. lia.
    + destruct (word_end_stop text (length text - i) i ltac:(lia))
        as [H0 | H1]; [left; fold e in H0; lia | right; exact H1].
Qed.

Lemma getWordAt_same_within_word_witness :
  getWordAt (lit "to be, or") 3 = getWordAt (lit "to be, or") 4.
Proof.
  apply (getWordAt_same_within_word (lit "to be, or") 4 3).
  - unfold jslen. simpl. lia.
  - reflexivity.
  - vm_compute. split; [discriminate | reflexivity].
Defined.

(** ** The spans of the highlighted chunk *)

Lemma slice_index_inside (len k : Z) : 0 <= k <= len -> slice_index len k = k.
Proof. intros Hk. unfold slice_index. destruct (k <? 0) eqn:E; lia. Qed.

Lemma slice_inside (s : jsstring) (a b : Z) :
  0 <= a <= b -> b <= jslen s ->
  slice s a b = firstn (Z.to_nat b - Z.to_nat a) (skipn (Z.to_nat a) s).
Proof.
  intros Ha Hb. unfold slice.
  rewrite !slice_index_inside by lia. f_equal. lia.
Qed.

Lemma three_slices (s : jsstring) (a b : Z) :
  0 <= a <= b -> b <= jslen s ->
  slice s 0 a ++ slice s a b ++ slice_from s b = s.
Proof.
  intros Ha Hb. unfold slice_from.
  rewrite !slice_inside by lia. simpl.
  rewrite Nat.sub_0_r.
  assert (Hlen : (Z.to_nat b <= length s)%nat) by (unfold jslen in *; lia).
  replace (firstn (Z.to_nat (jslen s) - Z.to_nat b) (skipn (Z.to_nat b) s))
    with (skipn (Z.to_nat b) s).
  2:{ symmetry. apply firstn_all2. rewrite length_skipn.
      unfold jslen. lia. }
  replace (skipn (Z.to_nat b) s)
    with (skipn (Z.to_nat b - Z.to_nat a) (skipn (Z.to_nat a) s)).
  2:{ rewrite skipn_skipn. f_equal. lia. }
  rewrite (firstn_skipn (Z.to_nat b - Z.to_nat a) (skipn (Z.to_nat a) s)).
  apply firstn_skipn.
Qed.

(** For the active chunk and a progress index inside it,
    [renderHighlightedChunk] makes three spans that together are the chunk;
    the highlighted one is not empty and holds the character at the
    progress index. *)
Theorem highlight_spans_rebuild_chunk (currentChunkIndex chunkProgressIndex : Z)
        (chunk : jsstring) (index : Z) :
  index = currentChunkIndex ->
  0 <= chunkProgressIndex < jslen chunk ->
  exists before highlighted after,
    renderHighlightedChunk currentChunkIndex chunkProgressIndex chunk index
    = Spans before highlighted after /\
    before ++ highlighted ++ after = chunk /\
    highlighted <> [] /\
    jslen before <= chunkProgressIndex /\
    nth_error highlighted (Z.to_nat (chunkProgressIndex - jslen before))
    = nth_error chunk (Z.to_nat chunkProgressIndex).
Proof.
  intros Hidx Hp. unfold renderHighlightedChunk.
  rewrite Hidx, Z.eqb_refl. simpl.
  replace ((chunkProgressIndex >=? 0) && (chunkProgressIndex <? jslen chunk))
    with true by lia.
  pose proof (getWordAt_inside chunk chunkProgressIndex Hp) as Hb.
  destruct (getWordAt chunk chunkProgressIndex) as [s e]. simpl in Hb.
  exists (slice chunk 0 s), (slice chunk s e), (slice_from chunk e).
  pose proof (three_slices chunk s e ltac:(lia) ltac:(lia)) as H3.
  assert (Hbefore : jslen (slice chunk 0 s) = s).
  { rewrite slice_inside by lia. unfold jslen in *.
    rewrite length_firstn, length_skipn. lia. }
  assert (Hmid : jslen (slice chunk s e) = e - s).
  { rewrite slice_inside by lia. unfold jslen in *.
    rewrite length_firstn, length_skipn. lia. }
  split; [reflexivity|]. split; [exact H3|]. split; [|split].
  - intros E. rewrite E in Hmid. unfold jslen in Hmid. simpl in Hmid. lia.
  - lia.
  - rewrite Hbefore. rewrite <- H3 at 2.
    rewrite nth_error_app2 by (unfold jslen in *; lia).
    rewrite nth_error_app1 by (unfold jslen in *; lia).
    f_equal. unfold jslen in *. lia.
Qed.

Lemma highlight_spans_rebuild_chunk_witness :
  exists before highlighted after,
    renderHighlightedChunk 0 4 (lit "to be, or") 0
    = Spans before highlighted after /\
    before ++ highlighted ++ after = lit "to be, or" /\
    highlighted <> [] /\
    jslen before <= 4 /\
    nth_error highlighted (Z.to_nat (4 - jslen before))
    = nth_error (lit "to be, or") (Z.to_nat 4).
Proof.
  apply (highlight_spans_rebuild_chunk 0 4 (lit "to be, or") 0).
  - reflexivity.
  - unfold jslen. simpl. lia.
Defined.

(** ** A text that fits in one segment *)

Lemma chunk_loop_fits (maxChars : Z) (ss : list jsstring) :
  forall chunks cur,
    jslen cur + jslen (concat ss) <= maxChars ->
    chunk_loop maxChars ss (chunks, cur) = (chunks, cur ++ concat ss).
Proof.
  induction ss as [|s ss IH]; intros chunks cur Hfit.
  - simpl. now rewrite app_nil_r.
  - rewrite chunk_loop_cons. cbn [concat] in *.
    unfold jslen in Hfit. rewrite length_app in Hfit.
    destruct (chunk_step_cases maxChars chunks cur s)
      as [(Hgt & _ & _) | (_ & ->)]; [unfold jslen in Hgt; lia|].
    rewrite IH, <- app_assoc; [reflexivity|].
    unfold jslen. rewrite length_app. lia.
Qed.

(** A text that is not longer than [maxChars] and holds more than white
    space is one segment, the trimmed text. *)
Theorem short_text_is_one_segment (text : jsstring) (maxChars : Z) :
  jslen text <= maxChars ->
  non_ws text <> [] ->
  splitTextIntoChunks text maxChars = [trim text].
Proof.
  intros Hfit Hne.
  assert (Htext : text <> []) by (intros ->; now apply Hne).
  rewrite (splitTextIntoChunks_nonempty text maxChars Htext).
  rewrite chunk_loop_fits
    by (rewrite split_sentences_concat; unfold jslen in *; simpl; lia).
  simpl. rewrite split_sentences_concat.
  apply trim_test in Hne. now rewrite Hne.
Qed.

Lemma short_text_is_one_segment_witness :
  splitTextIntoChunks (lit " One. Two! ") 200 = [trim (lit " One. Two! ")].
Proof.
  apply (short_text_is_one_segment (lit " One. Two! ") 200).
  - unfold jslen. simpl. lia.
  - discriminate.
Defined.

(** ** [generateSpeechFromText] *)

(** The delay after the failed attempt [k]. *)
Lemma tts_attempts_run (api : nat -> ApiOutcome) (remaining : nat) :
  forall (attempt : nat) (delays : list Z),
    (attempt + remaining = retries)%nat -> (0 < remaining)%nat ->
    let r := tts_attempts api remaining attempt delays in
    exists k,
      (attempt <= k < retries)%nat /\
      tts_calls r = S k /\
      tts_result r = attempt_result (api k) /\
      (forall j, (attempt <= j < k)%nat ->
                 exists e, attempt_result (api j) = Failure e /\
                           isFatal e = false) /\
      tts_delays r
      = delays ++ map (fun j => 1000 * 2 ^ Z.of_nat j)
                      (seq attempt (k - attempt)) /\
      match attempt_result (api k) with
      | Audio _ => True
      | Failure e => isFatal e = true \/ S k = retries
      end.
Proof.
  unfold retries.
  induction remaining as [|rest IH]; intros attempt delays Hsum Hpos; [lia|].
  simpl. destruct (attempt_result (api attempt)) as [d | e] eqn:Ea.
  - exists attempt. simpl. rewrite Ea, Nat.sub_diag. simpl.
    rewrite app_nil_r. repeat split; lia.
  - destruct (isFatal e || (attempt =? 2)%nat) eqn:Estop.
    + exists attempt. simpl. rewrite Ea, Nat.sub_diag. simpl.
      rewrite app_nil_r. repeat split; try lia.
      apply orb_true_iff in Estop. destruct Estop as [Hf | Hl];
        [now left | right; apply Nat.eqb_eq in Hl; lia].
    + apply orb_false_iff in Estop. destruct Estop as [Hf Hl].
      apply Nat.eqb_neq in Hl.
      destruct (IH (S attempt) (delays ++ [1000 * 2 ^ Z.of_nat attempt])
                  ltac:(lia) ltac:(lia))
        as (k & Hk & Hc & Hr & Hprev & Hd & Hlast).
      exists k. repeat split; try lia; try assumption.
      * intros j Hj. destruct (Nat.eq_dec j attempt) as [-> | Hne].
        -- exists e. now split.
        -- apply Hprev. lia.
      * rewrite Hd, <- app_assoc. f_equal.
        replace (k - attempt)%nat with (S (k - S attempt)) by lia.
        reflexivity.
Qed.

Lemma first_audio_found (parts : list Part) (d : jsstring) :
  first_audio parts = Some d ->
  d <> [] /\ exists p, In p parts /\ inline_data p = Some d.
Proof.
  induction parts as [|p rest IH]; simpl; [discriminate|].
  destruct (inline_data p) as [[|c s]|] eqn:E; simpl.
  - intros H. destruct (IH H) as (Hd & q & Hq & Hi). eauto.
  - intros H. inversion H; subst. split; [discriminate|]. eauto.
  - intros H. destruct (IH H) as (Hd & q & Hq & Hi). eauto.
Qed.

(** [generateSpeechFromText] calls the interface at most three times, waits
    1000 ms after the first failure and 2000 ms after the second, 3000 ms
    at most in all, and never ends with the fallback error: the error it
    throws is the one of its last attempt. *)
Theorem tts_retries_bounded (text : jsstring) (api : nat -> ApiOutcome) :
  let r := generateSpeechFromText text api in
  (tts_calls r <= 3)%nat /\
  tts_delays r = firstn (tts_calls r - 1) [1000; 2000] /\
  tts_result r <> Failure TryLater /\
  (forall e, tts_result r = Failure e ->
             e = TextIsEmpty \/
             tts_result r = attempt_result (api (tts_calls r - 1)%nat)).
Proof.
  unfold generateSpeechFromText.
  destruct (trim text) as [|c s]; cbv zeta.
  - simpl. repeat split; [lia | discriminate | intros e H; left; congruence].
  - destruct (tts_attempts_run api retries 0 [] eq_refl ltac:(unfold retries; lia))
      as (k & Hk & Hc & Hr & _ & Hd & Hlast).
    unfold retries in *. rewrite Hc, Hd, Hr.
    cbn [app Nat.sub]. rewrite !Nat.sub_0_r.
    repeat split.
    + lia.
    + destruct k as [|[|[|k]]]; try reflexivity; lia.
    + destruct (attempt_result (api k)) as [d | e] eqn:Ea; [discriminate|].
      unfold attempt_result in Ea.
      repeat case_match; try discriminate; inversion Ea; discriminate.
    + intros e _. now right.
Qed.

(** When [generateSpeechFromText] resolves, its audio is not empty; it is
    the payload of a part of the answer to the last call made, and every
    call before that one failed with an error that is not a refusal. *)
Theorem tts_success_is_first_audio (text : jsstring)
        (api : nat -> ApiOutcome) (d : jsstring) :
  tts_result (generateSpeechFromText text api) = Audio d ->
  let k := (tts_calls (generateSpeechFromText text api) - 1)%nat in
  d <> [] /\
  (exists parts p,
      api k = ApiAnswers (Some parts) /\ In p parts /\
      inline_data p = Some d) /\
  (forall j, (j < k)%nat ->
             exists e, attempt_result (api j) = Failure e /\
                       isFatal e = false).
Proof.
  unfold generateSpeechFromText.
  destruct (trim text) as [|c s]; [discriminate|].
  destruct (tts_attempts_run api retries 0 [] eq_refl ltac:(unfold retries; lia))
    as (k & Hk & Hc & Hr & Hprev & _).
  rewrite Hc, Hr. cbn [Nat.sub]. rewrite Nat.sub_0_r. intros Ha.
  unfold attempt_result in Ha.
  destruct (api k) as [refusal | [parts|]] eqn:Eapi; try discriminate.
  destruct (first_audio parts) as [d'|] eqn:Ef.
  - inversion Ha; subst d'.
    destruct (first_audio_found parts d Ef) as (Hd & p & Hp & Hi).
    split; [exact Hd|]. split; [now exists parts, p|].
    intros j Hj. apply Hprev. lia.
  - destruct (first_text parts); discriminate.
Qed.

(** A refusal ends the retries: when an attempt gets a fatal error after
    attempts that failed otherwise, no further call is made, nothing more is
    waited for, and that error is the result. *)
Theorem tts_refusal_stops_retries (text : jsstring) (api : nat -> ApiOutcome)
        (k : nat) (e : TtsError) :
  non_ws text <> [] ->
  (k < 3)%nat ->
  attempt_result (api k) = Failure e ->
  isFatal e = true ->
  (forall j, (j < k)%nat ->
             exists e', attempt_result (api j) = Failure e' /\
                        isFatal e' = false) ->
  let r := generateSpeechFromText text api in
  tts_result r = Failure e /\ tts_calls r = S k /\
  length (tts_delays r) = k.
Proof.
  intros Hne Hk He Hfatal Hprev. unfold generateSpeechFromText.
  destruct (trim text) as [|c s] eqn:Et; [now apply trim_nil in Et|].
  destruct (tts_attempts_run api retries 0 [] eq_refl ltac:(unfold retries; lia))
    as (k' & Hk' & Hc & Hr & Hprev' & Hd & Hlast).
  assert (Hkk : k' = k).
  { destruct (Nat.lt_trichotomy k' k) as [Hlt | [Heq | Hgt]]; [|exact Heq|].
    - destruct (Hprev k' Hlt) as (e' & He' & Hf'). rewrite He' in Hlast.
      destruct Hlast as [Hf | Hl]; [congruence|]. unfold retries in Hl. lia.
    - destruct (Hprev' k ltac:(lia)) as (e' & He' & Hf'). congruence. }
  subst k'. cbv zeta. rewrite Hr, Hc, Hd, He. simpl.
  rewrite length_map, length_seq. repeat split. lia.
Qed.

Lemma tts_refusal_stops_retries_witness :
  let api := fun k : nat =>
               match k with
               | O => ApiThrows false
               | _ => ApiAnswers
                        (Some [{| inline_data := None;
                                  part_text := Some (lit "no") |}])
               end in
  let r := generateSpeechFromText (lit "Hi.") api in
  tts_result r = Failure (Unreadable (lit "no")) /\ tts_calls r = 2%nat /\
  length (tts_delays r) = 1%nat.
Proof.
  intros api.
  apply (tts_refusal_stops_retries (lit "Hi.") api 1 (Unreadable (lit "no"))).
  - discriminate.
  - lia.
  - reflexivity.
  - reflexivity.
  - intros j Hj. assert (j = O) by lia. subst j.
    exists (ApiError false). split; reflexivity.
Defined.

Lemma tts_success_is_first_audio_witness :
  let api := fun _ : nat =>
               ApiAnswers (Some [{| inline_data := Some (lit "QUJD");
                                    part_text := None |}]) in
  let k := (tts_calls (generateSpeechFromText (lit "Hi.") api) - 1)%nat in
  lit "QUJD" <> [] /\
  (exists parts p,
      api k = ApiAnswers (Some parts) /\ In p parts /\
      inline_data p = Some (lit "QUJD")) /\
  (forall j, (j < k)%nat ->
             exists e, attempt_result (api j) = Failure e /\
                       isFatal e = false).
Proof.
  intros api.
  apply (tts_success_is_first_audio (lit "Hi.") api (lit "QUJD")).
  reflexivity.
Defined.

Lemma segments_not_blank (text : jsstring) (maxChars : Z) :
  Forall (fun c => non_ws c <> []) (splitTextIntoChunks text maxChars).
Proof.
  destruct text as [|c0 text0] eqn:Etext; [constructor|].
  rewrite <- Etext.
  rewrite (splitTextIntoChunks_nonempty text maxChars)
    by (rewrite Etext; discriminate).
  apply (chunk_loop_ind maxChars (fun _ => True)
           (fun c => non_ws c <> []) (fun _ => True)); auto.
  - intros cur s _ _ H. now rewrite non_ws_trim.
  - intros cur _ H. now rewrite non_ws_trim.
  - apply List.Forall_forall. auto.
Qed.

(** A text of white space only is refused before any call is made, and no
    segment of [splitTextIntoChunks] is refused so: for each the interface
    is called at least once. *)
Theorem tts_empty_text_guard (text : jsstring) (maxChars : Z)
        (api : nat -> ApiOutcome) :
  (if forallb is_ws text
   then generateSpeechFromText text api
        = {| tts_result := Failure TextIsEmpty; tts_calls := 0;
             tts_delays := [] |}
   else (1 <= tts_calls (generateSpeechFromText text api))%nat) /\
  Forall (fun c =>
            (1 <= tts_calls (generateSpeechFromText c api))%nat /\
            tts_result (generateSpeechFromText c api) <> Failure TextIsEmpty)
         (splitTextIntoChunks text maxChars).
Proof.
  assert (Hcalled : forall c, non_ws c <> [] ->
            (1 <= tts_calls (generateSpeechFromText c api))%nat /\
            tts_result (generateSpeechFromText c api) <> Failure TextIsEmpty).
  { intros c Hc. unfold generateSpeechFromText.
    destruct (trim c) as [|x s] eqn:Et; [now apply trim_nil in Et|].
    destruct (tts_attempts_run api retries 0 [] eq_refl
                ltac:(unfold retries; lia))
      as (k & Hk & Hcalls & Hr & _).
    rewrite Hcalls, Hr. split; [lia|].
    unfold attempt_result. repeat case_match; discriminate. }
  split.
  - destruct (forallb is_ws text) eqn:E.
    + apply non_ws_nil_forallb, trim_nil in E.
      unfold generateSpeechFromText. now rewrite E.
    + apply Hcalled. intros H. apply non_ws_nil_forallb in H. congruence.
  - eapply List.Forall_impl; [|apply segments_not_blank].
    exact Hcalled.
Qed.

(** ** [decodeAudioData] and [decodeBase64] *)

Lemma pair_induction {A : Type} (P : list A -> Prop) :
  P [] -> (forall x, P [x]) -> (forall x y l, P l -> P (x :: y :: l)) ->
  forall l, P l.
Proof.
  intros H0 H1 H2 l.
  assert (H : P l /\ forall x, P (x :: l)); [|exact (proj1 H)].
  induction l as [|y l [IHl IHx]]; split; auto.
Qed.

Lemma half_SS (n : nat) : (S (S n) / 2 = S (n / 2))%nat.
Proof.
  replace (S (S n)) with (n + 1 * 2)%nat by lia.
  rewrite Nat.div_add by lia. lia.
Qed.

Lemma int16_samples_length (data : list Z) :
  length (int16_samples data) = (length data / 2)%nat.
Proof.
  induction data as [| x | x y l IH] using pair_induction;
    [reflexivity | reflexivity |].
  cbn [int16_samples length]. rewrite half_SS. now f_equal.
Qed.

Lemma int16_samples_even_prefix (data : list Z) :
  int16_samples (firstn (2 * (length data / 2)) data) = int16_samples data.
Proof.
  induction data as [| x | x y l IH] using pair_induction;
    [reflexivity | reflexivity |].
  cbn [length]. rewrite half_SS.
  replace (2 * S (length l / 2))%nat with (S (S (2 * (length l / 2))))
    by lia.
  cbn [firstn int16_samples]. now f_equal.
Qed.

Lemma int16_le_range (lo hi : Z) :
  0 <= lo < 256 -> 0 <= hi < 256 -> -32768 <= int16_le lo hi < 32768.
Proof.
  intros Hlo Hhi. unfold int16_le. cbv zeta.
  destruct (lo + 256 * hi >=? 32768) eqn:E; lia.
Qed.

Lemma int16_samples_range (data : list Z) :
  Forall (fun x => 0 <= x < 256) data ->
  Forall (fun v => -32768 <= v < 32768) (int16_samples data).
Proof.
  induction data as [| x | x y l IH] using pair_induction; intros H;
    [constructor | constructor |].
  inversion H as [|? ? Hx H']; subst. inversion H' as [|? ? Hy Hl]; subst.
  cbn [int16_samples]. constructor; [now apply int16_le_range | auto].
Qed.

(** [decodeAudioData] reads the bytes up to the last even position, the
    buffer it makes has one frame for every two bytes and the sample rate
    asked for, and it fails, at [createBuffer], exactly when there are fewer
    than two bytes. *)
Theorem decodeAudioData_frames (data : list Z) (rate : Z) :
  decodeAudioData data rate
  = decodeAudioData (firstn (2 * (length data / 2)) data) rate /\
  match decodeAudioData data rate with
  | None => (length data < 2)%nat
  | Some b =>
      (2 <= length data)%nat /\
      length (channelData b) = (length data / 2)%nat /\
      sampleRate b = rate
  end.
Proof.
  split.
  - unfold decodeAudioData. now rewrite int16_samples_even_prefix.
  - pose proof (int16_samples_length data) as Hlen.
    unfold decodeAudioData.
    destruct (int16_samples data) as [|v vs] eqn:E.
    + simpl in Hlen. destruct data as [|x [|y l]]; simpl; try lia.
      discriminate.
    + cbn [channelData sampleRate]. rewrite length_map, Hlen.
      repeat split.
      destruct data as [|x [|y l]]; simpl in *; try discriminate; lia.
Qed.

Lemma well_formed_duration (b : AudioBuffer) :
  well_formed_clip b -> (0 < duration b)%Q.
Proof.
  intros (Hne & Hrate & _). unfold duration, Qlt. rewrite Hrate.
  cbn [Qnum Qden]. destruct (channelData b); [contradiction|].
  cbn [length]. lia.
Qed.

Lemma decoded_samples_in_range (data : list Z) (b : AudioBuffer) :
  Forall (fun x => 0 <= x < 256) data ->
  decodeAudioData data 24000 = Some b ->
  well_formed_clip b.
Proof.
  intros Hbytes Hdec. unfold decodeAudioData in Hdec.
  pose proof (int16_samples_range data Hbytes) as Hrange.
  destruct (int16_samples data) as [|v vs] eqn:E; [discriminate|].
  assert (Hb : b = {| sampleRate := 24000;
                      channelData := map (fun x => x # 32768) (v :: vs) |})
    by congruence.
  subst b. clear Hdec.
  unfold well_formed_clip. cbn [channelData sampleRate].
  repeat split; [discriminate|].
  apply List.Forall_forall. intros q Hq. apply in_map_iff in Hq.
  destruct Hq as (x & <- & Hx).
  rewrite List.Forall_forall in Hrange. specialize (Hrange x Hx).
  unfold Qle, Qlt. cbn [Qnum Qden]. lia.
Qed.

(** A clip decoded from bytes, each from 0 to 255, at 24000 frames a second
    is well formed: it has a frame, its samples lie from -1 up to 1, and
    its duration is positive, the number of byte pairs over 24000. *)
Theorem decoded_clip_well_formed (data : list Z) (b : AudioBuffer) :
  Forall (fun x => 0 <= x < 256) data ->
  decodeAudioData data 24000 = Some b ->
  well_formed_clip b /\ (0 < duration b)%Q /\
  duration b = (Z.of_nat (length data / 2) # 24000).
Proof.
  intros Hbytes Hdec.
  pose proof (decoded_samples_in_range data b Hbytes Hdec) as Hwf.
  split; [exact Hwf|]. split; [now apply well_formed_duration|].
  unfold decodeAudioData in Hdec.
  pose proof (int16_samples_length data) as Hlen.
  destruct (int16_samples data) as [|v vs] eqn:E; [discriminate|].
  assert (Hb : b = {| sampleRate := 24000;
                      channelData := map (fun x => x # 32768) (v :: vs) |})
    by congruence.
  subst b. unfold duration. cbn [channelData sampleRate].
  now rewrite length_map, Hlen.
Qed.

Lemma decoded_clip_well_formed_witness :
  well_formed_clip
    {| sampleRate := 24000;
       channelData := [(-32768 # 32768)%Q; (32767 # 32768)%Q] |} /\
  (0 < duration {| sampleRate := 24000;
                   channelData := [(-32768 # 32768)%Q;
                                   (32767 # 32768)%Q] |})%Q /\
  duration {| sampleRate := 24000;
              channelData := [(-32768 # 32768)%Q; (32767 # 32768)%Q] |}
  = (Z.of_nat (length [0; 128; 255; 127; 7] / 2) # 24000).
Proof.
  apply (decoded_clip_well_formed [0; 128; 255; 127; 7]).
  - repeat constructor; lia.
  - reflexivity.
Defined.

(** * Further properties of the session *)

Lemma segments_spaced (text : jsstring) (maxChars : Z) :
  spaced (splitTextIntoChunks text maxChars) text.
Proof.
  destruct text as [|c0 text0] eqn:Etext; [now constructor|].
  rewrite <- Etext.
  rewrite (splitTextIntoChunks_nonempty text maxChars)
    by (rewrite Etext; discriminate).
  pose proof (chunk_loop_spaced maxChars (split_sentences text) [] [] []
                (spaced_nil [] eq_refl)) as H.
  simpl in H. now rewrite split_sentences_concat in H.
Qed.

Lemma segments_exist (text : jsstring) (maxChars : Z) :
  non_ws text <> [] -> splitTextIntoChunks text maxChars <> [].
Proof.
  intros Hne Hnil. pose proof (segments_spaced text maxChars) as Hs.
  rewrite Hnil in Hs. inversion Hs; subst. contradiction.
Qed.

Section Playback.

Context {platform : Platform}.

Ltac ops :=
  unfold ensure_context, cancel_current_frame, cancelAnimationFrame,
    requestAnimationFrame in *.

(** ** The generation of the session *)

Lemma handleStartProcess_generation (env : Render.t) (w : World) :
  sessionIdRef (fst (handleStartProcess env w))
  = sessionIdRef w + (if bumps (Start env) then 1 else 0).
Proof.
  unfold handleStartProcess, bumps.
  destruct (Render.extractedText env); [simpl; lia|]. cbv zeta.
  set (w1 := set_chunks _ _).
  assert (Hs : sessionIdRef w1 = sessionIdRef w + 1).
  { subst w1. destruct (Render.timerDuration env >? 0); simpl;
      rewrite resetAudioState_sid; unfold unlockAudioContext; ops;
      repeat case_match; reflexivity. }
  clearbody w1.
  destruct (splitTextIntoChunks _ _) as [|seg segs]; [simpl; lia|].
  destruct (Render.ttsEngine env).
  - pose proof (preload_begin_sid env 0
                  (sessionIdRef (set_status GENERATING_AUDIO w1))
                  (set_status GENERATING_AUDIO w1)) as Hp.
    destruct (preload_begin env 0 _ (set_status GENERATING_AUDIO w1))
      as [w2 started].
    simpl in Hp. destruct started; simpl.
    + lia.
    + rewrite start_fetched_sid. lia.
  - rewrite playSequence_sid. simpl. lia.
Qed.

Lemma handleJumpToChunk_generation (env : Render.t) (i : Z) (w : World) :
  sessionIdRef (fst (handleJumpToChunk env i w))
  = sessionIdRef w + (if bumps (Jump env i) then 1 else 0).
Proof.
  unfold handleJumpToChunk, unlockAudioContext, suspend_context, bumps. ops.
  repeat case_match; simplify_eq; simpl; rewrite ?playSequence_sid; simpl;
    lia.
Qed.

Lemma handle_generation (e : Event) (w : World) :
  sessionIdRef (fst (handle e w))
  = sessionIdRef w + (if bumps e then 1 else 0).
Proof.
  destruct e; cbn [handle].
  - apply handleStartProcess_generation.
  - apply handleJumpToChunk_generation.
  - cbn. rewrite handlePause_sid. lia.
  - cbn [bumps]. rewrite handleResume_sid. lia.
  - cbn. rewrite resetAudioState_sid. lia.
  - cbn [bumps fst]. unfold on_timer_tick. repeat case_match; simpl;
      rewrite ?handlePause_sid; lia.
  - cbn [bumps]. rewrite synth_settled_sid. lia.
  - cbn [bumps]. unfold play_resumed. rewrite play_from_cache_sid.
    repeat case_match; simpl; lia.
  - cbn [bumps]. unfold on_source_ended.
    destruct (cancel_current_frame_flags w) as (_ & Hs & _).
    repeat case_match; simpl; rewrite ?playSequence_sid; simpl; lia.
  - cbn [bumps fst]. unfold on_utterance_boundary.
    repeat case_match; simpl; lia.
  - cbn [bumps]. unfold on_utterance_end.
    repeat case_match; simpl; rewrite ?playSequence_sid; simpl; lia.
  - cbn [bumps fst]. unfold on_utterance_error.
    repeat case_match; simpl; lia.
  - cbn [bumps]. unfold on_prefetch_timer.
    destruct (isPlayingRef w && (sessionIdRef w =? sid)); [|simpl; lia].
    pose proof (preload_begin_sid env (index + 2) sid w) as Hp.
    destruct (preload_begin env (index + 2) sid w). simpl in *. lia.
  - cbn [bumps]. unfold animateProgress. ops.
    repeat case_match; simplify_eq; simpl; lia.
  - cbn [bumps fst]. unfold advance_clock. repeat case_match; simpl; lia.
  - cbn [bumps fst]. unfold context_started. repeat case_match; simpl; lia.
Qed.

(** The generation of the session moves only when the user starts, jumps
    (outside the parsing of a document) or the audio state is reset, and
    then by one: over any sequence of turns it has grown by the number of
    those, and no callback, settled promise or other control changes it. *)
Theorem generation_counts_restarts (es : list Event) (w : World) :
  sessionIdRef (run es w)
  = sessionIdRef w + Z.of_nat (length (List.filter bumps es)).
Proof.
  revert w. induction es as [|e es IH]; intros w; [simpl; lia|].
  change (run (e :: es) w) with (run es (fst (handle e w))).
  rewrite IH, handle_generation. cbn [List.filter].
  destruct (bumps e); cbn [length]; lia.
Qed.

Lemma settle_in_other_generation (k sid : Z) (a : Awaiter)
      (outcome : SynthOutcome) (w : World) :
  sid <> sessionIdRef w ->
  synth_settled k sid a outcome w = (preload_finally k w, []).
Proof.
  intros Hne. unfold synth_settled.
  assert (Hf : fst (preload_finish k sid outcome w) = preload_finally k w).
  { rewrite preload_finish_world. unfold preload_try.
    destruct outcome; [reflexivity|].
    replace (sid =? sessionIdRef w) with false by lia. reflexivity. }
  rewrite Hf. unfold resume_awaiter, start_fetched, play_fetched.
  destruct a; simpl; [reflexivity| |].
  - replace (sid =? sessionIdRef w) with false by lia. reflexivity.
  - replace (sessionIdRef w =? sid) with false by lia. reflexivity.
Qed.

(** A fetch that a start, a jump or a reset has superseded is discarded
    when its call settles, whatever happened in between and however the
    call ends: the index leaves the fetching set and nothing else changes,
    no clip is stored, no playback is started and nothing is scheduled. *)
Theorem superseded_fetch_discarded (env : Render.t) (k sid : Z)
        (w0 w1 : World) (a : Awaiter) (es1 es2 : list Event) (e : Event)
        (outcome : SynthOutcome) :
  sid <= sessionIdRef w0 ->
  preload_begin env k sid w0 = (w1, true) ->
  bumps e = true ->
  let w4 := run es2 (fst (handle e (run es1 w1))) in
  synth_settled k sid a outcome w4 = (preload_finally k w4, []) /\
  audioCacheRef (fst (synth_settled k sid a outcome w4)) = audioCacheRef w4 /\
  status (fst (synth_settled k sid a outcome w4)) = status w4 /\
  synthCalls (fst (synth_settled k sid a outcome w4)) = synthCalls w4.
Proof.
  intros Hsid Hbegin Hb w4.
  assert (Hw1 : sid <= sessionIdRef w1).
  { pose proof (preload_begin_sid env k sid w0) as Hp.
    rewrite Hbegin in Hp. simpl in Hp. lia. }
  assert (H4 : sid < sessionIdRef w4).
  { subst w4.
    pose proof (run_session_mono es2 (fst (handle e (run es1 w1)))) as H2.
    rewrite handle_generation, Hb in H2.
    pose proof (run_session_mono es1 w1). lia. }
  rewrite settle_in_other_generation by lia.
  repeat split.
Qed.

(** ** The clips in the cache *)

Lemma decodeBase64_range (base64 : jsstring) (bytes : list Z) :
  decodeBase64 base64 = Some bytes -> Forall (fun x => 0 <= x < 256) bytes.
Proof.
  unfold decodeBase64. destruct (atob (non_ws base64)); [|discriminate].
  intros H. inversion H; subst. apply List.Forall_forall.
  intros x Hx. apply in_map_iff in Hx. destruct Hx as (c & <- & _).
  apply Z.mod_pos_bound. lia.
Qed.

Ltac session_kept :=
  match goal with
  | |- context [playSequence ?e ?i ?c ?v] =>
      rewrite (proj2 (playSequence_session e i c v))
  end.

Lemma preload_finish_cache (i sid : Z) (outcome : SynthOutcome) (w : World) :
  audioCacheRef (fst (preload_finish i sid outcome w)) = audioCacheRef w \/
  exists b, well_formed_clip b /\
            audioCacheRef (fst (preload_finish i sid outcome w))
            = <[i := b]> (audioCacheRef w).
Proof.
  rewrite preload_finish_world. unfold preload_finally, preload_try.
  destruct outcome as [|s]; [now left|].
  destruct (negb (sid =? sessionIdRef w)); [now left|].
  destruct (decodeBase64 s) as [bytes|] eqn:Eb;
    [|left; ops; repeat case_match; reflexivity].
  destruct (decodeAudioData bytes 24000) as [b|] eqn:Ed;
    [|left; ops; repeat case_match; reflexivity].
  right. exists b. split.
  - apply (decoded_samples_in_range bytes b); [|exact Ed].
    now apply (decodeBase64_range s).
  - ops. repeat case_match; reflexivity.
Qed.

Lemma handlePause_cache (env : Render.t) (w : World) :
  audioCacheRef (handlePause env w) = audioCacheRef w.
Proof.
  unfold handlePause, suspend_context. ops.
  repeat case_match; reflexivity.
Qed.

Lemma resetAudioState_cache (env : Render.t) (w : World) :
  audioCacheRef (resetAudioState env w) = ∅ /\
  fetchingSetRef (resetAudioState env w) = ∅.
Proof.
  unfold resetAudioState. ops. repeat case_match; split; reflexivity.
Qed.

Lemma start_fetched_cache (env : Render.t) (sid : Z) (cs : list jsstring)
      (w : World) :
  audioCacheRef (fst (start_fetched env sid cs w)) = audioCacheRef w.
Proof.
  unfold start_fetched. repeat case_match; simpl; try reflexivity.
  now session_kept.
Qed.

Lemma handleStartProcess_cache (env : Render.t) (w : World) :
  audioCacheRef (fst (handleStartProcess env w))
  = match Render.extractedText env with
    | [] => audioCacheRef w
    | _ :: _ => ∅
    end.
Proof.
  unfold handleStartProcess.
  destruct (Render.extractedText env); [reflexivity|]. cbv zeta.
  set (w1 := set_chunks _ _).
  assert (Hs : audioCacheRef w1 = ∅).
  { subst w1. destruct (Render.timerDuration env >? 0); simpl;
      apply resetAudioState_cache. }
  clearbody w1.
  destruct (splitTextIntoChunks _ _) as [|seg segs]; [exact Hs|].
  destruct (Render.ttsEngine env).
  - destruct (preload_begin_untouched env 0
                (sessionIdRef (set_status GENERATING_AUDIO w1))
                (set_status GENERATING_AUDIO w1)) as (_ & _ & _ & Hp).
    destruct (preload_begin env 0 _ (set_status GENERATING_AUDIO w1))
      as [w2 started].
    simpl in Hp. destruct started; simpl.
    + now rewrite Hp.
    + now rewrite start_fetched_cache, Hp.
  - now session_kept.
Qed.

(** In one turn the cache stays as it is, is emptied or receives one clip,
    which is well formed. *)
Lemma handle_cache (e : Event) (w : World) :
  audioCacheRef (fst (handle e w)) = audioCacheRef w \/
  audioCacheRef (fst (handle e w)) = ∅ \/
  exists i b, well_formed_clip b /\
              audioCacheRef (fst (handle e w)) = <[i := b]> (audioCacheRef w).
Proof.
  destruct e; cbn [handle fst].
  - rewrite handleStartProcess_cache.
    destruct (Render.extractedText env); [now left | now right; left].
  - left. unfold handleJumpToChunk, unlockAudioContext, suspend_context. ops.
    repeat case_match; simplify_eq; simpl; try reflexivity;
      session_kept; reflexivity.
  - left. apply handlePause_cache.
  - left. unfold handleResume, unlockAudioContext. ops.
    repeat case_match; simpl; try reflexivity; session_kept; reflexivity.
  - right; left. apply resetAudioState_cache.
  - left. unfold on_timer_tick.
    repeat case_match; simpl; rewrite ?handlePause_cache; reflexivity.
  - unfold synth_settled.
    assert (Ha : forall v, audioCacheRef (fst (resume_awaiter a index sid v))
                           = audioCacheRef v).
    { intros v. destruct a; simpl; [reflexivity | apply start_fetched_cache |].
      apply play_fetched_untouched. }
    rewrite Ha.
    destruct (preload_finish_cache index sid outcome w) as [H | (b & Hb & H)];
      [now left | right; right; now exists index, b].
  - left. unfold play_resumed.
    match goal with
    | |- context [play_from_cache ?e ?j ?s ?c ?v] =>
        destruct (play_from_cache_untouched e j s c v) as (_ & _ & _ & B);
        rewrite B
    end.
    repeat case_match; reflexivity.
  - left. unfold on_source_ended. ops.
    repeat case_match; simpl; try reflexivity; session_kept; reflexivity.
  - left. unfold on_utterance_boundary. repeat case_match; reflexivity.
  - left. unfold on_utterance_end.
    repeat case_match; simpl; try reflexivity; session_kept; reflexivity.
  - left. unfold on_utterance_error. repeat case_match; reflexivity.
  - left. unfold on_prefetch_timer.
    destruct (isPlayingRef w && (sessionIdRef w =? sid)); [|reflexivity].
    destruct (preload_begin_untouched env (index + 2) sid w)
      as (_ & _ & _ & Hp).
    destruct (preload_begin env (index + 2) sid w). exact Hp.
  - left. unfold animateProgress. ops.
    repeat case_match; simplify_eq; reflexivity.
  - left. unfold advance_clock. repeat case_match; reflexivity.
  - left. unfold context_started. repeat case_match; reflexivity.
Qed.

(** Whatever the turns of the event loop, the cache only ever holds clips
    that are well formed: from a cache of such clips, the first render's
    empty one for instance, every clip has a frame, 24000 frames a second,
    samples from -1 up to 1 and a positive duration, by which the
    highlight estimator divides. *)
Theorem cached_clips_well_formed (es : list Event) (w : World) :
  map_Forall (fun _ b => well_formed_clip b) (audioCacheRef w) ->
  forall i b, audioCacheRef (run es w) !! i = Some b ->
              well_formed_clip b /\ (0 < duration b)%Q.
Proof.
  intros Hw.
  assert (Hrun : map_Forall (fun _ b => well_formed_clip b)
                            (audioCacheRef (run es w))).
  { revert w Hw. induction es as [|e es IH]; intros w Hw; [exact Hw|].
    change (run (e :: es) w) with (run es (fst (handle e w))).
    apply IH.
    destruct (handle_cache e w) as [-> | [-> | (i & b & Hb & ->)]].
    - exact Hw.
    - apply map_Forall_empty.
    - now apply map_Forall_insert_2. }
  intros i b Hi. pose proof (Hrun i b Hi) as Hb.
  split; [exact Hb | now apply well_formed_duration].
Qed.

(** ** The time left on the timer *)

Lemma preload_begin_timer (env : Render.t) (i sid : Z) (w : World) :
  timeLeft (fst (preload_begin env i sid w)) = timeLeft w.
Proof. unfold preload_begin. repeat case_match; reflexivity. Qed.

Lemma play_buffer_timer (env : Render.t) (i sid : Z) (cs : list jsstring)
      (b : AudioBuffer) (w : World) :
  timeLeft (fst (play_buffer env i sid cs b w)) = timeLeft w.
Proof.
  unfold play_buffer.
  pose proof (preload_begin_timer env (i + 1) sid w) as Hw.
  destruct (preload_begin env (i + 1) sid w) as [w1 started]. simpl in Hw.
  ops. repeat case_match; simpl; exact Hw.
Qed.

Lemma play_fetched_timer (env : Render.t) (i sid : Z) (cs : list jsstring)
      (w : World) :
  timeLeft (fst (play_fetched env i sid cs w)) = timeLeft w.
Proof.
  unfold play_fetched. repeat case_match; simpl; try reflexivity.
  now rewrite play_buffer_timer.
Qed.

Lemma play_from_cache_timer (env : Render.t) (i sid : Z)
      (cs : list jsstring) (w : World) :
  timeLeft (fst (play_from_cache env i sid cs w)) = timeLeft w.
Proof.
  unfold play_from_cache.
  destruct (audioCacheRef w !! i); [apply play_buffer_timer|].
  pose proof (preload_begin_timer env i sid
                (set_status GENERATING_AUDIO w)) as Hw.
  destruct (preload_begin env i sid (set_status GENERATING_AUDIO w))
    as [w1 started]. simpl in Hw.
  destruct started; simpl; [exact Hw|].
  now rewrite play_fetched_timer.
Qed.

Lemma playSequence_timer (env : Render.t) (i : Z) (cs : list jsstring)
      (w : World) :
  timeLeft (fst (playSequence env i cs w)) = timeLeft w.
Proof.
  unfold playSequence. ops.
  repeat case_match; simpl; try reflexivity;
    rewrite play_from_cache_timer; reflexivity.
Qed.

Ltac timer_kept :=
  match goal with
  | |- context [playSequence ?e ?i ?c ?v] =>
      rewrite (playSequence_timer e i c v)
  end.

Lemma start_fetched_timer (env : Render.t) (sid : Z) (cs : list jsstring)
      (w : World) :
  timeLeft (fst (start_fetched env sid cs w)) = timeLeft w.
Proof.
  unfold start_fetched. repeat case_match; simpl; try reflexivity.
  now timer_kept.
Qed.

Lemma preload_finish_timer (i sid : Z) (outcome : SynthOutcome) (w : World) :
  timeLeft (fst (preload_finish i sid outcome w)) = timeLeft w.
Proof.
  rewrite preload_finish_world. unfold preload_finally, preload_try. ops.
  repeat case_match; reflexivity.
Qed.

Lemma handlePause_timer (env : Render.t) (w : World) :
  timeLeft (handlePause env w) = timeLeft w.
Proof.
  unfold handlePause, suspend_context. ops.
  repeat case_match; reflexivity.
Qed.

Lemma resetAudioState_timer (env : Render.t) (w : World) :
  timeLeft (resetAudioState env w)
  = if Render.timerDuration env >? 0
    then Some (Render.timerDuration env * 60) else None.
Proof. unfold resetAudioState. repeat case_match; reflexivity. Qed.

Lemma handleStartProcess_timer (env : Render.t) (w : World) :
  timeLeft (fst (handleStartProcess env w))
  = match Render.extractedText env with
    | [] => timeLeft w
    | _ :: _ => if Render.timerDuration env >? 0
                then Some (Render.timerDuration env * 60) else None
    end.
Proof.
  unfold handleStartProcess.
  destruct (Render.extractedText env); [reflexivity|]. cbv zeta.
  set (w1 := set_chunks _ _).
  assert (Hs : timeLeft w1 = if Render.timerDuration env >? 0
                             then Some (Render.timerDuration env * 60)
                             else None).
  { subst w1. destruct (Render.timerDuration env >? 0); reflexivity. }
  clearbody w1.
  destruct (splitTextIntoChunks _ _) as [|seg segs]; [exact Hs|].
  destruct (Render.ttsEngine env).
  - pose proof (preload_begin_timer env 0
                  (sessionIdRef (set_status GENERATING_AUDIO w1))
                  (set_status GENERATING_AUDIO w1)) as Hp.
    destruct (preload_begin env 0 _ (set_status GENERATING_AUDIO w1))
      as [w2 started].
    simpl in Hp. destruct started; simpl.
    + now rewrite Hp.
    + now rewrite start_fetched_timer, Hp.
  - now timer_kept.
Qed.

(** What a turn does to the time left: nothing, the timer is switched off,
    it is set to a positive number of minutes, or one second is taken from
    a time that is more than a second and a shorter one becomes zero. *)
Lemma handle_timer (e : Event) (w : World) :
  timeLeft (fst (handle e w)) = timeLeft w \/
  timeLeft (fst (handle e w)) = None \/
  (exists d, 0 < d /\ timeLeft (fst (handle e w)) = Some (d * 60)) \/
  (exists prev, timeLeft w = Some prev /\
                timeLeft (fst (handle e w))
                = Some (if prev <=? 1 then 0 else prev - 1)).
Proof.
  destruct e; cbn [handle fst].
  - rewrite handleStartProcess_timer.
    destruct (Render.extractedText env); [now left|].
    destruct (Render.timerDuration env >? 0) eqn:E; [|now right; left].
    right; right; left. exists (Render.timerDuration env). split; [lia|easy].
  - unfold handleJumpToChunk, unlockAudioContext, suspend_context,
      timer_at_zero.
    ops.
    repeat case_match; simplify_eq; simpl; try (now left);
      timer_kept; simpl; try (now left).
    all: right; right; left; exists (Render.timerDuration env);
      split; [|reflexivity].
    all: match goal with
         | H : _ && (_ >? 0) = true |- _ =>
             apply andb_true_iff in H; destruct H as [_ H]; lia
         end.
  - left. apply handlePause_timer.
  - unfold handleResume, unlockAudioContext. ops.
    destruct (timer_expired env) eqn:Et; destruct confirmed; simpl;
      try (now left).
    + right; right; left. exists (Render.timerDuration env).
      unfold timer_expired in Et. apply andb_true_iff in Et.
      split; [lia|]. repeat case_match; timer_kept; reflexivity.
    + left. repeat case_match; timer_kept; reflexivity.
    + left. repeat case_match; timer_kept; reflexivity.
  - rewrite resetAudioState_timer.
    destruct (Render.timerDuration env >? 0) eqn:E; [|now right; left].
    right; right; left. exists (Render.timerDuration env). split; [lia|easy].
  - unfold on_timer_tick. destruct (timeLeft w) as [prev|] eqn:Ep;
      [|left; now rewrite Ep].
    right; right; right. exists prev. split; [reflexivity|].
    destruct (prev <=? 1); reflexivity.
  - left. unfold synth_settled.
    assert (Ha : forall v, timeLeft (fst (resume_awaiter a index sid v))
                           = timeLeft v).
    { intros v. destruct a; simpl; [reflexivity | apply start_fetched_timer |].
      apply play_fetched_timer. }
    now rewrite Ha, preload_finish_timer.
  - left. unfold play_resumed. rewrite play_from_cache_timer.
    repeat case_match; reflexivity.
  - left. unfold on_source_ended. ops.
    repeat case_match; simpl; try reflexivity; timer_kept; reflexivity.
  - left. unfold on_utterance_boundary. repeat case_match; reflexivity.
  - left. unfold on_utterance_end.
    repeat case_match; simpl; try reflexivity; timer_kept; reflexivity.
  - left. unfold on_utterance_error. repeat case_match; reflexivity.
  - left. unfold on_prefetch_timer.
    destruct (isPlayingRef w && (sessionIdRef w =? sid)); [|reflexivity].
    pose proof (preload_begin_timer env (index + 2) sid w) as Hp.
    destruct (preload_begin env (index + 2) sid w). exact Hp.
  - left. unfold animateProgress. ops.
    repeat case_match; simplify_eq; reflexivity.
  - left. unfold advance_clock. repeat case_match; reflexivity.
  - left. unfold context_started. repeat case_match; reflexivity.
Qed.

(** The time left on the timer is never negative: a time that is not
    negative, or a timer that is off as at the first render, stays so over
    every sequence of turns. *)
Theorem time_left_never_negative (es : list Event) (w : World) (t : Z) :
  (forall t0, timeLeft w = Some t0 -> 0 <= t0) ->
  timeLeft (run es w) = Some t -> 0 <= t.
Proof.
  revert w t. induction es as [|e es IH]; intros w t Hw; [apply Hw|].
  change (run (e :: es) w) with (run es (fst (handle e w))).
  apply IH. intros t0 Ht0.
  destruct (handle_timer e w)
    as [H | [H | [(d & Hd & H) | (prev & Hprev & H)]]];
    rewrite H in Ht0.
  - now apply Hw.
  - discriminate.
  - inversion Ht0. lia.
  - inversion Ht0. specialize (Hw prev Hprev).
    destruct (prev <=? 1) eqn:E; lia.
Qed.

(** ** The estimated highlight *)



(** ** Starting, resuming and jumping *)

Lemma playSequence_expired (env : Render.t) (i : Z) (cs : list jsstring)
      (w : World) :
  timer_expired env = true ->
  playSequence env i cs w
  = (set_status READY_TO_PLAY
       (set_isPlayingRef false (set_isPlaying false w)), []).
Proof. intros Ht. unfold playSequence. now rewrite Ht. Qed.

(** Once the timer has run out, the handlers of that render start nothing:
    [handleResume] does nothing when the user declines; when the user
    confirms it resets the time left, yet [playSequence] still reads the
    expired timer of the render and returns in the paused state; and a jump
    ends paused as well.  No synthesis call is made, no utterance is queued
    and nothing is left with the platform. *)
Theorem expired_timer_blocks_playback (env : Render.t) (i : Z) (w : World) :
  timer_expired env = true ->
  handleResume env false w = (w, []) /\
  (let r := handleResume env true w in
   snd r = [] /\
   timeLeft (fst r) = Some (Render.timerDuration env * 60) /\
   isPlayingRef (fst r) = false /\ isPlaying (fst r) = false /\
   status (fst r) = READY_TO_PLAY /\
   synthCalls (fst r) = synthCalls w /\
   speechQueue (fst r) = speechQueue w) /\
  (let j := handleJumpToChunk env i w in
   snd j = [] /\
   synthCalls (fst j) = synthCalls w /\
   (Render.status env <> PARSING_PDF ->
    isPlayingRef (fst j) = false /\ isPlaying (fst j) = false /\
    speechQueue (fst j) = [])).
Proof.
  intros Ht. split; [|split].
  - unfold handleResume. now rewrite Ht.
  - unfold handleResume. rewrite Ht. cbv zeta. cbn [negb andb].
    rewrite playSequence_expired by exact Ht.
    unfold unlockAudioContext. ops.
    repeat case_match; repeat split.
  - unfold handleJumpToChunk, unlockAudioContext, suspend_context. ops.
    repeat case_match; simplify_eq;
      rewrite ?playSequence_expired by exact Ht;
      repeat split; try reflexivity; try (intros; congruence).
Qed.

Lemma resetAudioState_fields (env : Render.t) (w : World) :
  speechQueue (resetAudioState env w) = [] /\
  errorMsg (resetAudioState env w) = errorMsg w /\
  audioContextRef (resetAudioState env w) = audioContextRef w.
Proof. unfold resetAudioState. ops. repeat case_match; repeat split. Qed.

Lemma unlockAudioContext_fields (w : World) :
  synthCalls (unlockAudioContext w) = synthCalls w /\
  sessionIdRef (unlockAudioContext w) = sessionIdRef w /\
  errorMsg (unlockAudioContext w) = errorMsg w.
Proof. unfold unlockAudioContext. ops. repeat case_match; repeat split. Qed.

(** A start with the synthesis service reads the segments of the render
    that holds the handler, not those it has just computed and stored.  In
    a render without segments, the first one for instance, it makes no
    synthesis call, schedules nothing and ends in [IDLE] with the message
    on the failed generation.  In a render with segments, its timer not at
    zero, the one call it makes is for the first segment of that render. *)
Theorem gemini_start_reads_render_chunks (env : Render.t) (w : World) :
  Render.ttsEngine env = gemini ->
  non_ws (Render.extractedText env) <> [] ->
  let r := handleStartProcess env w in
  let newChunks := splitTextIntoChunks (Render.extractedText env) 200 in
  newChunks <> [] /\
  match Render.chunks env with
  | [] =>
      chunks (fst r) = newChunks /\
      snd r = [] /\ synthCalls (fst r) = synthCalls w /\
      status (fst r) = IDLE /\ errorMsg (fst r) = Some GenerationFailed
  | old :: _ =>
      timer_at_zero env = false ->
      chunks (fst r) = newChunks /\
      snd r = [SynthPending env 0 (sessionIdRef w + 1)
                            (InStartProcess env newChunks)] /\
      synthCalls (fst r)
      = synthCalls w ++ [{| call_index := 0; call_text := old;
                            call_voice := Render.selectedVoice env |}] /\
      status (fst r) = GENERATING_AUDIO
  end.
Proof.
  intros Hg Hne. cbv zeta.
  pose proof (segments_exist (Render.extractedText env) 200 Hne) as Hsome.
  split; [exact Hsome|].
  unfold handleStartProcess.
  destruct (Render.extractedText env) as [|c0 text0] eqn:Et;
    [now contradiction Hne|].
  rewrite <- Et in *. rewrite Hg. cbn [chunkSize].
  destruct (splitTextIntoChunks (Render.extractedText env) 200)
    as [|seg segs] eqn:Es; [contradiction|].
  cbv zeta.
  set (w1 := set_status GENERATING_AUDIO _).
  destruct (resetAudioState_cache env (unlockAudioContext w)) as (Hc0 & Hf0).
  destruct (resetAudioState_keeps env (unlockAudioContext w)) as (Hs0 & _).
  destruct (unlockAudioContext_fields w) as (Hu1 & Hu2 & Hu3).
  pose proof (resetAudioState_sid env (unlockAudioContext w)) as Hsid0.
  assert (Hcache : audioCacheRef w1 = ∅).
  { subst w1. destruct (Render.timerDuration env >? 0); exact Hc0. }
  assert (Hfetch : fetchingSetRef w1 = ∅).
  { subst w1. destruct (Render.timerDuration env >? 0); exact Hf0. }
  assert (Hcalls : synthCalls w1 = synthCalls w).
  { subst w1. destruct (Render.timerDuration env >? 0);
      cbn [synthCalls set_status set_chunks set_timeLeft]; congruence. }
  assert (Hsid : sessionIdRef w1 = sessionIdRef w + 1).
  { subst w1. destruct (Render.timerDuration env >? 0);
      cbn [sessionIdRef set_status set_chunks set_timeLeft]; lia. }
  assert (Hchunks : chunks w1 = seg :: segs).
  { subst w1. destruct (Render.timerDuration env >? 0); reflexivity. }
  assert (Hstatus : status w1 = GENERATING_AUDIO).
  { subst w1. destruct (Render.timerDuration env >? 0); reflexivity. }
  clearbody w1.
  destruct (Render.chunks env) as [|old rest] eqn:Ec.
  - assert (Hb : preload_begin env 0 (sessionIdRef w1) w1 = (w1, false)).
    { unfold preload_begin. rewrite Ec.
      destruct (timer_at_zero env); reflexivity. }
    rewrite Hb. unfold start_fetched. rewrite Z.eqb_refl. cbn [negb].
    rewrite Hcache, lookup_empty.
    rewrite bool_decide_eq_false_2 by (intros [x Hx]; discriminate).
    cbn. repeat split; assumption.
  - intros Hz.
    destruct (preload_begin_started env 0 (sessionIdRef w1) w1)
      as (text & Htext & Hb).
    + rewrite Ec. cbn [length]. lia.
    + exact Hz.
    + now rewrite Hcache, lookup_empty.
    + rewrite Hfetch. apply not_elem_of_empty.
    + rewrite Ec in Htext. cbn in Htext. inversion Htext; subst text.
      rewrite Hb. cbn. rewrite Hsid, Hcalls. repeat split; assumption.
Qed.

(** A start with the voice of the platform, in a render whose timer has
    not run out, queues the first segment it has just computed, and that
    one only, goes to [PLAYING] on segment 0 and makes no synthesis call. *)
Theorem browser_start_speaks_first_segment (env : Render.t) (w : World) :
  Render.ttsEngine env = browser ->
  non_ws (Render.extractedText env) <> [] ->
  timer_expired env = false ->
  let r := handleStartProcess env w in
  exists first rest,
    splitTextIntoChunks (Render.extractedText env) 2500 = first :: rest /\
    chunks (fst r) = first :: rest /\
    speechQueue (fst r) = [first] /\
    snd r = [UtterancePlaying env 0 (sessionIdRef w + 1) (first :: rest)] /\
    status (fst r) = PLAYING /\ isPlayingRef (fst r) = true /\
    currentChunkIndex (fst r) = 0 /\ chunkProgressIndex (fst r) = 0 /\
    synthCalls (fst r) = synthCalls w.
Proof.
  intros Hb Hne Ht. cbv zeta.
  pose proof (segments_exist (Render.extractedText env) 2500 Hne) as Hsome.
  unfold handleStartProcess.
  destruct (Render.extractedText env) as [|c0 text0] eqn:Et;
    [now contradiction Hne|].
  rewrite <- Et in *. rewrite Hb. cbn [chunkSize].
  destruct (splitTextIntoChunks (Render.extractedText env) 2500)
    as [|seg segs] eqn:Es; [contradiction|].
  exists seg, segs. split; [reflexivity|]. cbv zeta.
  destruct (resetAudioState_fields env w) as (Hq0 & _).
  destruct (resetAudioState_keeps env w) as (Hs0 & _).
  pose proof (resetAudioState_sid env w) as Hsid0.
  unfold playSequence. rewrite Ht, Hb.
  assert (Hge : (0 >=? Z.of_nat (length (seg :: segs))) = false).
  { rewrite Z.geb_leb. apply Z.leb_gt. cbn [length]. lia. }
  rewrite Hge. cbv zeta.
  destruct (Render.timerDuration env >? 0);
    cbn [fst snd chunk_at Z.ltb Z.compare Z.to_nat nth_error
         chunks speechQueue status isPlayingRef currentChunkIndex
         chunkProgressIndex synthCalls sessionIdRef
         set_status set_chunks set_timeLeft set_speechQueue
         set_chunkProgressIndex set_isPlayingRef set_isPlaying
         set_currentChunkIndex];
    rewrite Hq0, Hs0, Hsid0; repeat split.
Qed.

(** ** The synthesis calls of a turn *)

Lemma preload_begin_cases (env : Render.t) (i sid : Z) (w : World) :
  preload_begin env i sid w = (w, false) \/
  exists text,
    chunk_at (Render.chunks env) i = Some text /\
    audioCacheRef w !! i = None /\
    preload_begin env i sid w
    = (set_synthCalls
         (synthCalls w ++ [{| call_index := i; call_text := text;
                              call_voice := Render.selectedVoice env |}])
         (set_fetchingSetRef ({[i]} ∪ fetchingSetRef w) w), true).
Proof.
  unfold preload_begin.
  destruct (timer_at_zero env); [now left|].
  destruct ((i >=? Z.of_nat (length (Render.chunks env))) || (i <? 0))
    eqn:Er; [now left|].
  destruct (bool_decide (is_Some (audioCacheRef w !! i))) eqn:Ec; [now left|].
  destruct (bool_decide (i ∈ fetchingSetRef w)); [now left|].
  right. apply orb_false_iff in Er. destruct Er as [Hge Hlt].
  destruct (chunk_at_in_range (Render.chunks env) i) as (text & Ht); [lia|].
  exists text. rewrite Ht. split; [reflexivity|]. split; [|reflexivity].
  apply bool_decide_eq_false in Ec.
  destruct (audioCacheRef w !! i) eqn:El; [|reflexivity].
  exfalso. apply Ec. eauto.
Qed.

Lemma calls_step_from (w w0 : World) (r : World * list Task) :
  synthCalls w = synthCalls w0 -> calls_step w r -> calls_step w0 r.
Proof. unfold calls_step. intros ->. auto. Qed.

Lemma play_buffer_calls (env : Render.t) (i sid : Z) (cs : list jsstring)
      (b : AudioBuffer) (w : World) :
  calls_step w (play_buffer env i sid cs b w).
Proof.
  unfold play_buffer, calls_step.
  destruct (preload_begin_cases env (i + 1) sid w)
    as [H | (text & Ht & Hc & H)]; rewrite H.
  - left. ops. repeat case_match; reflexivity.
  - right. exists env, (i + 1), sid, Detached, text. ops.
    repeat case_match; simplify_eq; cbn; repeat split; auto;
      apply elem_of_union_l, elem_of_singleton; reflexivity.
Qed.

Lemma play_fetched_calls (env : Render.t) (i sid : Z) (cs : list jsstring)
      (w : World) :
  calls_step w (play_fetched env i sid cs w).
Proof.
  unfold play_fetched.
  destruct (negb (sessionIdRef w =? sid)); [now left|].
  destruct (audioCacheRef w !! i).
  - eapply calls_step_from; [|apply play_buffer_calls]. reflexivity.
  - left. repeat case_match; reflexivity.
Qed.

Lemma play_from_cache_calls (env : Render.t) (i sid : Z)
      (cs : list jsstring) (w : World) :
  calls_step w (play_from_cache env i sid cs w).
Proof.
  unfold play_from_cache.
  destruct (audioCacheRef w !! i); [apply play_buffer_calls|].
  destruct (preload_begin_cases env i sid (set_status GENERATING_AUDIO w))
    as [H | (text & Ht & Hc & H)]; rewrite H.
  - eapply calls_step_from; [|apply play_fetched_calls]. reflexivity.
  - right.
    exists env, i, sid, (InPlaySequence env cs), text.
    cbn. repeat split; auto.
    apply elem_of_union_l, elem_of_singleton; reflexivity.
Qed.

Lemma playSequence_calls (env : Render.t) (i : Z) (cs : list jsstring)
      (w : World) :
  calls_step w (playSequence env i cs w).
Proof.
  unfold playSequence. ops.
  repeat case_match; try (left; reflexivity);
    (eapply calls_step_from; [|apply play_from_cache_calls]); reflexivity.
Qed.

Lemma start_fetched_calls (env : Render.t) (sid : Z) (cs : list jsstring)
      (w : World) :
  calls_step w (start_fetched env sid cs w).
Proof.
  unfold start_fetched. repeat case_match; try (left; reflexivity).
  eapply calls_step_from; [|apply playSequence_calls]. reflexivity.
Qed.

Lemma handleStartProcess_calls (env : Render.t) (w : World) :
  calls_step w (handleStartProcess env w).
Proof.
  unfold handleStartProcess.
  destruct (Render.extractedText env); [now left|]. cbv zeta.
  set (w1 := set_chunks _ _).
  assert (Hs : synthCalls w1 = synthCalls w).
  { subst w1.
    destruct (resetAudioState_keeps env
                match Render.ttsEngine env with
                | gemini => unlockAudioContext w
                | browser => w
                end) as (Hk & _).
    destruct (unlockAudioContext_fields w) as (Hu & _).
    destruct (Render.timerDuration env >? 0);
      cbn [synthCalls set_chunks set_timeLeft]; rewrite Hk;
      destruct (Render.ttsEngine env); congruence. }
  clearbody w1.
  destruct (splitTextIntoChunks _ _) as [|seg segs]; [now left|].
  apply (calls_step_from w1); [exact Hs|].
  destruct (Render.ttsEngine env).
  - destruct (preload_begin_cases env 0
                (sessionIdRef (set_status GENERATING_AUDIO w1))
                (set_status GENERATING_AUDIO w1))
      as [H | (text & Ht & Hc & H)]; rewrite H.
    + eapply calls_step_from; [|apply start_fetched_calls]. reflexivity.
    + right.
      exists env, 0, (sessionIdRef (set_status GENERATING_AUDIO w1)),
        (InStartProcess env (seg :: segs)), text.
      cbn. repeat split; auto.
      apply elem_of_union_l, elem_of_singleton; reflexivity.
  - eapply calls_step_from; [|apply playSequence_calls]. reflexivity.
Qed.

(** A turn of the event loop makes at most one synthesis call.  The call is
    for a segment of the render whose closure makes it, with the voice of
    that render; when the turn ends the segment is marked as in flight, has
    no clip in the cache, and a task that awaits the call has been left
    with the platform. *)
Theorem one_call_per_turn (e : Event) (w : World) :
  calls_step w (handle e w).
Proof.
  destruct e; cbn [handle].
  - apply handleStartProcess_calls.
  - unfold handleJumpToChunk, unlockAudioContext, suspend_context. ops.
    repeat case_match; simplify_eq; try (left; reflexivity);
      (eapply calls_step_from; [|apply playSequence_calls]); reflexivity.
  - left. cbn [fst]. unfold handlePause, suspend_context. ops.
    repeat case_match; reflexivity.
  - unfold handleResume, unlockAudioContext. ops.
    repeat case_match; try (left; reflexivity);
      (eapply calls_step_from; [|apply playSequence_calls]); reflexivity.
  - left. apply resetAudioState_keeps.
  - left. cbn [fst]. unfold on_timer_tick, handlePause, suspend_context. ops.
    repeat case_match; reflexivity.
  - unfold synth_settled.
    apply (calls_step_from (fst (preload_finish index sid outcome w))).
    { rewrite preload_finish_world.
      unfold preload_finally, preload_try. ops.
      repeat case_match; reflexivity. }
    destruct a; cbn [resume_awaiter];
      [now left | apply start_fetched_calls | apply play_fetched_calls].
  - unfold play_resumed.
    eapply calls_step_from; [|apply play_from_cache_calls].
    repeat case_match; reflexivity.
  - unfold on_source_ended. ops.
    repeat case_match; try (left; reflexivity);
      (eapply calls_step_from; [|apply playSequence_calls]); reflexivity.
  - left. cbn [fst]. unfold on_utterance_boundary.
    repeat case_match; reflexivity.
  - unfold on_utterance_end.
    repeat case_match; try (left; reflexivity);
      (eapply calls_step_from; [|apply playSequence_calls]); reflexivity.
  - left. cbn [fst]. unfold on_utterance_error.
    repeat case_match; reflexivity.
  - unfold on_prefetch_timer.
    destruct (isPlayingRef w && (sessionIdRef w =? sid)); [|now left].
    destruct (preload_begin_cases env (index + 2) sid w)
      as [H | (text & Ht & Hc & H)]; rewrite H; [now left|].
    right. exists env, (index + 2), sid, Detached, text.
    cbn. repeat split; auto.
    apply elem_of_union_l, elem_of_singleton; reflexivity.
  - left. unfold animateProgress. ops.
    repeat case_match; simplify_eq; reflexivity.
  - left. cbn [fst]. unfold advance_clock. repeat case_match; reflexivity.
  - left. cbn [fst]. unfold context_started. repeat case_match; reflexivity.
Qed.

(** ** A jump *)

Lemma timer_not_expired (env : Render.t) :
  timer_expired env = false -> timer_at_zero env = false.
Proof.
  unfold timer_expired, timer_at_zero.
  destruct (Render.timerDuration env >? 0), (Render.timeLeft env) as [t|];
    cbn; rewrite ?andb_true_r, ?andb_false_r; try reflexivity.
  intros H. apply Z.leb_gt in H. apply Z.eqb_neq. lia.
Qed.

Lemma chunk_at_nil (i : Z) : chunk_at [] i = None.
Proof.
  unfold chunk_at. destruct (i <? 0); [reflexivity|].
  now destruct (Z.to_nat i).
Qed.

Lemma playSequence_paused (env : Render.t) (i : Z) (cs : list jsstring)
      (w : World) :
  (i >=? Z.of_nat (length cs)) = false ->
  pausedTimeRef (fst (playSequence env i cs w)) = pausedTimeRef w.
Proof.
  intros Hlt. unfold playSequence. rewrite Hlt. ops.
  repeat case_match; simpl; try reflexivity.
  all: match goal with
       | |- context [play_from_cache ?e ?j ?s ?c ?v] =>
           destruct (play_from_cache_untouched e j s c v) as (_ & _ & A & _);
           rewrite A; reflexivity
       end.
Qed.

Lemma jump_reaches_playSequence (env : Render.t) (i : Z) (w : World) :
  Render.status env <> PARSING_PDF ->
  Render.chunks env <> [] ->
  timer_at_zero env = false ->
  exists v,
    handleJumpToChunk env i w = playSequence env i (Render.chunks env) v /\
    sessionIdRef v = sessionIdRef w + 1 /\
    pausedTimeRef v = 0%Q /\
    speechQueue v = [] /\
    synthCalls v = synthCalls w.
Proof.
  intros Hs Hc Hz. unfold handleJumpToChunk. rewrite Hz.
  destruct (Render.chunks env) as [|c cs] eqn:Ec; [contradiction|].
  eexists. split.
  - destruct (Render.status env); try contradiction; reflexivity.
  - unfold unlockAudioContext, suspend_context. ops.
    repeat case_match; repeat split.
Qed.

(** A jump to a segment of the render, outside the parsing of a document
    and with the timer not run out, opens a new generation and puts the
    cursor on that segment with the paused offset at zero: the segment is
    played from its beginning.  With the voice of the platform what was
    queued is cancelled and exactly that segment is queued. *)
Theorem jump_goes_to_segment (env : Render.t) (i : Z) (text : jsstring)
        (w : World) :
  Render.status env <> PARSING_PDF ->
  timer_expired env = false ->
  chunk_at (Render.chunks env) i = Some text ->
  let j := handleJumpToChunk env i w in
  sessionIdRef (fst j) = sessionIdRef w + 1 /\
  currentChunkIndex (fst j) = i /\
  pausedTimeRef (fst j) = 0%Q /\
  (Render.ttsEngine env = browser ->
   speechQueue (fst j) = [text] /\
   snd j = [UtterancePlaying env i (sessionIdRef w + 1) (Render.chunks env)] /\
   status (fst j) = PLAYING /\ isPlayingRef (fst j) = true /\
   synthCalls (fst j) = synthCalls w).
Proof.
  intros Hs Ht Htext. cbv zeta.
  assert (Hc : Render.chunks env <> []).
  { intros Hnil. rewrite Hnil, chunk_at_nil in Htext. discriminate. }
  destruct (jump_reaches_playSequence env i w Hs Hc
              (timer_not_expired env Ht))
    as (v & -> & Hsid & Hp & Hq & Hcalls).
  pose proof (chunk_at_lt _ _ _ Htext) as Hlt.
  split; [now rewrite playSequence_sid|].
  split.
  { pose proof (playSequence_cursor env i (Render.chunks env) v Ht) as H.
    cbv zeta in H. now rewrite Hlt in H. }
  split; [now rewrite playSequence_paused|].
  intros Hb. unfold playSequence. rewrite Ht, Hlt, Hb, Htext.
  cbn. rewrite Hq, Hsid, Hcalls. repeat split.
Qed.

(** ** The end of a fetch *)

Lemma play_buffer_status (env : Render.t) (i sid : Z) (cs : list jsstring)
      (b : AudioBuffer) (w : World) :
  status (fst (play_buffer env i sid cs b w)) = status w /\
  isPlayingRef (fst (play_buffer env i sid cs b w)) = isPlayingRef w.
Proof.
  unfold play_buffer.
  destruct (preload_begin_context env (i + 1) sid w) as (_ & Hp & Hs & _).
  destruct (preload_begin env (i + 1) sid w) as [w1 started].
  cbn [fst] in Hp, Hs. ops.
  repeat case_match; simplify_eq; cbn; now split.
Qed.

(** When a fetch of the current generation fails, its call rejected or its
    payload not decodable, nothing is stored, the index leaves the fetching
    set and nothing is scheduled; what the user sees depends on who awaited
    it: a start, which awaits segment 0, goes back to [IDLE] with the
    message on the failed generation, playback stops in [ERROR] with the
    message on the buffering, and a look-ahead fails silently. *)
Theorem failed_fetch_reports_error (k sid : Z) (a : Awaiter)
        (outcome : SynthOutcome) (w : World) :
  sid = sessionIdRef w ->
  audioCacheRef w !! k = None ->
  (forall s bytes, outcome = Resolved s -> decodeBase64 s = Some bytes ->
                   decodeAudioData bytes 24000 = None) ->
  (forall env cs, a = InStartProcess env cs -> k = 0) ->
  let r := synth_settled k sid a outcome w in
  snd r = [] /\ (k ∉ fetchingSetRef (fst r)) /\
  audioCacheRef (fst r) = audioCacheRef w /\
  synthCalls (fst r) = synthCalls w /\
  match a with
  | Detached => status (fst r) = status w /\ errorMsg (fst r) = errorMsg w
  | InStartProcess _ _ =>
      status (fst r) = IDLE /\ errorMsg (fst r) = Some GenerationFailed
  | InPlaySequence _ _ =>
      status (fst r) = ERROR /\ errorMsg (fst r) = Some BufferingTimedOut /\
      isPlayingRef (fst r) = false /\ isPlaying (fst r) = false
  end.
Proof.
  intros Hsid Hnone Hfail Hzero. cbv zeta. unfold synth_settled.
  rewrite preload_finish_world. unfold preload_finally.
  set (w1 := fst (preload_try k sid outcome w)).
  assert (Hw1 : audioCacheRef w1 = audioCacheRef w /\
                sessionIdRef w1 = sessionIdRef w /\
                synthCalls w1 = synthCalls w /\
                status w1 = status w /\ errorMsg w1 = errorMsg w).
  { subst w1. unfold preload_try.
    destruct outcome as [|s]; [repeat split|].
    destruct (negb (sid =? sessionIdRef w)); [repeat split|].
    destruct (decodeBase64 s) as [bytes|] eqn:Eb;
      [|ops; repeat case_match; repeat split].
    rewrite (Hfail s bytes eq_refl Eb). ops.
    repeat case_match; repeat split. }
  destruct Hw1 as (Hc1 & Hs1 & Hcalls1 & Hst1 & He1). clearbody w1.
  assert (Hout : k ∉ fetchingSetRef w1 ∖ {[k]}).
  { intros Hin. apply elem_of_difference in Hin. destruct Hin as [_ Hin].
    apply Hin. now apply elem_of_singleton. }
  destruct a as [|env cs|env cs]; cbn [resume_awaiter].
  - cbn. repeat split; assumption.
  - unfold start_fetched.
    cbn [sessionIdRef audioCacheRef set_fetchingSetRef].
    rewrite Hs1, Hsid, Z.eqb_refl, Hc1. cbn [negb].
    rewrite <- (Hzero env cs eq_refl), Hnone.
    rewrite bool_decide_eq_false_2 by (intros [x Hx]; discriminate).
    cbn. repeat split; assumption.
  - unfold play_fetched.
    cbn [sessionIdRef audioCacheRef set_fetchingSetRef].
    rewrite Hs1, Hsid, Z.eqb_refl, Hc1, Hnone. cbn [negb].
    cbn. repeat split; assumption.
Qed.

(** When a fetch of the current generation succeeds, the decoded clip is
    in the cache under its index, whoever awaited the fetch, and a playback
    that awaited it goes on in [PLAYING] with its play intent as it was. *)
Theorem settled_fetch_fills_cache (k sid : Z) (a : Awaiter) (s : jsstring)
        (bytes : list Z) (b : AudioBuffer) (w : World) :
  sid = sessionIdRef w ->
  decodeBase64 s = Some bytes ->
  decodeAudioData bytes 24000 = Some b ->
  let r := synth_settled k sid a (Resolved s) w in
  audioCacheRef (fst r) = <[k := b]> (audioCacheRef w) /\
  audioCacheRef (fst r) !! k = Some b /\
  match a with
  | InPlaySequence _ _ =>
      status (fst r) = PLAYING /\ isPlayingRef (fst r) = isPlayingRef w
  | _ => True
  end.
Proof.
  intros Hsid Hb Hd. cbv zeta. unfold synth_settled.
  rewrite preload_finish_world. unfold preload_finally, preload_try.
  rewrite Hsid, Z.eqb_refl, Hb, Hd. cbn [negb fst].
  set (w1 := set_fetchingSetRef _ _).
  assert (Hw1 : audioCacheRef w1 = <[k := b]> (audioCacheRef w) /\
                sessionIdRef w1 = sessionIdRef w /\
                isPlayingRef w1 = isPlayingRef w).
  { subst w1. ops. repeat case_match; cbn; repeat split. }
  destruct Hw1 as (Hc1 & Hs1 & Hp1). clearbody w1.
  assert (Ha : audioCacheRef (fst (resume_awaiter a k (sessionIdRef w) w1))
               = audioCacheRef w1).
  { destruct a; cbn [resume_awaiter];
      [reflexivity | apply start_fetched_cache | apply play_fetched_untouched]. }
  rewrite Ha, Hc1. split; [reflexivity|].
  split; [apply lookup_insert_eq|].
  destruct a as [|env cs|env cs]; cbn [resume_awaiter]; try exact I.
  unfold play_fetched. rewrite Hs1, Z.eqb_refl, Hc1, lookup_insert_eq.
  cbn [negb].
  destruct (play_buffer_status env k (sessionIdRef w) cs b
              (set_status PLAYING w1)) as (Hst & Hpl).
  rewrite Hst, Hpl. now split.
Qed.

(** ** The mark of a fetch in flight *)











(** The [finally] of [preloadGeminiChunk] deletes the index from the fetching
    set whatever the generation of the call that settles.  When a call of
    another generation settles for [k] while a fetch of [k] is in flight
    and the cache holds no clip for [k], the mark of that fetch is gone:
    the next invocation for [k] starts a fetch and makes one more synthesis
    call for [k], although the one in flight has not settled. *)
Theorem stale_settle_reopens_fetch (env : Render.t) (k sid sid' : Z)
        (a : Awaiter) (outcome : SynthOutcome) (w : World) :
  sid <> sessionIdRef w ->
  k ∈ fetchingSetRef w ->
  audioCacheRef w !! k = None ->
  0 <= k < Z.of_nat (length (Render.chunks env)) ->
  timer_at_zero env = false ->
  let w1 := fst (synth_settled k sid a outcome w) in
  (k ∉ fetchingSetRef w1) /\
  snd (preload_begin env k sid' w1) = true /\
  synth_count k (fst (preload_begin env k sid' w1)) = S (synth_count k w).
Proof.
  intros Hsid Hin Hc Hk Hz. cbv zeta.
  rewrite settle_in_other_generation by exact Hsid. cbn [fst].
  assert (Hout : k ∉ fetchingSetRef (preload_finally k w)).
  { unfold preload_finally. cbn. intros H. apply elem_of_difference in H.
    destruct H as [_ H]. apply H. now apply elem_of_singleton. }
  split; [exact Hout|].
  destruct (preload_begin_started env k sid' (preload_finally k w) Hk Hz)
    as (text & _ & E); [exact Hc | exact Hout |].
  rewrite E. cbn [fst snd]. split; [reflexivity|].
  rewrite (synth_count_app k
             (set_fetchingSetRef _ (preload_finally k w))).
  cbn [call_index]. rewrite Z.eqb_refl. unfold synth_count. cbn. lia.
Qed.

(** ** The offset of a pause, in the session and in doubles *)






End Playback.

(** ** The properties of the session at concrete inputs *)


(** A fetch of segment 0 starts in generation 0, the audio state is reset,
    a fetch of segment 0 starts in generation 1, the call of generation 0
    settles: the next invocation for segment 0 makes a third call. *)
Lemma stale_settle_reopens_fetch_witness :
  synth_count 0
    (fst (preload_begin demo_render 0 1
            (fst (@synth_settled test_platform 0 0 Detached
                    (Resolved (lit "abcd"))
                    (fst (preload_begin demo_render 0 1
                            (@resetAudioState demo_render
                               (fst (preload_begin demo_render 0 0
                                       initial_world)))))))))
  = 3%nat.
Proof.
  apply (@stale_settle_reopens_fetch test_platform demo_render 0 0 1
           Detached (Resolved (lit "abcd"))
           (fst (preload_begin demo_render 0 1
                   (@resetAudioState demo_render
                      (fst (preload_begin demo_render 0 0
                              initial_world)))))).
  - discriminate.
  - apply (bool_decide_unpack _). vm_compute. exact I.
  - reflexivity.
  - simpl. lia.
  - reflexivity.
Defined.



(** The fetch of segment 0 starts, a second passes, the user jumps to
    segment 1, the call resolves. *)
Lemma superseded_fetch_discarded_witness :
  synthCalls
    (fst (@synth_settled test_platform 0 0
            (InPlaySequence demo_render demo_chunks) (Resolved (lit "abcd"))
            (@run test_platform []
               (fst (@handle test_platform (Jump demo_render 1)
                       (@run test_platform [ClockAdvance 1]
                          (fst (preload_begin demo_render 0 0
                                  initial_world))))))))
  = synthCalls
      (@run test_platform []
         (fst (@handle test_platform (Jump demo_render 1)
                 (@run test_platform [ClockAdvance 1]
                    (fst (preload_begin demo_render 0 0 initial_world)))))).
Proof.
  apply (@superseded_fetch_discarded test_platform demo_render 0 0
           initial_world (fst (preload_begin demo_render 0 0 initial_world))
           (InPlaySequence demo_render demo_chunks) [ClockAdvance 1] []
           (Jump demo_render 1) (Resolved (lit "abcd"))).
  - simpl. lia.
  - reflexivity.
  - reflexivity.
Defined.

(** A look-ahead for segment 0 resolves at the first render. *)
Lemma cached_clips_well_formed_witness :
  well_formed_clip
    {| sampleRate := 24000;
       channelData := [(25185 # 32768)%Q; (25699 # 32768)%Q] |} /\
  (0 < duration
         {| sampleRate := 24000;
            channelData := [(25185 # 32768)%Q; (25699 # 32768)%Q] |})%Q.
Proof.
  apply (@cached_clips_well_formed test_platform
           [SynthSettled 0 0 Detached (Resolved (lit "abcd"))]
           initial_world (map_Forall_empty _) 0).
  reflexivity.
Defined.

(** A start with a timer of thirty minutes, then a tick of the timer. *)
Lemma time_left_never_negative_witness :
  timeLeft
    (@run test_platform
       [Start (initial_render (lit "Hi.") browser);
        TimerTick (initial_render (lit "Hi.") browser)] initial_world)
  = Some 1799 /\ 0 <= 1799.
Proof.
  split; [reflexivity|].
  apply (@time_left_never_negative test_platform
           [Start (initial_render (lit "Hi.") browser);
            TimerTick (initial_render (lit "Hi.") browser)]
           initial_world 1799).
  - intros t0 H. discriminate.
  - reflexivity.
Defined.


(** The timer of the render has run out and the user declines. *)
Lemma expired_timer_blocks_playback_witness :
  @handleResume test_platform (chunked_render demo_chunks browser (Some 0))
    false speaking_world
  = (speaking_world, []).
Proof.
  exact (proj1 (@expired_timer_blocks_playback test_platform
                  (chunked_render demo_chunks browser (Some 0)) 1
                  speaking_world eq_refl)).
Defined.

(** The first start with the synthesis service. *)
Lemma gemini_start_reads_render_chunks_witness :
  status (fst (@handleStartProcess test_platform
                 (initial_render (lit "Hi. Yo.") gemini) initial_world))
  = IDLE.
Proof.
  pose proof (@gemini_start_reads_render_chunks test_platform
                (initial_render (lit "Hi. Yo.") gemini) initial_world
                eq_refl ltac:(discriminate)) as H.
  vm_compute in H. destruct H as (_ & _ & _ & _ & H & _).
  vm_compute. exact H.
Defined.

(** The first start with the voice of the platform. *)
Lemma browser_start_speaks_first_segment_witness :
  let r := @handleStartProcess test_platform
             (initial_render (lit "Hi. Yo.") browser) initial_world in
  exists first rest,
    splitTextIntoChunks (lit "Hi. Yo.") 2500 = first :: rest /\
    chunks (fst r) = first :: rest /\
    speechQueue (fst r) = [first] /\
    snd r = [UtterancePlaying (initial_render (lit "Hi. Yo.") browser) 0
                              (sessionIdRef initial_world + 1)
                              (first :: rest)] /\
    status (fst r) = PLAYING /\ isPlayingRef (fst r) = true /\
    currentChunkIndex (fst r) = 0 /\ chunkProgressIndex (fst r) = 0 /\
    synthCalls (fst r) = synthCalls initial_world.
Proof.
  apply (@browser_start_speaks_first_segment test_platform
           (initial_render (lit "Hi. Yo.") browser) initial_world).
  - reflexivity.
  - discriminate.
  - reflexivity.
Defined.

(** A jump to the second segment while the first is spoken. *)
Lemma jump_goes_to_segment_witness :
  let j := @handleJumpToChunk test_platform
             (chunked_render demo_chunks browser None) 1 speaking_world in
  sessionIdRef (fst j) = sessionIdRef speaking_world + 1 /\
  currentChunkIndex (fst j) = 1 /\
  pausedTimeRef (fst j) = 0%Q /\
  (Render.ttsEngine (chunked_render demo_chunks browser None) = browser ->
   speechQueue (fst j) = [lit "Yo."] /\
   snd j = [UtterancePlaying (chunked_render demo_chunks browser None) 1
                             (sessionIdRef speaking_world + 1)
                             (Render.chunks
                                (chunked_render demo_chunks browser None))] /\
   status (fst j) = PLAYING /\ isPlayingRef (fst j) = true /\
   synthCalls (fst j) = synthCalls speaking_world).
Proof.
  apply (@jump_goes_to_segment test_platform
           (chunked_render demo_chunks browser None) 1 (lit "Yo.")
           speaking_world).
  - discriminate.
  - reflexivity.
  - reflexivity.
Defined.

(** The call for the segment that playback waits for is rejected. *)
Lemma failed_fetch_reports_error_witness :
  status (fst (@synth_settled test_platform 0 0
                 (InPlaySequence demo_render demo_chunks) Rejected
                 initial_world))
  = ERROR.
Proof.
  pose proof (@failed_fetch_reports_error test_platform 0 0
                (InPlaySequence demo_render demo_chunks) Rejected
                initial_world eq_refl eq_refl
                ltac:(intros; discriminate) ltac:(intros; discriminate))
    as H.
  cbv zeta in H. destruct H as (_ & _ & _ & _ & H & _). exact H.
Defined.

(** The call of a look-ahead for segment 0 resolves. *)
Lemma settled_fetch_fills_cache_witness :
  audioCacheRef
    (fst (@synth_settled test_platform 0 0 Detached (Resolved (lit "abcd"))
            initial_world))
  !! 0
  = Some {| sampleRate := 24000;
            channelData := [(25185 # 32768)%Q; (25699 # 32768)%Q] |}.
Proof.
  apply (@settled_fetch_fills_cache test_platform 0 0 Detached (lit "abcd")
           [97; 98; 99; 100]
           {| sampleRate := 24000;
              channelData := [(25185 # 32768)%Q; (25699 # 32768)%Q] |}
           initial_world); reflexivity.
Defined.

(** * Properties of the recognition of text and of the controls *)

(** ** [performOCR] *)

Lemma gemini_ocr_attempts_run (api : nat -> OcrOutcome) (remaining : nat) :
  forall (attempt : nat) (delays : list Z),
    (attempt + remaining = GeminiService.retries)%nat -> (0 < remaining)%nat ->
    let r := GeminiService.ocr_attempts api remaining attempt delays in
    exists k,
      (attempt <= k < GeminiService.retries)%nat /\
      ocr_calls r = S k /\
      (forall j, (attempt <= j < k)%nat -> exists t, api j = OcrThrows t) /\
      ocr_delays r
      = delays ++ map (fun j => 2000 * 2 ^ Z.of_nat j)
                      (List.filter
                         (fun j => match api j with
                                   | OcrThrows true => true
                                   | _ => false
                                   end)
                         (seq attempt (k - attempt))) /\
      match api k with
      | OcrAnswers text => ocr_text r = text_or_empty text
      | OcrThrows _ => S k = GeminiService.retries /\ ocr_text r = []
      end.
Proof.
  unfold GeminiService.retries.
  induction remaining as [|rest IH]; intros attempt delays Hsum Hpos; [lia|].
  cbn [GeminiService.ocr_attempts]. unfold GeminiService.retries.
  destruct (api attempt) as [throttled | text] eqn:Ea.
  - assert (Hnext : forall ds,
              (attempt <> 4)%nat ->
              ds = delays ++ (if throttled
                              then [2000 * 2 ^ Z.of_nat attempt] else []) ->
              exists k,
                (attempt <= k < 5)%nat /\
                ocr_calls (GeminiService.ocr_attempts api rest (S attempt) ds)
                = S k /\
                (forall j, (attempt <= j < k)%nat ->
                           exists t, api j = OcrThrows t) /\
                ocr_delays (GeminiService.ocr_attempts api rest (S attempt) ds)
                = delays ++ map (fun j => 2000 * 2 ^ Z.of_nat j)
                                (List.filter
                                   (fun j => match api j with
                                             | OcrThrows true => true
                                             | _ => false
                                             end)
                                   (seq attempt (k - attempt))) /\
                match api k with
                | OcrAnswers text =>
                    ocr_text (GeminiService.ocr_attempts api rest (S attempt)
                                ds) = text_or_empty text
                | OcrThrows _ =>
                    S k = 5%nat /\
                    ocr_text (GeminiService.ocr_attempts api rest (S attempt)
                                ds) = []
                end).
    { intros ds Hne ->.
      destruct (IH (S attempt)
                  (delays ++ (if throttled
                              then [2000 * 2 ^ Z.of_nat attempt] else []))
                  ltac:(lia) ltac:(lia))
        as (k & Hk & Hc & Hprev & Hd & Hlast).
      exists k. repeat split; try lia; try assumption.
      - intros j Hj. destruct (Nat.eq_dec j attempt) as [-> | Hn];
          [eauto | apply Hprev; lia].
      - rewrite Hd, <- app_assoc. f_equal.
        replace (k - attempt)%nat with (S (k - S attempt)) by lia.
        cbn [seq List.filter map]. rewrite Ea.
        destruct throttled; reflexivity. }
    destruct (Nat.eq_dec attempt 4%nat) as [H4 | H4].
    + subst attempt. rewrite andb_false_r. cbn [Nat.eqb Nat.sub].
      exists 4%nat. rewrite Ea, Nat.sub_diag. cbn.
      rewrite app_nil_r. repeat split; lia.
    + replace (attempt <? 5 - 1)%nat with true
        by (symmetry; apply Nat.ltb_lt; lia).
      replace (attempt =? 5 - 1)%nat with false
        by (symmetry; apply Nat.eqb_neq; lia).
      rewrite andb_true_r.
      destruct throttled; (apply Hnext; [exact H4|]);
        [reflexivity | now rewrite app_nil_r].
  - exists attempt. rewrite Ea, Nat.sub_diag. cbn.
    rewrite app_nil_r. repeat split; lia.
Qed.

(** [performOCR] of [geminiService.ts] makes no call for an empty image.
    Otherwise it calls the model up to five times and returns the text of
    the first answer, empty when the answer has none; every error, of
    whatever kind, is followed by another attempt until the fifth, after
    which the text is empty; and it waits, [2000 * 2 ^ j] ms after attempt
    [j], only after the errors taken for rate limiting or overload: after
    any other error the next attempt is made at once. *)
Theorem gemini_ocr_retries_every_error (base64Image : jsstring)
        (api : nat -> OcrOutcome) :
  let r := GeminiService.performOCR base64Image api in
  match base64Image with
  | [] => r = {| ocr_text := []; ocr_calls := 0; ocr_delays := [] |}
  | _ :: _ =>
      exists k,
        (k < 5)%nat /\ ocr_calls r = S k /\
        (forall j, (j < k)%nat -> exists t, api j = OcrThrows t) /\
        ocr_delays r
        = map (fun j => 2000 * 2 ^ Z.of_nat j)
              (List.filter (fun j => match api j with
                                     | OcrThrows true => true
                                     | _ => false
                                     end) (seq 0 k)) /\
        match api k with
        | OcrAnswers text => ocr_text r = text_or_empty text
        | OcrThrows _ => k = 4%nat /\ ocr_text r = []
        end
  end.
Proof.
  destruct base64Image as [|c s]; [reflexivity|].
  cbv zeta. unfold GeminiService.performOCR.
  destruct (gemini_ocr_attempts_run api GeminiService.retries 0 [] eq_refl
              ltac:(unfold GeminiService.retries; lia))
    as (k & Hk & Hc & Hprev & Hd & Hlast).
  unfold GeminiService.retries in *.
  exists k. rewrite Nat.sub_0_r in Hd. cbn [app] in Hd.
  repeat split; try lia; try assumption.
  - intros j Hj. apply Hprev. lia.
  - destruct (api k); [|exact Hlast]. destruct Hlast. split; [lia|easy].
Qed.

Lemma ocr_attempts_run (api : nat -> OcrOutcome) (remaining : nat) :
  forall (attempt : nat) (delays : list Z),
    (attempt + remaining = OcrService.retries)%nat -> (0 < remaining)%nat ->
    let r := OcrService.ocr_attempts api remaining attempt delays in
    exists k,
      (attempt <= k < OcrService.retries)%nat /\
      ocr_calls r = S k /\
      (forall j, (attempt <= j < k)%nat -> api j = OcrThrows true) /\
      ocr_delays r
      = delays ++ map (fun j => 2000 * 2 ^ Z.of_nat j)
                      (seq attempt (k - attempt)) /\
      match api k with
      | OcrAnswers text => ocr_text r = text_or_empty text
      | OcrThrows throttled =>
          (throttled = false \/ S k = OcrService.retries) /\ ocr_text r = []
      end.
Proof.
  unfold OcrService.retries.
  induction remaining as [|rest IH]; intros attempt delays Hsum Hpos; [lia|].
  cbn [OcrService.ocr_attempts]. unfold OcrService.retries.
  destruct (api attempt) as [throttled | text] eqn:Ea.
  - destruct (throttled && (attempt <? 3 - 1)%nat) eqn:Ego.
    + apply andb_true_iff in Ego. destruct Ego as [-> Hlt].
      apply Nat.ltb_lt in Hlt.
      destruct (IH (S attempt) (delays ++ [2000 * 2 ^ Z.of_nat attempt])
                  ltac:(lia) ltac:(lia))
        as (k & Hk & Hc & Hprev & Hd & Hlast).
      exists k. repeat split; try lia; try assumption.
      * intros j Hj. destruct (Nat.eq_dec j attempt) as [-> | Hn];
          [exact Ea | apply Hprev; lia].
      * rewrite Hd, <- app_assoc. f_equal.
        replace (k - attempt)%nat with (S (k - S attempt)) by lia.
        reflexivity.
    + exists attempt. rewrite Ea, Nat.sub_diag. cbn.
      rewrite app_nil_r. repeat split; try lia.
      apply andb_false_iff in Ego. destruct Ego as [Ht | Hl];
        [now left | right]. apply Nat.ltb_ge in Hl. lia.
  - exists attempt. rewrite Ea, Nat.sub_diag. cbn.
    rewrite app_nil_r. repeat split; lia.
Qed.

(** [performOCR] of [ocrService.ts], for the engine [gemini]: no call for an
    empty image; an error when no key is configured; otherwise up to three
    calls, a further one only after an error taken for rate limiting, and
    after the wait of [2000 * 2 ^ j] ms; the text of the first answer is
    returned, and the empty text after any other error or a third rate
    limiting. *)
Theorem ocr_retries_rate_limits_only (base64Image : jsstring)
        (apiKey : bool) (api : nat -> OcrOutcome) :
  match base64Image with
  | [] =>
      OcrService.performOCR base64Image apiKey api
      = Some {| ocr_text := []; ocr_calls := 0; ocr_delays := [] |}
  | _ :: _ =>
      if apiKey
      then
        exists r k,
          OcrService.performOCR base64Image apiKey api = Some r /\
          (k < 3)%nat /\ ocr_calls r = S k /\
          (forall j, (j < k)%nat -> api j = OcrThrows true) /\
          ocr_delays r = map (fun j => 2000 * 2 ^ Z.of_nat j) (seq 0 k) /\
          match api k with
          | OcrAnswers text => ocr_text r = text_or_empty text
          | OcrThrows throttled =>
              (throttled = false \/ k = 2%nat) /\ ocr_text r = []
          end
      else OcrService.performOCR base64Image apiKey api = None
  end.
Proof.
  destruct base64Image as [|c s]; [reflexivity|].
  destruct apiKey; [|reflexivity].
  unfold OcrService.performOCR.
  destruct (ocr_attempts_run api OcrService.retries 0 [] eq_refl
              ltac:(unfold OcrService.retries; lia))
    as (k & Hk & Hc & Hprev & Hd & Hlast).
  unfold OcrService.retries in *.
  eexists. exists k. split; [reflexivity|].
  rewrite Nat.sub_0_r in Hd. cbn [app] in Hd.
  repeat split; try lia; try assumption.
  - intros j Hj. apply Hprev. lia.
  - destruct (api k); [|exact Hlast]. destruct Hlast as ([H | H] & Ht);
      (split; [|exact Ht]); [now left | right; lia].
Qed.

(** ** [formatTimeLeft] *)

Lemma to_uint_not_nil (n : N) : N.to_uint n <> Nil.
Proof.
  destruct n as [|p]; [discriminate|].
  apply DecimalPos.Unsigned.to_uint_nonnil.
Qed.

Lemma numeral_string (d : uint) :
  d <> Nil ->
  NilZero.string_of_uint d = NilEmpty.string_of_uint d /\
  (1 <= String.length (NilEmpty.string_of_uint d))%nat.
Proof. destruct d; intros H; try contradiction; split; cbn; try lia; reflexivity. Qed.

(** A number padded to two digits is a decimal numeral of that number, of
    two characters at least. *)
Lemma padded_numeral (n : N) :
  exists d,
    padStart (toString (Z.of_N n)) 2 "0" = NilZero.string_of_uint d /\
    N.of_uint d = n /\
    (2 <= String.length (NilZero.string_of_uint d))%nat.
Proof.
  unfold toString, padStart. rewrite N2Z.id.
  pose proof (to_uint_not_nil n) as Hnil.
  pose proof (Unsigned.of_to n) as Hval.
  destruct (numeral_string _ Hnil) as (Hs & Hlen).
  rewrite Hs.
  destruct (String.length (NilEmpty.string_of_uint (N.to_uint n)))
    as [|[|k]] eqn:El; [lia | |].
  - exists (D0 (N.to_uint n)). cbn. rewrite El. split; [reflexivity|].
    split; [exact Hval | lia].
  - exists (N.to_uint n). rewrite Hs, El. cbn. split; [reflexivity|].
    split; [exact Hval | lia].
Qed.

Lemma padded_seconds (s : Z) :
  0 <= s < 60 -> String.length (padStart (toString s) 2 "0") = 2%nat.
Proof.
  intros Hs.
  assert (Hall : forallb (fun k => (String.length
                                      (padStart (toString (Z.of_nat k)) 2 "0")
                                    =? 2)%nat) (seq 0 60) = true)
    by (vm_compute; reflexivity).
  rewrite forallb_forall in Hall.
  specialize (Hall (Z.to_nat s)). rewrite Z2Nat.id in Hall by lia.
  apply Nat.eqb_eq, Hall, in_seq. lia.
Qed.

(** For a number of seconds that is not negative, [formatTimeLeft] shows
    the minutes, a colon and the seconds: two decimal numerals, the first
    of two digits at least and the second of exactly two, whose values are
    the quotient and the remainder by 60, so that the time read back is the
    time given. *)
Theorem formatTimeLeft_reads_back (seconds : Z) :
  0 <= seconds ->
  exists dm ds : uint,
    formatTimeLeft seconds
    = String.append (NilZero.string_of_uint dm)
                    (String ":" (NilZero.string_of_uint ds)) /\
    (2 <= String.length (NilZero.string_of_uint dm))%nat /\
    String.length (NilZero.string_of_uint ds) = 2%nat /\
    Z.of_N (N.of_uint dm) = seconds / 60 /\
    Z.of_N (N.of_uint ds) = seconds mod 60 /\
    0 <= Z.of_N (N.of_uint ds) < 60 /\
    60 * Z.of_N (N.of_uint dm) + Z.of_N (N.of_uint ds) = seconds.
Proof.
  intros Hs. unfold formatTimeLeft. cbv zeta.
  assert (Hm : 0 <= seconds / 60) by (apply Z.div_pos; lia).
  pose proof (Z.mod_pos_bound seconds 60 ltac:(lia)) as Hr.
  destruct (padded_numeral (Z.to_N (seconds / 60))) as (dm & Em & Vm & Lm).
  destruct (padded_numeral (Z.to_N (seconds mod 60))) as (ds & Es & Vs & _).
  rewrite Z2N.id in Em, Es by lia.
  exists dm, ds. rewrite Em, Es, Vm, Vs, !Z2N.id by lia.
  rewrite <- Es, padded_seconds by lia.
  repeat split; try lia.
  pose proof (Z.div_mod seconds 60 ltac:(lia)). lia.
Qed.

Lemma formatTimeLeft_reads_back_witness :
  exists dm ds : uint,
    formatTimeLeft 1799
    = String.append (NilZero.string_of_uint dm)
                    (String ":" (NilZero.string_of_uint ds)) /\
    (2 <= String.length (NilZero.string_of_uint dm))%nat /\
    String.length (NilZero.string_of_uint ds) = 2%nat /\
    Z.of_N (N.of_uint dm) = 1799 / 60 /\
    Z.of_N (N.of_uint ds) = 1799 mod 60 /\
    0 <= Z.of_N (N.of_uint ds) < 60 /\
    60 * Z.of_N (N.of_uint dm) + Z.of_N (N.of_uint ds) = 1799.
Proof. apply (formatTimeLeft_reads_back 1799). lia. Defined.

(** ** [toggleFavorite] *)

Lemma set_delete_spec (v u : jsstring) (s : list jsstring) :
  In u (set_delete v s) <-> In u s /\ u <> v.
Proof.
  unfold set_delete. rewrite filter_In. split; intros (Hin & H); split; auto.
  - intros ->. rewrite bool_decide_eq_true_2 in H by reflexivity.
    discriminate.
  - now rewrite bool_decide_eq_false_2.
Qed.

(** Toggling a voice with a name flips whether it is a favourite and
    changes nothing for the other voices; the favourites stay without
    repetition, and toggling twice gives the favourites back, up to their
    order. *)
Theorem toggle_favorite_flips (voiceId : jsstring)
        (favorites : list jsstring) :
  voiceId <> [] -> NoDup favorites ->
  let newFavs := toggleFavorite voiceId favorites in
  NoDup newFavs /\
  (In voiceId newFavs <-> ~ In voiceId favorites) /\
  (forall u, u <> voiceId -> (In u newFavs <-> In u favorites)) /\
  Permutation (toggleFavorite voiceId newFavs) favorites.
Proof.
  intros Hv Hnd. cbv zeta.
  destruct voiceId as [|c v]; [contradiction|].
  set (id := c :: v) in *.
  assert (Hflip : forall s, NoDup s ->
            let s' := toggleFavorite id s in
            NoDup s' /\ (In id s' <-> ~ In id s) /\
            (forall u, u <> id -> (In u s' <-> In u s))).
  { intros s Hs. unfold toggleFavorite, set_add. subst id.
    cbv zeta.
    destruct (set_has (c :: v) s) eqn:E; unfold set_has in E.
    - apply bool_decide_eq_true, list_elem_of_In in E.
      split.
      { unfold set_delete.
        now apply NoDup_ListNoDup, List.NoDup_filter, NoDup_ListNoDup. }
      split.
      + rewrite set_delete_spec. tauto.
      + intros u Hu. rewrite set_delete_spec. tauto.
    - apply bool_decide_eq_false in E. rewrite list_elem_of_In in E.
      split; [|split].
      + apply NoDup_app. split; [exact Hs|]. split.
        * intros x Hx Hx'. apply list_elem_of_singleton in Hx'. subst x.
          apply E. now apply list_elem_of_In.
        * apply NoDup_singleton.
      + rewrite in_app_iff. cbn. tauto.
      + intros u Hu. rewrite in_app_iff. cbn. split; [|tauto].
        intros [H | [H | []]]; [exact H | congruence]. }
  destruct (Hflip favorites Hnd) as (H1 & H2 & H3).
  destruct (Hflip (toggleFavorite id favorites) H1) as (H4 & H5 & H6).
  split; [exact H1|]. split; [exact H2|]. split; [exact H3|].
  apply NoDup_Permutation; [exact H4 | exact Hnd |].
  intros u. rewrite !list_elem_of_In.
  destruct (decide (u = id)) as [-> | Hne].
  - rewrite H5, H2. destruct (decide (id ∈ favorites)) as [Hin | Hin];
      rewrite list_elem_of_In in Hin; tauto.
  - rewrite H6, H3 by exact Hne. tauto.
Qed.

Lemma toggle_favorite_flips_witness :
  let newFavs := toggleFavorite (lit "Kore") [lit "Puck"; lit "Kore"] in
  NoDup newFavs /\
  (In (lit "Kore") newFavs <-> ~ In (lit "Kore") [lit "Puck"; lit "Kore"]) /\
  (forall u, u <> lit "Kore" ->
             (In u newFavs <-> In u [lit "Puck"; lit "Kore"])) /\
  Permutation (toggleFavorite (lit "Kore") newFavs)
              [lit "Puck"; lit "Kore"].
Proof.
  apply (toggle_favorite_flips (lit "Kore") [lit "Puck"; lit "Kore"]).
  - discriminate.
  - repeat constructor; cbn; intros H.
    + apply list_elem_of_singleton in H. discriminate.
    + inversion H.
Defined.

(** ** [sortedVoices] *)

Lemma sort_insert_past {A : Type} (cmp : A -> A -> Z) (x : A)
      (front back : list A) :
  Forall (fun y => 0 < cmp x y) front ->
  sort_insert cmp x (front ++ back) = front ++ sort_insert cmp x back.
Proof.
  induction 1 as [|y front Hy _ IH]; [reflexivity|].
  cbn. replace (cmp x y <=? 0) with false by lia. now rewrite IH.
Qed.

Lemma sort_insert_first {A : Type} (cmp : A -> A -> Z) (x : A)
      (l : list A) :
  Forall (fun y => cmp x y <= 0) l -> sort_insert cmp x l = x :: l.
Proof.
  intros H. destruct l as [|y l]; [reflexivity|].
  inversion H; subst. cbn. now replace (cmp x y <=? 0) with true by lia.
Qed.

Lemma sort_favorites_first (favorites : list jsstring)
      (l : list VoiceOption) :
  sort (compare_favorites favorites) l
  = List.filter (fun o => set_has (voice_id o) favorites) l
    ++ List.filter (fun o => negb (set_has (voice_id o) favorites)) l.
Proof.
  induction l as [|x l IH]; [reflexivity|].
  unfold sort in *. cbn [fold_right List.filter]. rewrite IH.
  destruct (set_has (voice_id x) favorites) eqn:Ex; cbn [negb app].
  - apply sort_insert_first. apply List.Forall_forall. intros y _.
    unfold compare_favorites. rewrite Ex.
    destruct (set_has (voice_id y) favorites); cbn; lia.
  - rewrite sort_insert_past.
    + f_equal. apply sort_insert_first. apply List.Forall_forall.
      intros y Hy. apply filter_In in Hy. destruct Hy as [_ Hy].
      apply negb_true_iff in Hy.
      unfold compare_favorites. rewrite Ex, Hy. cbn. lia.
    + apply List.Forall_forall. intros y Hy. apply filter_In in Hy.
      destruct Hy as [_ Hy].
      unfold compare_favorites. rewrite Ex, Hy. cbn. lia.
Qed.

Lemma filter_split_permutation {A : Type} (f : A -> bool) (l : list A) :
  Permutation (List.filter f l ++ List.filter (fun x => negb (f x)) l) l.
Proof.
  induction l as [|x l IH]; [constructor|].
  cbn. destruct (f x); cbn.
  - now constructor.
  - rewrite <- Permutation_middle. now constructor.
Qed.

(** The voices offered are those of the engine, the favourites first and
    then the others, each group in the order of the list: no voice is lost
    or repeated, and the list is never empty, one entry standing for the
    voice of the system when the platform reports none. *)
Theorem sorted_voices_favorites_first
        (formatVoiceLabel : SpeechSynthesisVoice -> jsstring)
        (ttsEngine : TtsEngine) (browserVoices : list SpeechSynthesisVoice)
        (favorites : list jsstring) :
  let list := voiceList formatVoiceLabel ttsEngine browserVoices in
  let sorted := sortedVoices formatVoiceLabel ttsEngine browserVoices
                             favorites in
  sorted
  = List.filter (fun o => set_has (voice_id o) favorites) list
    ++ List.filter (fun o => negb (set_has (voice_id o) favorites)) list /\
  Permutation sorted list /\
  sorted <> [] /\
  map voice_id list
  = match ttsEngine, browserVoices with
    | gemini, _ =>
        [lit "Kore"; lit "Zephyr"; lit "Puck"; lit "Fenrir"; lit "Charon"]
    | browser, [] => [[]]
    | browser, _ :: _ => map name browserVoices
    end.
Proof.
  cbv zeta. unfold sortedVoices. rewrite sort_favorites_first.
  split; [reflexivity|].
  pose proof (filter_split_permutation
                (fun o => set_has (voice_id o) favorites)
                (voiceList formatVoiceLabel ttsEngine browserVoices)) as Hp.
  cbv beta in Hp.
  split; [exact Hp|]. split.
  - intros Hnil. rewrite Hnil in Hp. apply Permutation_nil in Hp.
    unfold voiceList in Hp.
    destruct ttsEngine; [discriminate|].
    destruct browserVoices; discriminate.
  - unfold voiceList. destruct ttsEngine; [reflexivity|].
    destruct browserVoices as [|v vs]; [reflexivity|].
    now rewrite map_map.
Qed.

(** ** [handleTextSubmitClick] *)

(** A text is submitted exactly when it has a character that is not white
    space, which is exactly when the chunker gives it a segment: a
    submitted text always has something to read. *)
Theorem submitted_text_has_segments (inputText : jsstring) (maxChars : Z) :
  match handleTextSubmitClick inputText with
  | Some text =>
      text = inputText /\ splitTextIntoChunks inputText maxChars <> []
  | None => splitTextIntoChunks inputText maxChars = []
  end.
Proof.
  unfold handleTextSubmitClick, jslen.
  destruct (trim inputText) as [|c s] eqn:Et.
  - cbn. apply split_whitespace_only, non_ws_nil_forallb.
    now apply trim_nil.
  - destruct (Z.of_nat (length (c :: s)) =? 0) eqn:E;
      [apply Z.eqb_eq in E; cbn [length] in E; lia|].
    split; [reflexivity|]. apply segments_exist.
    intros H. apply trim_nil in H. congruence.
Qed.
